(** * myshell: the parse-and-execute pipeline

    A shallow embedding of the shell's core, file by file:

    - [src/parser.c]: [tokenize], [is_op], [build_argv], [parse_line],
      [free_pipeline];
    - [src/pipe.c]: [create_pipes], [close_all_pipes],
      [connect_pipes_for_child];
    - [src/redir.c]: [apply_redirections];
    - [src/exec.c]: [execute_pipeline].

    Conventions.

    - A C string is a [string]; reading the terminating NUL is [deref] on
      the empty string.  A [char*] that may be NULL is an [option string].
    - [int] values are unbounded ([nat] for indices and counts, [Z] for
      [n_cmds] and return values): lines hold far fewer than [INT_MAX]
      characters.
    - The first part of the file takes every allocation to succeed; module
      [Mem] below models the same functions over an allocation table in
      which every [malloc], [calloc], [realloc] and [strdup] may fail, and
      relates the two.
    - System calls take their outcome from an explicit oracle record. *)

From Stdlib Require Import ZArith Ascii String Lia.
From stdpp Require Import base strings list gmap.

#[local] Set Warnings "-clear-no-such-hyp".

Local Open Scope Z_scope.
Local Open Scope nat_scope.

(** ** Tokenizer ([src/parser.c]) *)

(** [*p]: the character under the cursor, NUL at the end of the string. *)
Definition deref (p : string) : ascii :=
  match p with
  | EmptyString => "000"%char
  | String c _ => c
  end.

(** [p + 1]. *)
Definition advance (p : string) : string :=
  match p with
  | EmptyString => EmptyString
  | String _ p' => p'
  end.

Definition is_nul (c : ascii) : bool := Ascii.eqb c "000"%char.

(** [isspace] of <ctype.h> in the C locale: space, \t, \n, \v, \f, \r. *)
Definition isspace (c : ascii) : bool :=
  let n := nat_of_ascii c in
  Nat.eqb n 32 || (Nat.leb 9 n && Nat.leb n 13).

(** [*p == '<' || *p == '>' || *p == '|'] *)
Definition is_op_char (c : ascii) : bool :=
  Ascii.eqb c "<"%char || Ascii.eqb c ">"%char || Ascii.eqb c "|"%char.

(** [*p == '2' && *(p + 1) == '>'] with [p] at [String c p']. *)
Definition starts_2gt (c : ascii) (p' : string) : bool :=
  Ascii.eqb c "2"%char && Ascii.eqb (deref p') ">"%char.

(** [while ( *p && isspace((unsigned char)*p)) p++;] *)
Fixpoint skip_ws (p : string) : string :=
  match p with
  | EmptyString => EmptyString
  | String c p' =>
      if negb (is_nul c) && isspace c then skip_ws p' else p
  end.

(** The word loop: returns the characters [start .. p-1] and the cursor
    where it stopped. *)
Fixpoint scan_word (p : string) : string * string :=
  match p with
  | EmptyString => (EmptyString, EmptyString)
  | String c p' =>
      if negb (is_nul c) && negb (isspace c) && negb (is_op_char c) then
        if starts_2gt c p' then (EmptyString, p)
        else let (w, r) := scan_word p' in (String c w, r)
      else (EmptyString, p)
  end.

(** [push_token]: nothing is pushed when [len <= 0]. *)
Definition push_token (tokens : list string) (tok : string) : list string :=
  if Nat.leb (String.length tok) 0 then tokens else tokens ++ [tok].

(** The outer [while ( *p)] loop.  [fuel] bounds the number of iterations;
    every iteration moves the cursor, so the length of the line plus one is
    enough ([tok_loop_fuel]). *)
Fixpoint tok_loop (fuel : nat) (p : string) (tokens : list string)
  : list string :=
  match fuel with
  | O => tokens
  | S fuel' =>
      if is_nul (deref p) then tokens
      else
        match skip_ws p with
        | EmptyString => tokens
        | String c p' =>
            if is_nul c then tokens
            else if starts_2gt c p' then
              tok_loop fuel' (advance p') (push_token tokens "2>")
            else if is_op_char c then
              tok_loop fuel' p' (push_token tokens (String c EmptyString))
            else
              let (w, r) := scan_word (String c p') in
              tok_loop fuel' r (push_token tokens w)
        end
  end.

(** [tokenize]; a NULL [line] yields no token. *)
Definition tokenize (line : option string) : list string :=
  match line with
  | None => []
  | Some l => tok_loop (S (String.length l)) l []
  end.

(** ** Data model ([include/parser.h]) *)

(** One pipeline stage.  [argv] is the [char**] array itself: [None] is a
    NULL array pointer, and inside the array [None] is a NULL entry, so the
    terminator is visible. *)
Record Command := mkCommand {
  argv : option (list (option string));
  in_file : option string;
  out_file : option string;
  err_file : option string
}.

Record Pipeline := mkPipeline {
  cmds : option (list Command);
  n_cmds : Z
}.

(** A [calloc]ed [Command]: every pointer is NULL. *)
Definition zero_cmd : Command := mkCommand None None None None.

Definition set_in_file (f : option string) (c : Command) : Command :=
  mkCommand (argv c) f (out_file c) (err_file c).
Definition set_out_file (f : option string) (c : Command) : Command :=
  mkCommand (argv c) (in_file c) f (err_file c).
Definition set_err_file (f : option string) (c : Command) : Command :=
  mkCommand (argv c) (in_file c) (out_file c) f.
Definition set_argv (a : option (list (option string))) (c : Command)
  : Command :=
  mkCommand a (in_file c) (out_file c) (err_file c).

(** [pipeline_init] *)
Definition pipeline_init : Pipeline := mkPipeline None 0.

(** [free_pipeline] without the allocation table (see [Mem.free_pipeline]
    for the frees): both paths leave [cmds == NULL] and [n_cmds == 0]. *)
Definition free_pipeline (p : Pipeline) : Pipeline :=
  match cmds p with
  | None => mkPipeline None 0
  | Some _ => mkPipeline None 0
  end.

(** ** Pipeline builder ([src/parser.c]) *)

Definition tok_is (t lit : string) : bool := String.eqb t lit.

(** [is_op] *)
Definition is_op (t : string) : bool :=
  tok_is t "<" || tok_is t ">" || tok_is t "2>" || tok_is t "|".

(** The test heading both loops of [build_argv]. *)
Definition is_redir (t : string) : bool :=
  tok_is t "<" || tok_is t ">" || tok_is t "2>".

(** First loop of [build_argv] over [tokens[start .. end-1]]: the [i++]
    after a redirection operator skips the next token when there is one. *)
Fixpoint count_words (seg : list string) : nat :=
  match seg with
  | [] => 0
  | t :: rest =>
      if is_redir t then
        match rest with
        | [] => 0
        | _ :: rest' => count_words rest'
        end
      else if tok_is t "|" then count_words rest
      else S (count_words rest)
  end.

(** Second loop of [build_argv]: [argv[k] = strdup(tokens[i]); k++]. *)
Fixpoint fill_argv (seg : list string) (k : nat) (a : list (option string))
  : nat * list (option string) :=
  match seg with
  | [] => (k, a)
  | t :: rest =>
      if is_redir t then
        match rest with
        | [] => (k, a)
        | _ :: rest' => fill_argv rest' k a
        end
      else if tok_is t "|" then fill_argv rest k a
      else fill_argv rest (S k) (<[k := Some t]> a)
  end.

(** [build_argv]: [calloc(count + 1, ..)], the fill loop, [argv[k] = NULL]. *)
Definition build_argv (seg : list string) : list (option string) :=
  let count := count_words seg in
  let a := replicate (count + 1) None in
  let (k, a) := fill_argv seg 0 a in
  <[k := None]> a.

Definition MSG_PIPE_MISSING : string := "Command missing after pipe.".
Definition MSG_PIPE_EMPTY : string := "Empty command between pipes.".
Definition MSG_IN : string := "Input file not specified.".
Definition MSG_OUT : string := "Output file not specified.".
Definition MSG_OUT_AFTER : string :=
  "Output file not specified after redirection.".
Definition MSG_ERR : string := "Error output file not specified.".
Definition MSG_OOM : string := "Out of memory.".

(** The redirection loop of one segment, [for (j = seg_start; j < seg_end;
    j++)], on the [Command] slot [c]; [last_seg] is [seg_end == ntok]. *)
Fixpoint scan_redirs (n_cmds : nat) (last_seg : bool) (seg : list string)
    (c : Command) : string + Command :=
  match seg with
  | [] => inr c
  | t :: rest =>
      if tok_is t "<" then
        match rest with
        | [] => inl MSG_IN
        | f :: rest' =>
            if is_op f then inl MSG_IN
            else scan_redirs n_cmds last_seg rest' (set_in_file (Some f) c)
        end
      else if tok_is t ">" then
        let msg :=
          if Nat.ltb 1 n_cmds && last_seg then MSG_OUT_AFTER else MSG_OUT in
        match rest with
        | [] => inl msg
        | f :: rest' =>
            if is_op f then inl msg
            else scan_redirs n_cmds last_seg rest' (set_out_file (Some f) c)
        end
      else if tok_is t "2>" then
        match rest with
        | [] => inl MSG_ERR
        | f :: rest' =>
            if is_op f then inl MSG_ERR
            else scan_redirs n_cmds last_seg rest' (set_err_file (Some f) c)
        end
      else scan_redirs n_cmds last_seg rest c
  end.

(** [c->argv == NULL || c->argv[0] == NULL] *)
Definition argv_empty (c : Command) : bool :=
  match argv c with
  | None => true
  | Some a =>
      match a !! 0 with
      | Some (Some _) => false
      | _ => true
      end
  end.

(** Steps 1-3 of the body run at each segment end. *)
Definition do_segment (n_cmds : nat) (last_seg : bool) (seg : list string)
    (c : Command) : string + Command :=
  match scan_redirs n_cmds last_seg seg c with
  | inl msg => inl msg
  | inr c1 =>
      let c2 := set_argv (Some (build_argv seg)) c1 in
      if argv_empty c2 then inl MSG_PIPE_MISSING else inr c2
  end.

(** What [parse_line] leaves behind: its return value, [*out] and the
    C string in [err]. *)
Record parse_result := mkResult {
  ret : Z;
  out : Pipeline;
  err : string
}.

(** [if (err && err_sz > 0) snprintf(err, err_sz, msg)]; a NULL [err] is
    [err_sz = 0]. *)
Definition snprintf (err_sz : nat) (msg : string) : string :=
  if Nat.ltb 0 err_sz then String.substring 0 (err_sz - 1) msg
  else EmptyString.

(** The [fail:] label, reached with [*out = p] and message [msg]. *)
Definition parse_fail (err_sz : nat) (p : Pipeline) (msg : string)
  : parse_result :=
  mkResult 1%Z (free_pipeline p) (snprintf err_sz msg).

(** Loop B, [for (i = 0; i <= ntok; i++)]: [rest] is [tokens[i ..]], [cur]
    is [tokens[seg_start .. i-1]], [cs] is the array [out->cmds]. *)
Fixpoint seg_loop (err_sz n_cmds : nat) (rest cur : list string)
    (cmd_index : nat) (cs : list Command) : parse_result :=
  let p := mkPipeline (Some cs) (Z.of_nat n_cmds) in
  match rest with
  | [] =>
      match do_segment n_cmds true cur (default zero_cmd (cs !! cmd_index))
      with
      | inl msg => parse_fail err_sz p msg
      | inr c =>
          mkResult 0%Z
            (mkPipeline (Some (<[cmd_index := c]> cs)) (Z.of_nat n_cmds))
            EmptyString
      end
  | t :: rest' =>
      if tok_is t "|" then
        match do_segment n_cmds false cur
                (default zero_cmd (cs !! cmd_index)) with
        | inl msg => parse_fail err_sz p msg
        | inr c =>
            seg_loop err_sz n_cmds rest' [] (S cmd_index)
              (<[cmd_index := c]> cs)
        end
      else seg_loop err_sz n_cmds rest' (cur ++ [t]) cmd_index cs
  end.

(** [for (i = 0; i < ntok - 1; i++)]: some [tokens[i]], [tokens[i+1]] are
    both ["|"]. *)
Fixpoint adjacent_pipes (tokens : list string) : bool :=
  match tokens with
  | [] => false
  | t :: rest =>
      match rest with
      | [] => false
      | u :: _ => (tok_is t "|" && tok_is u "|") || adjacent_pipes rest
      end
  end.

(** The counting loop: number of ["|"] tokens. *)
Fixpoint count_pipes (tokens : list string) : nat :=
  match tokens with
  | [] => 0
  | t :: rest =>
      if tok_is t "|" then S (count_pipes rest) else count_pipes rest
  end.

(** [parse_line] from the token array on. *)
Definition parse_tokens (tokens : list string) (err_sz : nat)
  : parse_result :=
  match tokens with
  | [] => mkResult 1%Z pipeline_init EmptyString
  | first :: _ =>
      if tok_is first "|" then
        parse_fail err_sz pipeline_init MSG_PIPE_MISSING
      else if tok_is (List.last tokens first) "|" then
        parse_fail err_sz pipeline_init MSG_PIPE_MISSING
      else if adjacent_pipes tokens then
        parse_fail err_sz pipeline_init MSG_PIPE_EMPTY
      else
        let n := 1 + count_pipes tokens in
        seg_loop err_sz n tokens [] 0 (replicate n zero_cmd)
  end.

(** [parse_line] *)
Definition parse_line (line : option string) (err_sz : nat)
  : parse_result :=
  parse_tokens (tokenize line) err_sz.

(** [main] calls [parse_line(line, &pl, errbuf, sizeof(errbuf))] with
    [char errbuf[256]]. *)
Definition ERRBUF_SZ : nat := 256.

(** ** Vocabulary for statements about lines *)

(** The string holds no NUL: all of it is the C string. *)
Fixpoint nul_free (s : string) : bool :=
  match s with
  | EmptyString => true
  | String c s' => negb (is_nul c) && nul_free s'
  end.

(** The last character of [s] is [x]. *)
Fixpoint ends_with (x : ascii) (s : string) : bool :=
  match s with
  | EmptyString => false
  | String c s' =>
      match s' with
      | EmptyString => Ascii.eqb c x
      | String _ _ => ends_with x s'
      end
  end.

(** A run of whitespace characters. *)
Fixpoint all_space (s : string) : bool :=
  match s with
  | EmptyString => true
  | String c s' => negb (is_nul c) && isspace c && all_space s'
  end.

(** ** Vocabulary for statements about token sequences *)

(** The segments [s1; ..; sn] written as one token sequence
    [s1 | s2 | .. | sn]. *)
Fixpoint join_pipes (segs : list (list string)) : list string :=
  match segs with
  | [] => []
  | s :: ss =>
      match ss with
      | [] => s
      | _ :: _ => s ++ "|" :: join_pipes ss
      end
  end.

(** The command segments of a token sequence: the spans between ["|"]
    tokens. *)
Fixpoint split_pipes (tokens : list string) : list (list string) :=
  match tokens with
  | [] => [[]]
  | t :: rest =>
      if tok_is t "|" then [] :: split_pipes rest
      else
        match split_pipes rest with
        | [] => [[t]]
        | s :: ss => (t :: s) :: ss
        end
  end.

Definition no_pipe (seg : list string) : Prop :=
  Forall (fun t => tok_is t "|" = false) seg.

(** [seg_words seg ws]: the segment [seg] is made of words and of complete
    redirections (an operator [<], [>] or [2>] and, right after it, a
    filename that is not an operator), and [ws] are its words in order:
    what is left of [seg] once every redirection operator and the filename
    it consumes are taken out. *)
Inductive seg_words : list string -> list string -> Prop :=
| seg_words_nil : seg_words [] []
| seg_words_word w seg ws :
    is_op w = false -> seg_words seg ws -> seg_words (w :: seg) (w :: ws)
| seg_words_redir op f seg ws :
    is_redir op = true -> is_op f = false -> seg_words seg ws ->
    seg_words (op :: f :: seg) ws.

(** A segment [parse_line] accepts: complete redirections and at least one
    word. *)
Definition accepted (seg : list string) : Prop :=
  exists ws, seg_words seg ws /\ ws <> [].

(** [f] is the filename after the last [op] of the segment; [None] when
    the segment has no [op]. *)
Definition last_occurrence (op : string) (seg : list string)
    (f : option string) : Prop :=
  match f with
  | Some f => exists pre post, seg = pre ++ op :: f :: post /\ op ∉ post
  | None => op ∉ seg
  end.

(** The three checks of part A of [parse_line], on a non-empty sequence. *)
Definition first_is_pipe (tokens : list string) : Prop :=
  head tokens = Some "|".
Definition last_is_pipe (tokens : list string) : Prop :=
  last tokens = Some "|".

(** Two [|] tokens next to each other, at positions [i] and [i + 1]. *)
Definition pipes_adjacent (tokens : list string) : Prop :=
  exists i, tokens !! i = Some "|" /\ tokens !! (S i) = Some "|".

(** Loop B by segments: [s] is the segment being read, [ss] the segments
    after it. *)
Fixpoint run_segments (err_sz n_cmds : nat) (s : list string)
    (ss : list (list string)) (cmd_index : nat) (cs : list Command)
  : parse_result :=
  let p := mkPipeline (Some cs) (Z.of_nat n_cmds) in
  match ss with
  | [] =>
      match do_segment n_cmds true s (default zero_cmd (cs !! cmd_index))
      with
      | inl msg => parse_fail err_sz p msg
      | inr c =>
          mkResult 0%Z
            (mkPipeline (Some (<[cmd_index := c]> cs)) (Z.of_nat n_cmds))
            EmptyString
      end
  | s' :: ss' =>
      match do_segment n_cmds false s (default zero_cmd (cs !! cmd_index))
      with
      | inl msg => parse_fail err_sz p msg
      | inr c =>
          run_segments err_sz n_cmds s' ss' (S cmd_index)
            (<[cmd_index := c]> cs)
      end
  end.

(** The outcome of the segments in order, each on a fresh slot: the first
    error, or the commands. *)
Fixpoint segments_result (n_cmds : nat) (segs : list (list string))
  : string + list Command :=
  match segs with
  | [] => inr []
  | s :: ss =>
      match do_segment n_cmds (bool_decide (ss = [])) s zero_cmd with
      | inl msg => inl msg
      | inr c =>
          match segments_result n_cmds ss with
          | inl msg => inl msg
          | inr cs => inr (c :: cs)
          end
      end
  end.

(** ** Auxiliary definitions of the proofs *)

(** The token sequence read from cursor [p]. *)
Definition toks (p : string) : list string :=
  tok_loop (S (String.length p)) p [].

(** The word loop stops at once at [q]. *)
Definition stops (q : string) : Prop := (scan_word q).1 = "".

(** The field of a [Command] that a redirection operator writes. *)
Definition field (op : string) (c : Command) : option string :=
  if tok_is op "<" then in_file c
  else if tok_is op ">" then out_file c
  else err_file c.

(** [new] is the value of a field after the redirection loop ran over
    [seg] from the value [old]. *)
Definition field_after (op : string) (seg : list string)
    (old new : option string) : Prop :=
  ((op ∉ seg) /\ new = old) \/
  (exists f, new = Some f /\ last_occurrence op seg (Some f)).

(** The message of the redirection loop for an operator without a
    filename. *)
Definition missing_file_msg (n : nat) (l : bool) (op : string) : string :=
  if tok_is op "<" then MSG_IN
  else if tok_is op ">" then
    (if Nat.ltb 1 n && l then MSG_OUT_AFTER else MSG_OUT)
  else MSG_ERR.

(** The token after an operator is absent or is an operator. *)
Definition no_filename (tail : list string) : Prop :=
  match tail with
  | [] => True
  | t :: _ => is_op t = true
  end.

(** The [Command] that [parse_line] builds from an accepted segment. *)
Definition cmd_of_segment (seg : list string) (c : Command) : Prop :=
  exists ws,
    seg_words seg ws /\ ws <> [] /\
    argv c = Some ((Some <$> ws) ++ [None]) /\
    last_occurrence "<" seg (in_file c) /\
    last_occurrence ">" seg (out_file c) /\
    last_occurrence "2>" seg (err_file c).

(** [parse_line]'s result for an outcome of the segments. *)
Definition parse_outcome (err_sz n : nat) (front : list Command)
    (r : string + list Command) : parse_result :=
  match r with
  | inl msg => mkResult 1%Z pipeline_init (snprintf err_sz msg)
  | inr cs =>
      mkResult 0%Z (mkPipeline (Some (front ++ cs)) (Z.of_nat n)) ""
  end.

(** ** Descriptors ([pipe(2)], [open(2)], [dup2(2)], [close(2)]) *)

(** What a descriptor refers to. *)
Inductive file :=
| Inherited (fd : nat)       (* what the shell itself had on [fd] *)
| PipeRead (i : nat)         (* read end of pipe [i] *)
| PipeWrite (i : nat)        (* write end of pipe [i] *)
| FileRead (name : string)   (* [open(name, O_RDONLY)] *)
| FileWrite (name : string). (* [open(name, O_WRONLY|O_CREAT|O_TRUNC, 0644)] *)

(** The descriptor table of a process, indexed by descriptor; [None] is a
    closed descriptor. *)
Definition fdtable := list (option file).

Definition STDIN_FILENO : nat := 0.
Definition STDOUT_FILENO : nat := 1.
Definition STDERR_FILENO : nat := 2.

(** The file behind descriptor [fd], if it is open. *)
Definition fd_get (t : fdtable) (fd : nat) : option file :=
  match t !! fd with
  | Some (Some f) => Some f
  | _ => None
  end.

(** Slot [fd] of the table becomes [v]; the table grows as needed. *)
Fixpoint fd_set (fd : nat) (v : option file) (t : fdtable) : fdtable :=
  match fd, t with
  | O, [] => [v]
  | O, _ :: t' => v :: t'
  | S fd', [] => None :: fd_set fd' v []
  | S fd', x :: t' => x :: fd_set fd' v t'
  end.

(** The lowest descriptor that is not open: the one [open] and [pipe]
    return. *)
Fixpoint lowest_free (t : fdtable) : nat :=
  match t with
  | [] => 0
  | None :: _ => 0
  | Some _ :: t' => S (lowest_free t')
  end.

(** A successful [open]. *)
Definition sys_open (f : file) (t : fdtable) : nat * fdtable :=
  let fd := lowest_free t in (fd, fd_set fd (Some f) t).

(** [close(fd)]; closing a closed descriptor changes nothing. *)
Definition sys_close (fd : nat) (t : fdtable) : fdtable :=
  match fd_get t fd with
  | Some _ => fd_set fd None t
  | None => t
  end.

(** [dup2(oldfd, newfd)]: [None] is the failure on a closed [oldfd]. *)
Definition sys_dup2 (oldfd newfd : nat) (t : fdtable) : option fdtable :=
  match fd_get t oldfd with
  | None => None
  | Some f => Some (if Nat.eqb oldfd newfd then t else fd_set newfd (Some f) t)
  end.

(** A successful [pipe(pipe_fds[i])]: the read end, then the write end. *)
Definition sys_pipe (i : nat) (t : fdtable) : (nat * nat) * fdtable :=
  let (r, t1) := sys_open (PipeRead i) t in
  let (w, t2) := sys_open (PipeWrite i) t1 in
  ((r, w), t2).

(** ** What the operating system decides *)

(** How a process ended, as [waitpid] reports it. *)
Inductive wstatus :=
| WExited (code : Z)
| WSignaled (sig : Z).

(** [WIFEXITED] and [WEXITSTATUS] of <sys/wait.h>; the exit status is the
    low eight bits of the value given to [exit]. *)
Definition WIFEXITED (st : wstatus) : bool :=
  match st with
  | WExited _ => true
  | WSignaled _ => false
  end.
Definition WEXITSTATUS (st : wstatus) : Z :=
  match st with
  | WExited code => Z.land code 255
  | WSignaled _ => 0%Z
  end.

(** The calls of one child. *)
Record child_os := mkChildOs {
  dup2_pipe_in_ok : bool;   (* [dup2(pipe_fds[i-1][0], STDIN_FILENO)] *)
  dup2_pipe_out_ok : bool;  (* [dup2(pipe_fds[i][1], STDOUT_FILENO)] *)
  open_in_ok : bool;
  dup2_in_ok : bool;
  open_out_ok : bool;
  dup2_out_ok : bool;
  open_err_ok : bool;
  dup2_err_ok : bool;
  execvp_ok : bool;         (* [execvp] replaces the image *)
  program_end : wstatus     (* how the program run by [execvp] ends *)
}.

(** The calls of the parent, and the children by index. *)
Record os := mkOs {
  malloc_pipe_fds_ok : bool;
  pipe_ok : nat -> bool;    (* the call for pipe [i] *)
  malloc_pids_ok : bool;
  fork_ok : nat -> bool;    (* the call for child [i] *)
  child : nat -> child_os
}.

(** ** Pipes ([src/pipe.c]) *)

(** What a process does that can be seen from outside, in order. *)
Inductive event :=
| EvPerror (tag : string)                  (* [perror(tag)] *)
| EvFprintf (msg : string)                 (* [fprintf(stderr, msg)] *)
| EvPipe (i r w : nat)                     (* [pipe] made pipe [i] *)
| EvClose (fd : nat)
| EvFork (i : nat)                         (* [fork] made child [i] *)
| EvWait (i : nat) (st : option wstatus)   (* [waitpid(pids[i], ..)] *)
| EvExecvp (file : option string) (args : list (option string)).

(** [close_all_pipes] on the pairs of [pipe_fds]. *)
Fixpoint close_all_pipes (pipe_fds : list (nat * nat)) (t : fdtable)
  : fdtable * list event :=
  match pipe_fds with
  | [] => (t, [])
  | (r, w) :: rest =>
      let t1 := sys_close w (sys_close r t) in
      let (t2, tr) := close_all_pipes rest t1 in
      (t2, EvClose r :: EvClose w :: tr)
  end.

(** The loop of [create_pipes] from index [i], with [k] pipes to go and
    [pipe_fds[0 .. i-1]] filled; [None] is the return value -1. *)
Fixpoint create_pipes_from (o : os) (k i : nat) (pipe_fds : list (nat * nat))
    (t : fdtable) : option (list (nat * nat)) * fdtable * list event :=
  match k with
  | O => (Some pipe_fds, t, [])
  | S k' =>
      if pipe_ok o i then
        let '(r, w, t1) := sys_pipe i t in
        let '(res, t2, tr) :=
          create_pipes_from o k' (S i) (pipe_fds ++ [(r, w)]) t1 in
        (res, t2, EvPipe i r w :: tr)
      else
        let (t1, tr) := close_all_pipes pipe_fds t in
        (None, t1, EvPerror "pipe" :: tr)
  end.

(** [create_pipes] *)
Definition create_pipes (o : os) (n_pipes : nat) (t : fdtable)
  : option (list (nat * nat)) * fdtable * list event :=
  create_pipes_from o n_pipes 0 [] t.

(** One [dup2] of the child: it fails when the system says so or when the
    source descriptor is not open. *)
Definition try_dup2 (ok : bool) (oldfd : option nat) (newfd : nat)
    (t : fdtable) : option fdtable :=
  match oldfd with
  | None => None
  | Some fd => if ok then sys_dup2 fd newfd t else None
  end.

(** [connect_pipes_for_child]; [pipe_fds[j][0]] and [pipe_fds[j][1]] are
    the components of [pipe_fds !! j]. *)
Definition connect_pipes_for_child (co : child_os) (cmd_idx : nat)
    (n_cmds : Z) (pipe_fds : list (nat * nat)) (t : fdtable)
  : fdtable * list event :=
  let (t1, tr1) :=
    if Nat.ltb 0 cmd_idx then
      match try_dup2 (dup2_pipe_in_ok co)
              (fst <$> pipe_fds !! (cmd_idx - 1)) STDIN_FILENO t with
      | Some t' => (t', [])
      | None => (t, [EvPerror "dup2: pipe stdin"])
      end
    else (t, []) in
  let (t2, tr2) :=
    if Z.ltb (Z.of_nat cmd_idx) (n_cmds - 1) then
      match try_dup2 (dup2_pipe_out_ok co)
              (snd <$> pipe_fds !! cmd_idx) STDOUT_FILENO t1 with
      | Some t' => (t', [])
      | None => (t1, [EvPerror "dup2: pipe stdout"])
      end
    else (t1, []) in
  let (t3, tr3) := close_all_pipes pipe_fds t2 in
  (t3, tr1 ++ tr2 ++ tr3).

(** ** Redirections ([src/redir.c]) *)

(** One of the three blocks of [apply_redirections]: [open], [dup2] onto
    [target], [close].  [inl] is the return value -1. *)
Definition redirect_one (open_ok dup_ok : bool) (f : file) (target : nat)
    (on_open_fail : event) (dup_tag : string) (t : fdtable)
  : (fdtable * list event) + (fdtable * list event) :=
  if open_ok then
    let (fd, t1) := sys_open f t in
    match try_dup2 dup_ok (Some fd) target t1 with
    | None => inl (sys_close fd t1, [EvPerror dup_tag; EvClose fd])
    | Some t2 => inr (sys_close fd t2, [EvClose fd])
    end
  else inl (t, [on_open_fail]).

(** [apply_redirections]: [inl] is -1, [inr] is 0. *)
Definition apply_redirections (co : child_os) (cmd : Command) (t : fdtable)
  : (fdtable * list event) + (fdtable * list event) :=
  match
    match in_file cmd with
    | Some name =>
        redirect_one (open_in_ok co) (dup2_in_ok co) (FileRead name)
          STDIN_FILENO (EvFprintf "File not found.
") "dup2: stdin redirection" t
    | None => inr (t, [])
    end
  with
  | inl e => inl e
  | inr (t1, tr1) =>
      match
        match out_file cmd with
        | Some name =>
            redirect_one (open_out_ok co) (dup2_out_ok co) (FileWrite name)
              STDOUT_FILENO (EvPerror name) "dup2: stdout redirection" t1
        | None => inr (t1, [])
        end
      with
      | inl (t2, tr2) => inl (t2, tr1 ++ tr2)
      | inr (t2, tr2) =>
          match
            match err_file cmd with
            | Some name =>
                redirect_one (open_err_ok co) (dup2_err_ok co)
                  (FileWrite name) STDERR_FILENO (EvPerror name)
                  "dup2: stderr redirection" t2
            | None => inr (t2, [])
            end
          with
          | inl (t3, tr3) => inl (t3, tr1 ++ tr2 ++ tr3)
          | inr (t3, tr3) => inr (t3, tr1 ++ tr2 ++ tr3)
          end
      end
  end.

(** ** Orchestrator ([src/exec.c]) *)

Definition MSG_NOT_FOUND : string := "Command not found.
".
Definition MSG_NOT_FOUND_PIPE : string := "Command not found in pipe sequence.
".

(** How the code of a child ends. *)
Inductive child_end :=
| Exits (status : Z)     (* the child called [exit(status)] *)
| Runs (t : fdtable) (file : string) (args : list (option string))
                         (* [execvp] replaced the image *)
| Faults.                (* the child read through a NULL pointer *)

Record child_result := mkChild {
  c_end : child_end;
  c_trace : list event
}.

(** The body of [if (pid == 0) { .. }] for child [i]. *)
Definition child_run (co : child_os) (p : Pipeline) (i : nat)
    (pipe_fds : list (nat * nat)) (t : fdtable) : child_result :=
  let n := n_cmds p in
  let n_pipes := (n - 1)%Z in
  let (t1, tr1) :=
    if Z.ltb 0 n_pipes then connect_pipes_for_child co i n pipe_fds t
    else (t, []) in
  match cmds p with
  | None => mkChild Faults tr1
  | Some cs =>
      match cs !! i with
      | None => mkChild Faults tr1
      | Some c =>
          match apply_redirections co c t1 with
          | inl (_, tr2) => mkChild (Exits 1) (tr1 ++ tr2)
          | inr (t2, tr2) =>
              match argv c with
              | None => mkChild Faults (tr1 ++ tr2)
              | Some a =>
                  let file := default None (a !! 0) in
                  let not_found :=
                    if Z.eqb n 1 then MSG_NOT_FOUND else MSG_NOT_FOUND_PIPE in
                  match file with
                  | Some path =>
                      if execvp_ok co then
                        mkChild (Runs t2 path a)
                          (tr1 ++ tr2 ++ [EvExecvp file a])
                      else
                        mkChild (Exits 127)
                          (tr1 ++ tr2 ++
                           [EvExecvp file a; EvFprintf not_found])
                  | None =>
                      (* [execvp(NULL, argv)]: the call reads the file name
                         and the child dies there, nothing is printed *)
                      mkChild Faults (tr1 ++ tr2 ++ [EvExecvp file a])
                  end
              end
          end
      end
  end.

(** The status [waitpid] stores for a child. *)
Definition wait_status (co : child_os) (cr : child_result) : wstatus :=
  match c_end cr with
  | Exits status => WExited status
  | Runs _ _ _ => program_end co
  | Faults => WSignaled 11
  end.

(** What [execute_pipeline] leaves behind: its return value, the calls of
    the parent in order, the descriptor table of the parent, and what
    became of each child it forked. *)
Record exec_result := mkExec {
  x_ret : Z;
  x_trace : list event;
  x_fds : fdtable;
  x_children : list child_result
}.

(** The fork loop from child [i], with [k] children to go; [kids] are the
    children forked so far.  [inl] is the failure of [fork] for child [i]. *)
Fixpoint fork_from (o : os) (p : Pipeline) (pipe_fds : list (nat * nat))
    (t : fdtable) (k i : nat) (kids : list child_result)
  : (nat * list child_result) + list child_result :=
  match k with
  | O => inr kids
  | S k' =>
      if fork_ok o i then
        fork_from o p pipe_fds t k' (S i)
          (kids ++ [child_run (child o i) p i pipe_fds t])
      else inl (i, kids)
  end.

(** [for (j = 0; j < i; j++) waitpid(pids[j], NULL, 0);] *)
Definition reap_all (i : nat) : list event :=
  (fun j => EvWait j None) <$> seq 0 i.

(** The wait loop of step 4 from child [i], over the children [kids] still
    to wait for, with [last_exit] so far. *)
Fixpoint wait_from (o : os) (n_cmds : Z) (i : nat)
    (kids : list child_result) (last_exit : Z) : Z * list event :=
  match kids with
  | [] => (last_exit, [])
  | cr :: rest =>
      let st := wait_status (child o i) cr in
      let last_exit :=
        if Z.eqb (Z.of_nat i) (n_cmds - 1) then
          (if WIFEXITED st then WEXITSTATUS st else 1%Z)
        else last_exit in
      let (r, tr) := wait_from o n_cmds (S i) rest last_exit in
      (r, EvWait i (Some st) :: tr)
  end.

(** [execute_pipeline]; [t] is the descriptor table of the shell. *)
Definition execute_pipeline (o : os) (t : fdtable) (p : option Pipeline)
  : exec_result :=
  match p with
  | None => mkExec 0 [] t []
  | Some p =>
      if Z.eqb (n_cmds p) 0 then mkExec 0 [] t []
      else
        let n := n_cmds p in
        let n_pipes := (n - 1)%Z in
        (* step 1 *)
        let step1 :=
          if Z.ltb 0 n_pipes then
            if malloc_pipe_fds_ok o then
              match create_pipes o (Z.to_nat n_pipes) t with
              | (Some pipe_fds, t1, tr) => inr (Some pipe_fds, t1, tr)
              | (None, t1, tr) => inl (t1, tr)
              end
            else inl (t, [EvPerror "malloc (pipe_fds)"])
          else inr (None, t, []) in
        match step1 with
        | inl (t1, tr1) => mkExec (-1) tr1 t1 []
        | inr (pipe_fds, t1, tr1) =>
            let fds := default [] pipe_fds in
            if negb (malloc_pids_ok o) then
              let (t2, tr2) :=
                match pipe_fds with
                | Some l => close_all_pipes l t1
                | None => (t1, [])
                end in
              mkExec (-1) (tr1 ++ EvPerror "malloc (pids)" :: tr2) t2 []
            else
              (* step 2 *)
              match fork_from o p fds t1 (Z.to_nat n) 0 [] with
              | inl (i, kids) =>
                  let (t2, tr2) :=
                    match pipe_fds with
                    | Some l => close_all_pipes l t1
                    | None => (t1, [])
                    end in
                  mkExec (-1)
                    (tr1 ++ (EvFork <$> seq 0 i) ++
                     EvPerror "fork" :: tr2 ++ reap_all i)
                    t2 kids
              | inr kids =>
                  (* step 3 *)
                  let (t2, tr2) :=
                    match pipe_fds with
                    | Some l => close_all_pipes l t1
                    | None => (t1, [])
                    end in
                  (* step 4 *)
                  let (last_exit, tr3) := wait_from o n 0 kids 0%Z in
                  mkExec last_exit
                    (tr1 ++ (EvFork <$> seq 0 (Z.to_nat n)) ++ tr2 ++ tr3)
                    t2 kids
              end
        end
  end.

(** ** Vocabulary for statements about executions *)

(** The shell runs with its three standard descriptors open. *)
Definition std_open (t : fdtable) : Prop :=
  forall fd, fd < 3 -> is_Some (fd_get t fd).

Definition is_pipe_event (e : event) : bool :=
  match e with EvPipe _ _ _ => true | _ => false end.
Definition is_wait_event (e : event) : bool :=
  match e with EvWait _ _ => true | _ => false end.
Definition is_fprintf_event (e : event) : bool :=
  match e with EvFprintf _ => true | _ => false end.
Definition is_execvp_event (e : event) : bool :=
  match e with EvExecvp _ _ => true | _ => false end.

(** Number of pipes made by [pipe] during an execution. *)
Definition pipes_created (r : exec_result) : nat :=
  length (filter (fun e => is_pipe_event e = true) (x_trace r)).

(** Some call of the parent, among those a full run of [execute_pipeline]
    on [n] commands makes, fails: the allocation of [pipe_fds] or one of
    the [n - 1] calls of [pipe] (when [n > 1]), the allocation of [pids],
    or one of the [n] calls of [fork]. *)
Definition parent_call_fails (o : os) (n : Z) : bool :=
  (Z.ltb 0 (n - 1) &&
   (negb (malloc_pipe_fds_ok o) ||
    existsb (fun i => negb (pipe_ok o i)) (seq 0 (Z.to_nat (n - 1)))))
  || negb (malloc_pids_ok o)
  || existsb (fun i => negb (fork_ok o i)) (seq 0 (Z.to_nat n)).

(** The status [execute_pipeline] returns for the last child. *)
Definition exit_status_of (st : wstatus) : Z :=
  if WIFEXITED st then WEXITSTATUS st else 1%Z.

(** [t'] has what [t] has on the descriptors below 3. *)
Definition same_std (t t' : fdtable) : Prop :=
  forall fd, fd < 3 -> fd_get t' fd = fd_get t fd.

(** Every pair of [pipe_fds] holds two descriptors above the standard
    ones, open on the two ends of its pipe. *)
Definition pipes_bound (pipe_fds : list (nat * nat)) (t : fdtable) : Prop :=
  forall j r w, pipe_fds !! j = Some (r, w) ->
    3 <= r /\ 3 <= w /\
    fd_get t r = Some (PipeRead j) /\ fd_get t w = Some (PipeWrite j).


(** No event of the trace satisfies [sel]. *)
Definition none_of (sel : event -> bool) (tr : list event) : Prop :=
  Forall (fun e => sel e = false) tr.

(** The optional block of [apply_redirections] for one field. *)
Definition redirect_field (name : option string) (open_ok dup_ok : bool)
    (mk : string -> file) (target : nat) (ev : string -> event)
    (tag : string) (t : fdtable)
  : (fdtable * list event) + (fdtable * list event) :=
  match name with
  | Some name => redirect_one open_ok dup_ok (mk name) target (ev name) tag t
  | None => inr (t, [])
  end.


(** The diagnostic of a child whose [execvp] returned. *)
Definition not_found_msg (n_cmds : Z) : string :=
  if Z.eqb n_cmds 1 then MSG_NOT_FOUND else MSG_NOT_FOUND_PIPE.

(** The [waitpid] calls of step 4 on the children [kids], the first of
    which is child [i]: one per child, in order. *)
Definition wait_events (o : os) (i : nat) (kids : list child_result)
  : list event :=
  (fun jc => EvWait jc.1 (Some (wait_status (child o jc.1) jc.2)))
    <$> zip (seq i (length kids)) kids.

(** A shell with the three standard descriptors open, and a system on
    which every call succeeds and every program exits with 0. *)
Definition shell_fds : fdtable :=
  [Some (Inherited 0); Some (Inherited 1); Some (Inherited 2)].
Definition child_os_ok : child_os :=
  mkChildOs true true true true true true true true true (WExited 0).
Definition os_ok : os :=
  mkOs true (fun _ => true) true (fun _ => true) (fun _ => child_os_ok).
(** The same system, on which no program is found. *)
Definition os_not_found : os :=
  mkOs true (fun _ => true) true (fun _ => true)
    (fun _ => mkChildOs true true true true true true true true false
                (WExited 0)).

(** ** The parser over an allocation table

    The same functions of [src/parser.c] once more, now with every block
    they obtain and release.  A block is named by a [loc]; the heap records
    which blocks are live.  Every allocation may fail: the oracle [ok]
    tells, for the n-th allocation call of the run, whether it succeeds.
    Releasing a block that is not live, or reading an array past its end,
    is [Fault]. *)

Module Mem.

Definition loc := nat.

(** A pointer to a block: [None] is NULL. *)
Definition ptr := option loc.

Record heap := mkHeap {
  live : gset loc;   (* the blocks obtained and not yet released *)
  next : loc;        (* every block so far has a smaller name *)
  calls : nat        (* allocation calls so far *)
}.

Inductive outcome (A : Type) :=
| Fault
| Done (a : A) (h : heap).
Arguments Fault {A}.
Arguments Done {A} a h.

(** Computations on the heap. *)
Definition M (A : Type) : Type := heap -> outcome A.

Definition ret {A} (a : A) : M A := fun h => Done a h.

Definition bind {A B} (m : M A) (k : A -> M B) : M B :=
  fun h =>
    match m h with
    | Fault => Fault
    | Done a h' => k a h'
    end.

#[global] Instance M_ret : MRet M := @ret.
#[global] Instance M_bind : MBind M := fun A B k m => bind m k.

Definition fault {A} : M A := fun _ => Fault.

(** A string in a block of its own. *)
Record cstr := mkCstr {
  s_loc : loc;
  s_val : string
}.

Record Command := mkCommand {
  argv : option (loc * list (option cstr));
  in_file : option cstr;
  out_file : option cstr;
  err_file : option cstr
}.

Record Pipeline := mkPipeline {
  cmds : option (loc * list Command);
  n_cmds : Z
}.

Definition zero_cmd : Command := mkCommand None None None None.

Definition set_in_file (f : option cstr) (c : Command) : Command :=
  mkCommand (argv c) f (out_file c) (err_file c).
Definition set_out_file (f : option cstr) (c : Command) : Command :=
  mkCommand (argv c) (in_file c) f (err_file c).
Definition set_err_file (f : option cstr) (c : Command) : Command :=
  mkCommand (argv c) (in_file c) (out_file c) f.
Definition set_argv (a : option (loc * list (option cstr))) (c : Command)
  : Command :=
  mkCommand a (in_file c) (out_file c) (err_file c).

(** The token array: its block, its entries [tokens[0 .. ntok-1]], and
    its capacity. *)
Record tokbuf := mkTokbuf {
  t_ptr : ptr;
  t_arr : list cstr;
  t_cap : nat
}.

Section WithOracle.

Variable ok : nat -> bool.

(** [malloc], [calloc]: a new block, or NULL. *)
Definition alloc : M ptr := fun h =>
  if ok (calls h) then
    Done (Some (next h))
      (mkHeap ({[next h]} ∪ live h) (S (next h)) (S (calls h)))
  else Done None (mkHeap (live h) (next h) (S (calls h))).

(** [free]: nothing for NULL. *)
Definition free (p : ptr) : M unit := fun h =>
  match p with
  | None => Done tt h
  | Some l =>
      if decide (l ∈ live h) then
        Done tt (mkHeap (live h ∖ {[l]}) (next h) (calls h))
      else Fault
  end.

(** [realloc]: on success the old block is gone and a new one is
    returned; on failure the old block is untouched. *)
Definition realloc (p : ptr) : M ptr := fun h =>
  match p with
  | None => alloc h
  | Some l =>
      if decide (l ∈ live h) then
        if ok (calls h) then
          Done (Some (next h))
            (mkHeap ({[next h]} ∪ (live h ∖ {[l]})) (S (next h))
               (S (calls h)))
        else Done None (mkHeap (live h) (next h) (S (calls h)))
      else Fault
  end.

(** [strdup], and the [malloc] + [memcpy] of [push_token]. *)
Definition strdup (s : string) : M (option cstr) :=
  p ← alloc;
  ret (match p with
       | Some l => Some (mkCstr l s)
       | None => None
       end).

Definition free_str (s : option cstr) : M unit :=
  free (s_loc <$> s).

(** [for (i = 0; i < n; i++) free(a[i]);] *)
Fixpoint free_strs (a : list cstr) : M unit :=
  match a with
  | [] => ret tt
  | s :: rest => free (Some (s_loc s));; free_strs rest
  end.

(** [free_pipeline]: the loop [for (j = 0; c->argv[j] != NULL; j++)]. *)
Fixpoint free_argv_strs (a : list (option cstr)) : M unit :=
  match a with
  | [] => fault                    (* no NULL in the array *)
  | None :: _ => ret tt
  | Some s :: rest => free (Some (s_loc s));; free_argv_strs rest
  end.

(** The body of the loop of [free_pipeline] for one [Command]. *)
Definition free_command (c : Command) : M unit :=
  match argv c with
  | Some (la, a) => free_argv_strs a;; free (Some la)
  | None => ret tt
  end;;
  free_str (in_file c);;
  free_str (out_file c);;
  free_str (err_file c).

(** [for (i = 0; i < p->n_cmds; i++)] from index [i], [k] commands to
    go. *)
Fixpoint free_commands (cs : list Command) (k i : nat) : M unit :=
  match k with
  | O => ret tt
  | S k' =>
      match cs !! i with
      | None => fault              (* past the end of [cmds] *)
      | Some c => free_command c;; free_commands cs k' (S i)
      end
  end.

(** [free_pipeline]; [None] is a NULL [p]. *)
Definition free_pipeline (p : option Pipeline) : M (option Pipeline) :=
  match p with
  | None => ret None
  | Some p =>
      match cmds p with
      | None => ret (Some (mkPipeline None 0))
      | Some (lc, cs) =>
          free_commands cs (Z.to_nat (n_cmds p)) 0;;
          free (Some lc);;
          ret (Some (mkPipeline None 0))
      end
  end.

(** [pipeline_init] *)
Definition pipeline_init : Pipeline := mkPipeline None 0.

(** [free_tokens] *)
Definition free_tokens (tb : tokbuf) : M unit :=
  match t_ptr tb with
  | None => ret tt
  | Some l => free_strs (t_arr tb);; free (Some l)
  end.

(** [push_token]: the return value and the token array after it. *)
Definition push_token (tb : tokbuf) (tok : string) : M (Z * tokbuf) :=
  if Nat.leb (String.length tok) 0 then ret (0%Z, tb)
  else
    grown ←
      (if Nat.leb (t_cap tb) (length (t_arr tb)) then
         let newcap := if Nat.eqb (t_cap tb) 0 then 8 else t_cap tb * 2 in
         tmp ← realloc (t_ptr tb);
         ret (match tmp with
              | None => None
              | Some l => Some (mkTokbuf (Some l) (t_arr tb) newcap)
              end)
       else ret (Some tb));
    match grown with
    | None => ret ((-1)%Z, tb)
    | Some tb1 =>
        s ← strdup tok;
        match s with
        | None => ret ((-1)%Z, tb1)
        | Some s => ret (0%Z, mkTokbuf (t_ptr tb1) (t_arr tb1 ++ [s])
                                (t_cap tb1))
        end
    end.

(** The outer loop of [tokenize]: [inl] is the jump to [oom:]. *)
Fixpoint tok_loop (fuel : nat) (p : string) (tb : tokbuf)
  : M (tokbuf + tokbuf) :=
  match fuel with
  | O => ret (inr tb)
  | S fuel' =>
      if is_nul (deref p) then ret (inr tb)
      else
        match skip_ws p with
        | EmptyString => ret (inr tb)
        | String c p' =>
            if is_nul c then ret (inr tb)
            else if starts_2gt c p' then
              r ← push_token tb "2>";
              if Z.eqb r.1 0 then tok_loop fuel' (advance p') r.2
              else ret (inl r.2)
            else if is_op_char c then
              r ← push_token tb (String c EmptyString);
              if Z.eqb r.1 0 then tok_loop fuel' p' r.2
              else ret (inl r.2)
            else
              let (w, rest) := scan_word (String c p') in
              r ← push_token tb w;
              if Z.eqb r.1 0 then tok_loop fuel' rest r.2
              else ret (inl r.2)
        end
  end.

(** [tokenize]: return value, token array, and [err]. *)
Definition tokenize (line : option string) (err_sz : nat)
  : M (Z * tokbuf * string) :=
  match line with
  | None => ret (0%Z, mkTokbuf None [] 0, EmptyString)
  | Some l =>
      r ← tok_loop (S (String.length l)) l (mkTokbuf None [] 0);
      match r with
      | inr tb => ret (0%Z, tb, EmptyString)
      | inl tb =>
          free_tokens tb;;
          ret (1%Z, mkTokbuf None [] 0, snprintf err_sz MSG_OOM)
      end
  end.

(** The second loop of [build_argv] on the array [a] in block [la]; on a
    failed [strdup] the strings so far and the array are released and the
    result is [None]. *)
Fixpoint fill_argv (la : loc) (seg : list cstr) (k : nat)
    (a : list (option cstr)) : M (option (nat * list (option cstr))) :=
  match seg with
  | [] => ret (Some (k, a))
  | t :: rest =>
      if is_redir (s_val t) then
        match rest with
        | [] => ret (Some (k, a))
        | _ :: rest' => fill_argv la rest' k a
        end
      else if tok_is (s_val t) "|" then fill_argv la rest k a
      else
        s ← strdup (s_val t);
        match s with
        | None =>
            free_strs (omap id (take k a));;
            free (Some la);;
            ret None
        | Some s => fill_argv la rest (S k) (<[k := Some s]> a)
        end
  end.

(** [build_argv]: the return value and [*argv_out]. *)
Definition build_argv (seg : list cstr)
  : M (Z * option (loc * list (option cstr))) :=
  let count := count_words (s_val <$> seg) in
  pa ← alloc;
  match pa with
  | None => ret (1%Z, None)
  | Some la =>
      r ← fill_argv la seg 0 (replicate (count + 1) None);
      match r with
      | None => ret (1%Z, None)
      | Some (k, a) => ret (0%Z, Some (la, <[k := None]> a))
      end
  end.

(** One redirection of the loop: [free] the old string, [strdup] the new
    one. *)
Definition replace_file (old : option cstr) (f : cstr)
  : M (option cstr) :=
  free_str old;; strdup (s_val f).

(** The redirection loop of a segment on the slot [c]; [inl] carries the
    message and the slot as the failure leaves it. *)
Fixpoint scan_redirs (n_cmds : nat) (last_seg : bool) (seg : list cstr)
    (c : Command) : M ((string * Command) + Command) :=
  match seg with
  | [] => ret (inr c)
  | t :: rest =>
      if tok_is (s_val t) "<" then
        match rest with
        | [] => ret (inl (MSG_IN, c))
        | f :: rest' =>
            if is_op (s_val f) then ret (inl (MSG_IN, c))
            else
              s ← replace_file (in_file c) f;
              match s with
              | None => ret (inl (MSG_OOM, set_in_file None c))
              | Some _ => scan_redirs n_cmds last_seg rest' (set_in_file s c)
              end
        end
      else if tok_is (s_val t) ">" then
        let msg :=
          if Nat.ltb 1 n_cmds && last_seg then MSG_OUT_AFTER else MSG_OUT in
        match rest with
        | [] => ret (inl (msg, c))
        | f :: rest' =>
            if is_op (s_val f) then ret (inl (msg, c))
            else
              s ← replace_file (out_file c) f;
              match s with
              | None => ret (inl (MSG_OOM, set_out_file None c))
              | Some _ =>
                  scan_redirs n_cmds last_seg rest' (set_out_file s c)
              end
        end
      else if tok_is (s_val t) "2>" then
        match rest with
        | [] => ret (inl (MSG_ERR, c))
        | f :: rest' =>
            if is_op (s_val f) then ret (inl (MSG_ERR, c))
            else
              s ← replace_file (err_file c) f;
              match s with
              | None => ret (inl (MSG_OOM, set_err_file None c))
              | Some _ =>
                  scan_redirs n_cmds last_seg rest' (set_err_file s c)
              end
        end
      else scan_redirs n_cmds last_seg rest c
  end.

(** [c->argv == NULL || c->argv[0] == NULL] *)
Definition argv_empty (c : Command) : bool :=
  match argv c with
  | None => true
  | Some (_, a) =>
      match a !! 0 with
      | Some (Some _) => false
      | _ => true
      end
  end.

(** Steps 1-3 at a segment end. *)
Definition do_segment (n_cmds : nat) (last_seg : bool) (seg : list cstr)
    (c : Command) : M ((string * Command) + Command) :=
  r ← scan_redirs n_cmds last_seg seg c;
  match r with
  | inl e => ret (inl e)
  | inr c1 =>
      b ← build_argv seg;
      let c2 := set_argv b.2 c1 in
      if negb (Z.eqb b.1 0) then ret (inl (MSG_OOM, c2))
      else if argv_empty c2 then ret (inl (MSG_PIPE_MISSING, c2))
      else ret (inr c2)
  end.

(** What [parse_line] leaves behind. *)
Record parse_result := mkResult {
  ret_val : Z;
  out : option Pipeline;
  err : string
}.

(** The [fail:] label. *)
Definition parse_fail (err_sz : nat) (tb : tokbuf) (p : option Pipeline)
    (msg : string) : M parse_result :=
  free_tokens tb;;
  p' ← free_pipeline p;
  ret (mkResult 1%Z p' msg).

(** Loop B. *)
Fixpoint seg_loop (err_sz n_cmds : nat) (tb : tokbuf) (lc : loc)
    (rest cur : list cstr) (cmd_index : nat) (cs : list Command)
  : M parse_result :=
  let failed (e : string * Command) :=
    parse_fail err_sz tb
      (Some (mkPipeline (Some (lc, <[cmd_index := e.2]> cs))
               (Z.of_nat n_cmds)))
      (snprintf err_sz e.1) in
  match rest with
  | [] =>
      r ← do_segment n_cmds true cur (default zero_cmd (cs !! cmd_index));
      match r with
      | inl e => failed e
      | inr c =>
          free_tokens tb;;
          ret (mkResult 0%Z
                 (Some (mkPipeline (Some (lc, <[cmd_index := c]> cs))
                          (Z.of_nat n_cmds)))
                 EmptyString)
      end
  | t :: rest' =>
      if tok_is (s_val t) "|" then
        r ← do_segment n_cmds false cur
               (default zero_cmd (cs !! cmd_index));
        match r with
        | inl e => failed e
        | inr c =>
            seg_loop err_sz n_cmds tb lc rest' [] (S cmd_index)
              (<[cmd_index := c]> cs)
        end
      else seg_loop err_sz n_cmds tb lc rest' (cur ++ [t]) cmd_index cs
  end.

(** [parse_line]; [out] is taken to be non-NULL, as [main] calls it. *)
Definition parse_line (line : option string) (err_sz : nat)
  : M parse_result :=
  let init := Some pipeline_init in
  r ← tokenize line err_sz;
  let '(rc, tb, e) := r in
  if negb (Z.eqb rc 0) then parse_fail err_sz tb init e
  else
    let tokens := s_val <$> t_arr tb in
    match tokens with
    | [] => free_tokens tb;; ret (mkResult 1%Z init EmptyString)
    | first :: _ =>
        if tok_is first "|" then
          parse_fail err_sz tb init (snprintf err_sz MSG_PIPE_MISSING)
        else if tok_is (List.last tokens first) "|" then
          parse_fail err_sz tb init (snprintf err_sz MSG_PIPE_MISSING)
        else if adjacent_pipes tokens then
          parse_fail err_sz tb init (snprintf err_sz MSG_PIPE_EMPTY)
        else
          let n := 1 + count_pipes tokens in
          pc ← alloc;
          match pc with
          | None =>
              parse_fail err_sz tb init (snprintf err_sz MSG_OOM)
          | Some lc =>
              seg_loop err_sz n tb lc (t_arr tb) [] 0
                (replicate n zero_cmd)
          end
    end.

End WithOracle.

End Mem.

(** ** Vocabulary for statements about the heap *)

(** Every live block has a name below [next]. *)
Definition heap_wf (h : Mem.heap) : Prop :=
  forall l, l ∈ Mem.live h -> l < Mem.next h.

(** [holds base ls h]: the live blocks of [h] are those of [base] and,
    apart from them, exactly the blocks [ls], each once. *)
Definition holds (base : gset Mem.loc) (ls : list Mem.loc) (h : Mem.heap)
  : Prop :=
  NoDup ls /\ (forall l, l ∈ ls -> l ∉ base) /\
  Mem.live h = base ∪ list_to_set ls /\ heap_wf h.

(** [m] run on [h] ends without a fault, and [Q] holds of its result and
    of the heap it leaves. *)
Definition runs {A} (m : Mem.M A) (h : Mem.heap)
    (Q : A -> Mem.heap -> Prop) : Prop :=
  exists a h', m h = Mem.Done a h' /\ Q a h'.

(** The blocks of a string pointer, of the strings of an [argv] array up
    to its first NULL, of a [Command], of a [Pipeline], of a token array. *)
Definition locs_ptr (p : Mem.ptr) : list Mem.loc :=
  match p with
  | Some l => [l]
  | None => []
  end.

Definition locs_file (s : option Mem.cstr) : list Mem.loc :=
  match s with
  | Some s => [Mem.s_loc s]
  | None => []
  end.

Fixpoint until_null (a : list (option Mem.cstr)) : list Mem.cstr :=
  match a with
  | Some s :: rest => s :: until_null rest
  | _ => []
  end.

Definition locs_argv (a : option (Mem.loc * list (option Mem.cstr)))
  : list Mem.loc :=
  match a with
  | Some (la, arr) => (Mem.s_loc <$> until_null arr) ++ [la]
  | None => []
  end.

Definition locs_files (c : Mem.Command) : list Mem.loc :=
  locs_file (Mem.in_file c) ++ locs_file (Mem.out_file c) ++
  locs_file (Mem.err_file c).

Definition locs_cmd (c : Mem.Command) : list Mem.loc :=
  locs_argv (Mem.argv c) ++ locs_files c.

Definition locs_cmds (cs : list Mem.Command) : list Mem.loc :=
  concat (locs_cmd <$> cs).

Definition locs_pipeline (p : Mem.Pipeline) : list Mem.loc :=
  match Mem.cmds p with
  | Some (lc, cs) => locs_cmds cs ++ [lc]
  | None => []
  end.

Definition locs_tokbuf (tb : Mem.tokbuf) : list Mem.loc :=
  (Mem.s_loc <$> Mem.t_arr tb) ++ locs_ptr (Mem.t_ptr tb).

(** An [argv] array holds a NULL. *)
Definition wf_cmd (c : Mem.Command) : Prop :=
  match Mem.argv c with
  | Some (_, arr) => None ∈ arr
  | None => True
  end.

(** [n_cmds] is the length of the array [cmds]. *)
Definition wf_pipeline (p : Mem.Pipeline) : Prop :=
  match Mem.cmds p with
  | Some (_, cs) =>
      Mem.n_cmds p = Z.of_nat (length cs) /\ Forall wf_cmd cs
  | None => True
  end.

(** A token array without a block has no entry and no capacity. *)
Definition wf_tokbuf (tb : Mem.tokbuf) : Prop :=
  (Mem.t_ptr tb = None -> Mem.t_arr tb = [] /\ Mem.t_cap tb = 0) /\
  length (Mem.t_arr tb) <= Mem.t_cap tb.

(** The slot a failure or a success of a loop leaves. *)
Definition slot_of (r : (string * Mem.Command) + Mem.Command)
  : Mem.Command :=
  match r with
  | inl e => e.2
  | inr c => c
  end.


(** What [parse_line] guarantees about the heap: on success the blocks
    obtained and still live are exactly those of the [Pipeline] it built;
    on failure [*out] is the empty [Pipeline] and every block it obtained
    is released. *)
Definition parse_post (base : gset Mem.loc) (ls : list Mem.loc)
    (r : Mem.parse_result) (h' : Mem.heap) : Prop :=
  (Mem.ret_val r = 0%Z /\
   exists p, Mem.out r = Some p /\ wf_pipeline p /\
             holds base (locs_pipeline p ++ ls) h') \/
  (Mem.ret_val r = 1%Z /\ Mem.out r = Some Mem.pipeline_init /\
   holds base ls h').

(** *** The allocation table forgotten

    A [Mem] value without its block names is a value of the first part of
    the file. *)
Definition erase_argv (a : list (option Mem.cstr)) : list (option string) :=
  (fun o : option Mem.cstr => Mem.s_val <$> o) <$> a.

Definition erase_cmd (c : Mem.Command) : Command :=
  mkCommand
    ((fun la : Mem.loc * list (option Mem.cstr) => erase_argv la.2)
       <$> Mem.argv c)
    (Mem.s_val <$> Mem.in_file c) (Mem.s_val <$> Mem.out_file c)
    (Mem.s_val <$> Mem.err_file c).

Definition erase_pipeline (p : Mem.Pipeline) : Pipeline :=
  mkPipeline
    ((fun lc : Mem.loc * list Mem.Command => erase_cmd <$> lc.2)
       <$> Mem.cmds p)
    (Mem.n_cmds p).

(** [r] is the result [pr] with block names added. *)
Definition refines (r : Mem.parse_result) (pr : parse_result) : Prop :=
  Mem.ret_val r = ret pr /\ Mem.err r = err pr /\
  exists p, Mem.out r = Some p /\ erase_pipeline p = out pr.

(** Whenever [m] ends without a fault, [Q] holds of its result. *)
Definition yields {A} (m : Mem.M A) (Q : A -> Prop) : Prop :=
  forall h a h', m h = Mem.Done a h' -> Q a.

(** The outcome of a segment, with and without block names. *)
Definition slot_refines (r : (string * Mem.Command) + Mem.Command)
    (pr : string + Command) : Prop :=
  match pr with
  | inl msg => exists c', r = inl (msg, c')
  | inr c1 => exists c', r = inr c' /\ erase_cmd c' = c1
  end.

(** ** More vocabulary for statements about lines and tokens *)

(** The C string held in [s]: the characters before the first NUL. *)
Fixpoint c_str (s : string) : string :=
  match s with
  | EmptyString => EmptyString
  | String c s' => if is_nul c then EmptyString else String c (c_str s')
  end.

(** [s] without its whitespace characters. *)
Fixpoint strip_space (s : string) : string :=
  match s with
  | EmptyString => EmptyString
  | String c s' =>
      if isspace c then strip_space s' else String c (strip_space s')
  end.

(** The tokens written one after the other. *)
Fixpoint glue (tokens : list string) : string :=
  match tokens with
  | [] => EmptyString
  | t :: rest => t +:+ glue rest
  end.

(** A character the word loop of [tokenize] steps over. *)
Definition word_char (c : ascii) : bool :=
  negb (is_nul c) && negb (isspace c) && negb (is_op_char c).

Fixpoint all_chars (f : ascii -> bool) (s : string) : bool :=
  match s with
  | EmptyString => true
  | String c s' => f c && all_chars f s'
  end.

(** A word: no NUL, no whitespace, none of [<], [>], [|]. *)
Definition is_word (t : string) : bool := all_chars word_char t.

(** The messages [parse_line] can leave in [err] when no allocation
    fails. *)
Definition syntax_msgs : list string :=
  [MSG_PIPE_MISSING; MSG_PIPE_EMPTY; MSG_IN; MSG_OUT; MSG_OUT_AFTER; MSG_ERR].

(** ** More vocabulary for statements about descriptors *)

(** [t'] has on every descriptor what [t] has. *)
Definition agree (t t' : fdtable) : Prop :=
  forall fd, fd_get t' fd = fd_get t fd.

(** The descriptors held in [pipe_fds], in order. *)
Definition pipe_ends (pipe_fds : list (nat * nat)) : list nat :=
  flat_map (fun rw => [rw.1; rw.2]) pipe_fds.

(** [pipe_fds] holds pipes made from the table [t0], and [t] is the table
    with them: the descriptors are all different, they were closed in
    [t0], pair [j] is open on the two ends of pipe [j], and every other
    descriptor is as in [t0]. *)
Definition pipes_fresh (pipe_fds : list (nat * nat)) (t0 t : fdtable)
  : Prop :=
  NoDup (pipe_ends pipe_fds) /\
  (forall fd, fd ∈ pipe_ends pipe_fds -> fd_get t0 fd = None) /\
  (forall fd, fd ∉ pipe_ends pipe_fds -> fd_get t fd = fd_get t0 fd) /\
  (forall j r w, pipe_fds !! j = Some (r, w) ->
     fd_get t r = Some (PipeRead j) /\ fd_get t w = Some (PipeWrite j)).

(** ** More vocabulary for statements about executions *)

(** One block of [apply_redirections] returns -1: the field is set and
    its [open] or its [dup2] fails. *)
Definition field_fails (name : option string) (open_ok dup_ok : bool)
  : bool :=
  match name with
  | Some _ => negb (open_ok && dup_ok)
  | None => false
  end.

(** Some redirection of the command fails in the child. *)
Definition redirection_fails (co : child_os) (c : Command) : bool :=
  field_fails (in_file c) (open_in_ok co) (dup2_in_ok co) ||
  field_fails (out_file c) (open_out_ok co) (dup2_out_ok co) ||
  field_fails (err_file c) (open_err_ok co) (dup2_err_ok co).

Definition MSG_FILE_NOT_FOUND : string := "File not found.
".

(** The child a [fork] event or a [waitpid] event is about. *)
Definition fork_index (e : event) : option nat :=
  match e with
  | EvFork i => Some i
  | _ => None
  end.
Definition wait_index (e : event) : option nat :=
  match e with
  | EvWait i _ => Some i
  | _ => None
  end.

(** ** More vocabulary for statements about allocation failures *)

(** [parse_line] after a failed allocation: 1, the empty [Pipeline],
    "Out of memory.". *)
Definition oom_result (err_sz : nat) (r : Mem.parse_result) : Prop :=
  Mem.ret_val r = 1%Z /\ Mem.out r = Some Mem.pipeline_init /\
  Mem.err r = snprintf err_sz MSG_OOM.

(** A segment that ends on a failed allocation. *)
Definition slot_oom (r : (string * Mem.Command) + Mem.Command) : Prop :=
  exists c', r = inl (MSG_OOM, c').

(** The strings of the token array. *)
Definition tokens_of (tb : Mem.tokbuf) : list string :=
  Mem.s_val <$> Mem.t_arr tb.

(** The capacity of the token array is what the doubling of [push_token]
    gives: no array before the first token, then 8, 16, 32, ... slots,
    never less than the number of tokens and never more than twice what
    they need (beyond the first 8 slots). *)
Definition cap_ok (tb : Mem.tokbuf) : Prop :=
  length (Mem.t_arr tb) <= Mem.t_cap tb /\
  Mem.t_cap tb <= Nat.max 8 (2 * length (Mem.t_arr tb)) /\
  (Mem.t_cap tb = 0 \/ exists k, Mem.t_cap tb = 8 * 2 ^ k) /\
  (Mem.t_cap tb = 0 <-> Mem.t_ptr tb = None) /\
  (Mem.t_cap tb = 0 <-> Mem.t_arr tb = []).

(** The tokens written on one line, a space after each. *)
Fixpoint unwords (tokens : list string) : string :=
  match tokens with
  | [] => EmptyString
  | t :: rest => t +:+ String " "%char (unwords rest)
  end.

(** A token as [tokenize] makes them: an operator or a non-empty word. *)
Definition token_ok (t : string) : Prop :=
  t = "<" \/ t = ">" \/ t = "|" \/ t = "2>" \/
  (t <> "" /\ is_word t = true).

Definition is_perror_event (e : event) : bool :=
  match e with EvPerror _ => true | _ => false end.

(** What [child_run] does before [apply_redirections]: the calls of
    [connect_pipes_for_child] when there is a pipe. *)
Definition pipe_stage (co : child_os) (p : Pipeline) (i : nat)
    (pipe_fds : list (nat * nat)) (t : fdtable) : list event :=
  if Z.ltb 0 (n_cmds p - 1)
  then (connect_pipes_for_child co i (n_cmds p) pipe_fds t).2
  else [].

(** ** The read-execute loop ([src/main.c]) *)

(** What the shell itself prints and runs, in order. *)
Inductive shell_event :=
| ShPrompt                       (* [printf("$ "); fflush(stdout);] *)
| ShNewline                      (* [printf("\n")] at the end of input *)
| ShError (msg : string)         (* [fprintf(stderr, "%s\n", errbuf)] *)
| ShExecute (p : Pipeline) (x : exec_result).
                                 (* [execute_pipeline(&pl)] *)

(** [if (nread > 0 && line[nread - 1] == '\n') line[nread - 1] = '\0';]
    on the [nread] characters that [getline] read. *)
Fixpoint strip_newline (raw : string) : string :=
  match raw with
  | EmptyString => EmptyString
  | String c EmptyString =>
      if Ascii.eqb c "010"%char then String "000"%char EmptyString
      else String c EmptyString
  | String c rest => String c (strip_newline rest)
  end.

(** The loop that sets [only_ws]. *)
Fixpoint only_ws (p : string) : bool :=
  match p with
  | EmptyString => true
  | String c p' =>
      if is_nul c then true
      else if Ascii.eqb c " "%char || Ascii.eqb c "009"%char ||
              Ascii.eqb c "013"%char || Ascii.eqb c "010"%char
      then only_ws p'
      else false
  end.

(** [strcmp(line, "exit") == 0] *)
Definition is_exit (line : string) : bool := String.eqb (c_str line) "exit".

(** The loop of [main] on the lines that [getline] reads, [input], until
    the end of input; [sys k] is the system during the [k]-th call of
    [execute_pipeline] and [t] the descriptor table of the shell.  The
    result is what the shell did and its descriptor table at the end;
    [main] then returns 0.  The calls of [free_pipeline] and of [free]
    print nothing and touch no descriptor: they leave no trace here. *)
Fixpoint main_loop (sys : nat -> os) (input : list string) (k : nat)
    (t : fdtable) : list shell_event * fdtable :=
  match input with
  | [] => ([ShPrompt; ShNewline], t)
  | raw :: rest =>
      let line := strip_newline raw in
      if only_ws line then
        let (ev, t') := main_loop sys rest k t in (ShPrompt :: ev, t')
      else if is_exit line then ([ShPrompt], t)
      else
        let r := parse_line (Some line) ERRBUF_SZ in
        if negb (Z.eqb (ret r) 0) then
          let (ev, t') := main_loop sys rest k t in
          (ShPrompt ::
             (if negb (is_nul (deref (err r))) then [ShError (err r)]
              else []) ++ ev,
           t')
        else
          let x := execute_pipeline (sys k) t (Some (out r)) in
          let (ev, t') := main_loop sys rest (S k) (x_fds x) in
          (ShPrompt :: ShExecute (out r) x :: ev, t')
  end.

(** The events and the table of a loop that goes on after [front]. *)
Definition after (front : list shell_event)
    (r : list shell_event * fdtable) : list shell_event * fdtable :=
  (front ++ r.1, r.2).

(** The lines that are the built-in [exit], as [getline] reads them: the
    four characters [exit] followed by the newline that ends the line, by
    nothing (the input ends without a newline), or by a NUL character,
    where the C string ends, and anything. *)
Definition exit_line (raw : string) : Prop :=
  exists tail,
    raw = "exit" +:+ tail /\
    (tail = String "010"%char EmptyString \/ tail = EmptyString \/
     exists rest, tail = String "000"%char rest).

(** * Facts *)

(** ** Strings *)

Lemma append_cons (c : ascii) (s t : string) :
  String c s +:+ t = String c (s +:+ t).
Proof. reflexivity. Qed.

Lemma append_nil_l (s : string) : "" +:+ s = s.
Proof. reflexivity. Qed.

Lemma append_nil_r (s : string) : s +:+ "" = s.
Proof.
  induction s as [|c s IH]; [done |]. by rewrite append_cons, IH.
Qed.

Lemma append_assoc (a b c : string) : (a +:+ b) +:+ c = a +:+ (b +:+ c).
Proof.
  induction a as [|x a IH]; [done |]. by rewrite !append_cons, IH.
Qed.

Lemma substring_all (s : string) (n : nat) :
  String.length s <= n -> String.substring 0 n s = s.
Proof.
  revert n. induction s as [|c s IH]; intros [|n] Hn; simpl in *;
    try done; try lia.
  rewrite IH; [done | lia].
Qed.

Lemma snprintf_fits (err_sz : nat) (msg : string) :
  String.length msg < err_sz -> snprintf err_sz msg = msg.
Proof.
  intros H. unfold snprintf.
  destruct (Nat.ltb_spec 0 err_sz); [| lia].
  apply substring_all. lia.
Qed.

(** ** Tokenizer *)


Lemma tokenize_toks (l : string) : tokenize (Some l) = toks l.
Proof. reflexivity. Qed.

Lemma skip_ws_length (p : string) :
  String.length (skip_ws p) <= String.length p.
Proof.
  induction p as [|c p IH]; simpl; [lia |].
  destruct (negb (is_nul c) && isspace c); simpl; lia.
Qed.

Lemma scan_word_length (p : string) :
  String.length (scan_word p).2 <= String.length p.
Proof.
  induction p as [|c p IH]; simpl; [lia |].
  destruct (negb (is_nul c) && negb (isspace c) && negb (is_op_char c));
    [| simpl; lia].
  destruct (starts_2gt c p); [simpl; lia |].
  destruct (scan_word p) as [w r]; simpl in *; lia.
Qed.

Lemma skip_ws_head (p : string) (c : ascii) (p' : string) :
  skip_ws p = String c p' -> negb (is_nul c) && isspace c = false.
Proof.
  induction p as [|d p IH]; simpl; [done |].
  destruct (negb (is_nul d) && isspace d) eqn:E; [done |].
  intros [= -> ->]. done.
Qed.

Lemma scan_word_cons (c : ascii) (p' : string) :
  is_nul c = false -> isspace c = false -> is_op_char c = false ->
  starts_2gt c p' = false ->
  scan_word (String c p') = (String c (scan_word p').1, (scan_word p').2).
Proof.
  intros En Es Eo E2. simpl. rewrite En, Es, Eo, E2. simpl.
  by destruct (scan_word p').
Qed.

Lemma advance_length (p : string) :
  String.length (advance p) <= String.length p.
Proof. destruct p; simpl; lia. Qed.

Lemma tok_loop_S (fuel : nat) (p : string) (acc : list string) :
  tok_loop (S fuel) p acc =
    if is_nul (deref p) then acc
    else
      match skip_ws p with
      | EmptyString => acc
      | String c p' =>
          if is_nul c then acc
          else if starts_2gt c p' then
            tok_loop fuel (advance p') (push_token acc "2>")
          else if is_op_char c then
            tok_loop fuel p' (push_token acc (String c EmptyString))
          else
            let (w, r) := scan_word (String c p') in
            tok_loop fuel r (push_token acc w)
      end.
Proof. reflexivity. Qed.

(** Any fuel above the length of the line gives the same tokens: the loop
    always ends by reaching the end of the line. *)
Lemma tok_loop_fuel (f1 f2 : nat) (p : string) (acc : list string) :
  String.length p < f1 -> String.length p < f2 ->
  tok_loop f1 p acc = tok_loop f2 p acc.
Proof.
  revert f2 p acc.
  induction f1 as [|f1 IH]; intros [|f2] p acc H1 H2; try lia.
  rewrite !tok_loop_S. destruct (is_nul (deref p)); [done |].
  pose proof (skip_ws_length p) as Hs.
  destruct (skip_ws p) as [|c p'] eqn:E; [done |].
  change (String.length (String c p')) with (S (String.length p')) in Hs.
  destruct (is_nul c) eqn:En; [done |].
  destruct (starts_2gt c p') eqn:E2.
  { pose proof (advance_length p'). apply IH; lia. }
  destruct (is_op_char c) eqn:Eo; [apply IH; lia |].
  apply skip_ws_head in E. rewrite En in E. simpl in E.
  rewrite scan_word_cons by done.
  pose proof (scan_word_length p') as Hw'.
  apply IH; lia.
Qed.

Lemma push_token_acc (acc : list string) (t : string) :
  push_token acc t = acc ++ push_token [] t.
Proof.
  unfold push_token. destruct (Nat.leb _ 0); [by rewrite app_nil_r | done].
Qed.

Lemma tok_loop_acc (fuel : nat) (p : string) (acc : list string) :
  tok_loop fuel p acc = acc ++ tok_loop fuel p [].
Proof.
  revert p acc. induction fuel as [|fuel IH]; intros p acc.
  { simpl. by rewrite app_nil_r. }
  rewrite !tok_loop_S.
  destruct (is_nul (deref p)); [by rewrite app_nil_r |].
  destruct (skip_ws p) as [|c p']; [by rewrite app_nil_r |].
  destruct (is_nul c); [by rewrite app_nil_r |].
  destruct (starts_2gt c p').
  { rewrite IH, (IH _ (push_token [] _)), push_token_acc.
    by rewrite app_assoc. }
  destruct (is_op_char c).
  { rewrite IH, (IH _ (push_token [] _)), push_token_acc.
    by rewrite app_assoc. }
  destruct (scan_word (String c p')) as [w r].
  rewrite IH, (IH _ (push_token [] _)), push_token_acc.
  by rewrite app_assoc.
Qed.

Lemma toks_nil : toks "" = [].
Proof. reflexivity. Qed.

Lemma skip_ws_nul (p : string) : is_nul (deref p) = true -> skip_ws p = p.
Proof. destruct p as [|c p]; simpl; [done |]. by intros ->. Qed.

Lemma tok_loop_toks (fuel : nat) (p : string) :
  String.length p < fuel -> tok_loop fuel p [] = toks p.
Proof. intros H. unfold toks. apply tok_loop_fuel; lia. Qed.

(** One iteration of the outer loop. *)
Lemma toks_unfold (p : string) :
  toks p =
    if is_nul (deref p) then []
    else
      match skip_ws p with
      | EmptyString => []
      | String c p' =>
          if is_nul c then []
          else if starts_2gt c p' then "2>" :: toks (advance p')
          else if is_op_char c then String c "" :: toks p'
          else
            let (w, r) := scan_word (String c p') in
            push_token [] w ++ toks r
      end.
Proof.
  unfold toks at 1. rewrite tok_loop_S.
  destruct (is_nul (deref p)); [done |].
  pose proof (skip_ws_length p) as Hl.
  destruct (skip_ws p) as [|c p'] eqn:E; [done |].
  change (String.length (String c p')) with (S (String.length p')) in Hl.
  destruct (is_nul c) eqn:En; [done |].
  destruct (starts_2gt c p') eqn:E2.
  { rewrite tok_loop_acc. change (push_token [] "2>") with ["2>"].
    pose proof (advance_length p'). rewrite tok_loop_toks by lia. done. }
  destruct (is_op_char c) eqn:Eo.
  { rewrite tok_loop_acc.
    change (push_token [] (String c "")) with [String c ""].
    rewrite tok_loop_toks by lia. done. }
  apply skip_ws_head in E. rewrite En in E. simpl in E.
  rewrite scan_word_cons by done.
  pose proof (scan_word_length p') as Hw.
  rewrite tok_loop_acc. f_equal. apply tok_loop_toks. lia.
Qed.

(** One step of the tokenizer, by the character under the cursor. *)
Lemma toks_cons (c : ascii) (p' : string) :
  toks (String c p') =
    if is_nul c then []
    else if isspace c then toks p'
    else if starts_2gt c p' then "2>" :: toks (advance p')
    else if is_op_char c then String c "" :: toks p'
    else String c (scan_word p').1 :: toks (scan_word p').2.
Proof.
  rewrite toks_unfold. cbn [deref skip_ws].
  destruct (is_nul c) eqn:En; [done |]. cbn [negb andb].
  destruct (isspace c) eqn:Es.
  - rewrite (toks_unfold p').
    destruct (is_nul (deref p')) eqn:Ed; [| done].
    rewrite skip_ws_nul by done.
    destruct p' as [|d p'']; [done |]. cbn [deref] in Ed. by rewrite Ed.
  - rewrite En.
    destruct (starts_2gt c p') eqn:E2; [done |].
    destruct (is_op_char c) eqn:Eo; [done |].
    rewrite scan_word_cons by done. done.
Qed.

(** *** Cutting a line at a token boundary *)


Lemma stops_scan (q : string) : stops q -> scan_word q = ("", q).
Proof.
  unfold stops. destruct q as [|c q]; [done |]. simpl.
  destruct (negb (is_nul c) && negb (isspace c) && negb (is_op_char c));
    [| done].
  destruct (starts_2gt c q); [done |].
  by destruct (scan_word q).
Qed.

Lemma ends_with_tail (x c : ascii) (s : string) :
  ends_with x (String c s) = false -> ends_with x s = false.
Proof. destruct s; [done |]. by intros H. Qed.

Lemma ends_with_app (x : ascii) (w r : string) :
  ends_with x (w +:+ r) = false -> ends_with x r = false.
Proof.
  induction w as [|c w IH]; [done |]. rewrite append_cons.
  intros H. apply IH. by apply ends_with_tail in H.
Qed.

Lemma nul_free_app (w r : string) :
  nul_free (w +:+ r) = nul_free w && nul_free r.
Proof.
  induction w as [|c w IH]; [done |]. rewrite append_cons. simpl.
  rewrite IH. by rewrite andb_assoc.
Qed.

Lemma scan_word_split (p : string) :
  p = (scan_word p).1 +:+ (scan_word p).2.
Proof.
  induction p as [|c p IH]; [done |]. simpl.
  destruct (negb (is_nul c) && negb (isspace c) && negb (is_op_char c));
    [| done].
  destruct (starts_2gt c p); [done |].
  destruct (scan_word p) as [w r]. simpl in *. by rewrite append_cons, <- IH.
Qed.

(** The lookahead [*(p + 1) == '>'] does not see past the cut unless the
    cut is right after a ['2'] and right before a ['>']. *)
Lemma starts_2gt_app (c : ascii) (p' q : string) :
  (deref q = ">"%char -> ends_with "2" (String c p') = false) ->
  starts_2gt c (p' +:+ q) = starts_2gt c p'.
Proof.
  intros Hq. destruct p' as [|d p'']; [| done].
  rewrite append_nil_l. unfold starts_2gt. simpl in *.
  destruct (Ascii.eqb_spec (deref q) ">"%char) as [E|E].
  - by rewrite (Hq E).
  - by rewrite !andb_false_r.
Qed.

Lemma scan_word_app (p q : string) :
  nul_free p = true -> stops q ->
  (deref q = ">"%char -> ends_with "2" p = false) ->
  scan_word (p +:+ q) = ((scan_word p).1, (scan_word p).2 +:+ q).
Proof.
  intros Hn Hs. induction p as [|c p IH]; intros Hq.
  { rewrite append_nil_l. by rewrite (stops_scan q Hs). }
  rewrite append_cons. simpl in Hn. apply andb_true_iff in Hn as [Hc Hn].
  cbn [scan_word]. rewrite starts_2gt_app by done.
  destruct (negb (is_nul c) && negb (isspace c) && negb (is_op_char c));
    [| done].
  destruct (starts_2gt c p); [done |].
  rewrite IH; [| done |].
  - by destruct (scan_word p).
  - intros E. apply ends_with_tail with c. auto.
Qed.

Lemma advance_app (p q : string) :
  p <> "" -> advance (p +:+ q) = advance p +:+ q.
Proof. by destruct p. Qed.

(** Tokenizing [pre +:+ q], where the word loop stops at [q], is tokenizing
    [pre] and then [q] -- unless a ['2'] ending [pre] and a ['>'] heading
    [q] make one ["2>"] across the cut. *)
Lemma toks_app (pre q : string) :
  nul_free pre = true -> stops q ->
  (deref q = ">"%char -> ends_with "2" pre = false) ->
  toks (pre +:+ q) = toks pre ++ toks q.
Proof.
  intros Hn Hs.
  induction pre as [pre IH] using (induction_ltof1 _ String.length).
  unfold ltof in IH. intros Hq.
  destruct pre as [|c p']; [done |].
  simpl in Hn. apply andb_true_iff in Hn as [Hc Hn].
  apply negb_true_iff in Hc.
  assert (Htl : deref q = ">"%char -> ends_with "2" p' = false).
  { intros E. apply ends_with_tail with c. auto. }
  rewrite append_cons, !toks_cons, Hc.
  rewrite starts_2gt_app by done.
  destruct (isspace c).
  { apply IH; [simpl; lia | done | done]. }
  destruct (starts_2gt c p') eqn:E2.
  { assert (p' <> "") as Hne.
    { intros ->. unfold starts_2gt in E2. simpl in E2.
      by rewrite andb_false_r in E2. }
    rewrite advance_app by done. rewrite <- app_comm_cons. f_equal.
    destruct p' as [|d p'']; [done |]. simpl in *.
    apply andb_true_iff in Hn as [_ Hn].
    apply IH; [lia | done |].
    intros E. apply ends_with_tail with d. auto. }
  destruct (is_op_char c).
  { rewrite <- app_comm_cons. f_equal.
    apply IH; [simpl; lia | done | done]. }
  rewrite scan_word_app by done. cbn [fst snd].
  rewrite <- app_comm_cons. f_equal.
  pose proof (scan_word_length p') as Hl.
  pose proof (scan_word_split p') as Hsp.
  apply IH.
  - simpl. lia.
  - rewrite Hsp, nul_free_app in Hn. by apply andb_true_iff in Hn as [_ ?].
  - intros E. apply ends_with_app with (scan_word p').1.
    rewrite <- Hsp. auto.
Qed.

Lemma toks_space (ws p : string) :
  all_space ws = true -> toks (ws +:+ p) = toks p.
Proof.
  induction ws as [|c ws IH]; [done |]. simpl.
  intros H. apply andb_true_iff in H as [H Hws].
  apply andb_true_iff in H as [Hc Hs]. apply negb_true_iff in Hc.
  rewrite append_cons, toks_cons, Hc, Hs. auto.
Qed.

Lemma stops_space (ws p : string) :
  all_space ws = true -> ws <> "" -> stops (ws +:+ p).
Proof.
  destruct ws as [|c ws]; [done |]. simpl. intros H _.
  apply andb_true_iff in H as [H _]. apply andb_true_iff in H as [_ Hs].
  unfold stops. rewrite append_cons. simpl. rewrite Hs.
  by rewrite andb_false_r.
Qed.

Lemma ends_with_snoc (x : ascii) (s : string) :
  ends_with x s = true -> exists s', s = s' +:+ String x "".
Proof.
  induction s as [|c s IH]; [done |]. simpl.
  destruct s as [|d s].
  - intros E%Ascii.eqb_eq. subst. by exists "".
  - intros E. destruct (IH E) as [s' ->]. exists (String c s').
    by rewrite append_cons.
Qed.

Lemma toks_cut (pre ws q : string) :
  nul_free pre = true -> all_space ws = true -> stops q ->
  (deref q = ">"%char -> ends_with "2" (pre +:+ ws) = false) ->
  toks (pre +:+ ws +:+ q) = toks pre ++ toks q.
Proof.
  intros Hn Hw Hs Hq. destruct ws as [|c ws].
  { rewrite append_nil_r in Hq. rewrite append_nil_l. by apply toks_app. }
  rewrite toks_app; [by rewrite toks_space | done | by apply stops_space |].
  rewrite append_cons. cbn [deref]. intros ->. simpl in Hw. done.
Qed.

Lemma toks_single_op (c : ascii) (ws post : string) :
  is_op_char c = true -> all_space ws = true ->
  toks (String c "" +:+ ws +:+ post) = String c "" :: toks post.
Proof.
  intros Hc Hw. rewrite append_cons, append_nil_l, toks_cons.
  assert (is_nul c = false /\ isspace c = false /\
          forall p, starts_2gt c p = false) as (-> & -> & ->).
  { unfold is_op_char in Hc.
    destruct (Ascii.eqb_spec c "<"); [by subst |].
    destruct (Ascii.eqb_spec c ">"); [by subst |].
    destruct (Ascii.eqb_spec c "|"); [by subst | done]. }
  rewrite Hc. by rewrite toks_space.
Qed.

Lemma toks_2gt (ws post : string) :
  all_space ws = true -> toks ("2>" +:+ ws +:+ post) = "2>" :: toks post.
Proof.
  intros Hw. rewrite !append_cons, append_nil_l, toks_cons.
  cbn [is_nul isspace starts_2gt deref advance]. simpl.
  by rewrite toks_space.
Qed.

(** C8.  Whitespace next to an operator does not change the tokens.
    [a<b] and [a < b] both give the words [a], [b] around the operator [<].
    In any line, an operator [<], [|] or [2>] written after [pre] and
    before [post], with any whitespace [ws1], [ws2] (none included) on
    either side, is one token between the tokens of [pre] and those of
    [post]; so is [>], the one exception being a [>] that directly follows
    a [2], where the two characters are the operator [2>] (the case
    [op = "2>"]).  A word stops where a [2>] begins inside it. *)
Theorem tokenize_operator_adjacency :
  tokenize (Some "a<b") = ["a"; "<"; "b"] /\
  tokenize (Some "a < b") = tokenize (Some "a<b") /\
  tokenize (Some "ab2>c") = ["ab"; "2>"; "c"] /\
  (forall pre ws1 op ws2 post : string,
     nul_free pre = true -> all_space ws1 = true -> all_space ws2 = true ->
     op = "<" \/ op = "|" \/ op = "2>" ->
     tokenize (Some (pre +:+ ws1 +:+ op +:+ ws2 +:+ post)) =
       tokenize (Some pre) ++ [op] ++ tokenize (Some post)) /\
  (forall pre ws1 ws2 post : string,
     nul_free pre = true -> all_space ws1 = true -> all_space ws2 = true ->
     ends_with "2" (pre +:+ ws1) = false ->
     tokenize (Some (pre +:+ ws1 +:+ ">" +:+ ws2 +:+ post)) =
       tokenize (Some pre) ++ [">"] ++ tokenize (Some post)).
Proof.
  split; [reflexivity |]. split; [reflexivity |]. split; [reflexivity |].
  split.
  - intros pre ws1 op ws2 post Hn H1 H2 Hop. rewrite !tokenize_toks.
    assert (stops (op +:+ ws2 +:+ post) /\
            deref (op +:+ ws2 +:+ post) <> ">"%char /\
            toks (op +:+ ws2 +:+ post) = op :: toks post) as (Hs & Hd & Ht).
    { destruct Hop as [-> | [-> | ->]].
      - split; [done |]. split; [done |]. by apply (toks_single_op "<").
      - split; [done |]. split; [done |]. by apply (toks_single_op "|").
      - split; [done |]. split; [done |]. by apply toks_2gt. }
    rewrite toks_cut by done. by rewrite Ht.
  - intros pre ws1 ws2 post Hn H1 H2 He. rewrite !tokenize_toks.
    rewrite toks_cut by done. by rewrite (toks_single_op ">").
Qed.

Lemma tokenize_operator_adjacency_witness :
  tokenize (Some ("ls" +:+ "  " +:+ "|" +:+ "" +:+ "wc -l")) =
    tokenize (Some "ls") ++ ["|"] ++ tokenize (Some "wc -l") /\
  tokenize (Some ("echo 2" +:+ " " +:+ ">" +:+ "" +:+ "f")) =
    tokenize (Some "echo 2") ++ [">"] ++ tokenize (Some "f").
Proof.
  destruct tokenize_operator_adjacency as (_ & _ & _ & Hop & Hgt).
  split.
  - apply Hop; [reflexivity | reflexivity | reflexivity |].
    right. left. reflexivity.
  - apply Hgt; reflexivity.
Defined.

(** ** Segments *)

Lemma tok_is_eq (t lit : string) : tok_is t lit = true <-> t = lit.
Proof. apply String.eqb_eq. Qed.

Lemma tok_is_ne (t lit : string) : tok_is t lit = false <-> t <> lit.
Proof. apply String.eqb_neq. Qed.

Lemma split_pipes_nonempty (tokens : list string) : split_pipes tokens <> [].
Proof.
  induction tokens as [|t rest IH]; simpl; [done |].
  destruct (tok_is t "|"); [done |]. by destruct (split_pipes rest).
Qed.

Lemma join_split (tokens : list string) :
  join_pipes (split_pipes tokens) = tokens.
Proof.
  induction tokens as [|t rest IH]; simpl; [done |].
  pose proof (split_pipes_nonempty rest) as Hne.
  destruct (tok_is t "|") eqn:E.
  - apply tok_is_eq in E as ->.
    destruct (split_pipes rest) as [|s ss]; [done |].
    simpl in *. by rewrite IH.
  - destruct (split_pipes rest) as [|s ss]; [done |].
    simpl in *. destruct ss; simpl in *; by rewrite <- IH.
Qed.

Lemma split_pipes_no_pipe (tokens : list string) :
  Forall no_pipe (split_pipes tokens).
Proof.
  induction tokens as [|t rest IH]; simpl.
  { repeat constructor. }
  destruct (tok_is t "|") eqn:E.
  - constructor; [constructor | done].
  - destruct (split_pipes rest) as [|s ss].
    + repeat constructor. done.
    + inversion IH; subst. constructor; [| done]. by constructor.
Qed.

Lemma split_app_no_pipe (s rest : list string) :
  no_pipe s ->
  split_pipes (s ++ rest) =
    match split_pipes rest with
    | [] => [s]
    | s' :: ss => (s ++ s') :: ss
    end.
Proof.
  intros Hs. induction Hs as [|t s Ht Hs IH]; simpl.
  { by destruct (split_pipes rest) eqn:E;
      [apply split_pipes_nonempty in E |]. }
  rewrite Ht, IH. by destruct (split_pipes rest).
Qed.

Lemma split_join (segs : list (list string)) :
  Forall no_pipe segs -> segs <> [] -> split_pipes (join_pipes segs) = segs.
Proof.
  intros H. induction H as [|s ss Hs Hss IH]; [done |]. intros _.
  destruct ss as [|s' ss'].
  - simpl. rewrite <- (app_nil_r s) at 1. rewrite split_app_no_pipe by done.
    simpl. by rewrite app_nil_r.
  - change (join_pipes (s :: s' :: ss'))
      with (s ++ "|" :: join_pipes (s' :: ss')).
    rewrite split_app_no_pipe by done.
    cbn [split_pipes]. change (tok_is "|" "|") with true. cbn iota.
    rewrite IH by done. by rewrite app_nil_r.
Qed.

Lemma split_pipes_length (tokens : list string) :
  length (split_pipes tokens) = 1 + count_pipes tokens.
Proof.
  induction tokens as [|t rest IH]; simpl; [done |].
  destruct (tok_is t "|"); simpl; [by rewrite IH |].
  pose proof (split_pipes_nonempty rest).
  destruct (split_pipes rest); [done |]. simpl in *. lia.
Qed.

(** Loop B reads the token array segment by segment. *)
Lemma seg_loop_run (err_sz n : nat) (rest cur : list string) (idx : nat)
    (cs : list Command) :
  seg_loop err_sz n rest cur idx cs =
    match split_pipes rest with
    | [] => run_segments err_sz n cur [] idx cs
    | s :: ss => run_segments err_sz n (cur ++ s) ss idx cs
    end.
Proof.
  revert cur idx cs. induction rest as [|t rest IH]; intros cur idx cs.
  { simpl. by rewrite app_nil_r. }
  cbn [seg_loop split_pipes].
  pose proof (split_pipes_nonempty rest) as Hne.
  destruct (tok_is t "|") eqn:E.
  - rewrite app_nil_r.
    destruct (split_pipes rest) as [|s ss] eqn:Es; [done |].
    cbn [run_segments].
    destruct (do_segment n false cur _); [done |].
    by rewrite IH.
  - destruct (split_pipes rest) as [|s ss]; [done |].
    rewrite IH. by rewrite <- app_assoc.
Qed.

(** ** One segment *)



Lemma is_redir_cases (op : string) :
  is_redir op = true -> op = "<" \/ op = ">" \/ op = "2>".
Proof.
  unfold is_redir. intros H.
  destruct (tok_is op "<") eqn:E1; [apply tok_is_eq in E1; auto |].
  destruct (tok_is op ">") eqn:E2; [apply tok_is_eq in E2; auto |].
  destruct (tok_is op "2>") eqn:E3; [apply tok_is_eq in E3; auto | done].
Qed.

Lemma is_redir_is_op (op : string) : is_redir op = true -> is_op op = true.
Proof. unfold is_redir, is_op. intros ->. done. Qed.

Lemma is_op_false_redir (w : string) : is_op w = false -> is_redir w = false.
Proof.
  intros H. destruct (is_redir w) eqn:E; [| done].
  apply is_redir_is_op in E. congruence.
Qed.

Lemma is_op_false_inv (w : string) :
  is_op w = false ->
  tok_is w "<" = false /\ tok_is w ">" = false /\ tok_is w "2>" = false /\
  tok_is w "|" = false.
Proof.
  unfold is_op. intros H.
  destruct (tok_is w "<"), (tok_is w ">"), (tok_is w "2>"), (tok_is w "|");
    simpl in H; done.
Qed.

Lemma scan_redirs_word (n : nat) (l : bool) (w : string)
    (seg : list string) (c : Command) :
  is_redir w = false ->
  scan_redirs n l (w :: seg) c = scan_redirs n l seg c.
Proof.
  unfold is_redir. intros H. cbn [scan_redirs].
  destruct (tok_is w "<"), (tok_is w ">"), (tok_is w "2>"); done.
Qed.

Lemma scan_redirs_argv (n : nat) (l : bool) (seg : list string) :
  forall c c', scan_redirs n l seg c = inr c' -> argv c' = argv c.
Proof.
  induction seg as [seg IH] using (induction_ltof1 _ length).
  unfold ltof in IH. intros c c'. destruct seg as [|t rest]; simpl.
  { by intros [= ->]. }
  destruct (tok_is t "<").
  { destruct rest as [|f rest']; [done |]. destruct (is_op f); [done |].
    intros H. by rewrite (IH rest' ltac:(simpl; lia) _ _ H). }
  destruct (tok_is t ">").
  { destruct rest as [|f rest']; [done |]. destruct (is_op f); [done |].
    intros H. by rewrite (IH rest' ltac:(simpl; lia) _ _ H). }
  destruct (tok_is t "2>").
  { destruct rest as [|f rest']; [done |]. destruct (is_op f); [done |].
    intros H. by rewrite (IH rest' ltac:(simpl; lia) _ _ H). }
  intros H. by rewrite (IH rest ltac:(simpl; lia) _ _ H).
Qed.

Lemma field_after_word (op w : string) (seg : list string)
    (old new : option string) :
  w <> op -> field_after op seg old new -> field_after op (w :: seg) old new.
Proof.
  intros Hw [[Hni ->] | (f & -> & pre & post & -> & Hpost)].
  - left. split; [| done]. rewrite elem_of_cons.
    intros [E | E]; [congruence | done].
  - right. exists f. split; [done |]. by exists (w :: pre), post.
Qed.

Lemma field_after_set (op f : string) (seg : list string)
    (old new : option string) :
  field_after op seg (Some f) new -> field_after op (op :: f :: seg) old new.
Proof.
  intros [[Hni ->] | (f' & -> & pre & post & -> & Hpost)].
  - right. exists f. split; [done |]. by exists [], seg.
  - right. exists f'. split; [done |]. by exists (op :: f :: pre), post.
Qed.

(** On a segment of words and complete redirections the loop raises no
    error, however often an operator comes back; each field ends as the
    filename of the last occurrence of its operator. *)
Lemma scan_redirs_ok (n : nat) (l : bool) (seg ws : list string) :
  seg_words seg ws ->
  forall c, exists c',
    scan_redirs n l seg c = inr c' /\
    forall op, is_redir op = true ->
      field_after op seg (field op c) (field op c').
Proof.
  induction 1 as [| w seg ws Hw Hs IH | o f seg ws Ho Hf Hs IH]; intros c.
  - exists c. split; [done |]. intros op _. left. split; [| done].
    apply not_elem_of_nil.
  - destruct (IH c) as (c' & Hc' & Hfld). exists c'.
    rewrite scan_redirs_word by by apply is_op_false_redir.
    split; [done |]. intros op Hop. apply field_after_word; [| auto].
    intros ->. apply is_redir_is_op in Hop. congruence.
  - assert (forall op, is_redir op = true -> op <> f) as Hne.
    { intros op Hop ->. apply is_redir_is_op in Hop. congruence. }
    apply is_redir_cases in Ho as [-> | [-> | ->]]; cbn [scan_redirs];
      change (tok_is "<" "<") with true; change (tok_is ">" "<") with false;
      change (tok_is ">" ">") with true; change (tok_is "2>" "<") with false;
      change (tok_is "2>" ">") with false;
      change (tok_is "2>" "2>") with true; cbn iota; rewrite Hf.
    + destruct (IH (set_in_file (Some f) c)) as (c' & Hc' & Hfld).
      exists c'. split; [done |]. intros op Hop.
      pose proof (Hfld op Hop) as H1.
      apply is_redir_cases in Hop as Hcase.
      destruct Hcase as [-> | [-> | ->]].
      * by apply field_after_set.
      * apply field_after_word; [done |]. apply field_after_word; [| done].
        intros ->. by apply (Hne ">").
      * apply field_after_word; [done |]. apply field_after_word; [| done].
        intros ->. by apply (Hne "2>").
    + destruct (IH (set_out_file (Some f) c)) as (c' & Hc' & Hfld).
      exists c'. split; [done |]. intros op Hop.
      pose proof (Hfld op Hop) as H1.
      apply is_redir_cases in Hop as Hcase.
      destruct Hcase as [-> | [-> | ->]].
      * apply field_after_word; [done |]. apply field_after_word; [| done].
        intros ->. by apply (Hne "<").
      * by apply field_after_set.
      * apply field_after_word; [done |]. apply field_after_word; [| done].
        intros ->. by apply (Hne "2>").
    + destruct (IH (set_err_file (Some f) c)) as (c' & Hc' & Hfld).
      exists c'. split; [done |]. intros op Hop.
      pose proof (Hfld op Hop) as H1.
      apply is_redir_cases in Hop as Hcase.
      destruct Hcase as [-> | [-> | ->]].
      * apply field_after_word; [done |]. apply field_after_word; [| done].
        intros ->. by apply (Hne "<").
      * apply field_after_word; [done |]. apply field_after_word; [| done].
        intros ->. by apply (Hne ">").
      * by apply field_after_set.
Qed.



(** The loop stops at the first operator without a filename. *)
Lemma scan_redirs_missing (n : nat) (l : bool) (pre ws : list string)
    (op : string) (tail : list string) :
  seg_words pre ws -> is_redir op = true -> no_filename tail ->
  forall c,
    scan_redirs n l (pre ++ op :: tail) c = inl (missing_file_msg n l op).
Proof.
  intros Hpre Hop Htail.
  induction Hpre as [| w seg ws Hw Hs IH | o f seg ws Ho Hf Hs IH];
    intros c.
  - rewrite app_nil_l. unfold missing_file_msg.
    apply is_redir_cases in Hop as [-> | [-> | ->]]; cbn [scan_redirs];
      change (tok_is "<" "<") with true; change (tok_is ">" "<") with false;
      change (tok_is ">" ">") with true; change (tok_is "2>" "<") with false;
      change (tok_is "2>" ">") with false;
      change (tok_is "2>" "2>") with true; cbn iota;
      destruct tail as [|t tl]; try done; simpl in Htail; by rewrite Htail.
  - rewrite <- app_comm_cons.
    rewrite scan_redirs_word by by apply is_op_false_redir. apply IH.
  - rewrite <- !app_comm_cons.
    apply is_redir_cases in Ho as [-> | [-> | ->]]; cbn [scan_redirs];
      change (tok_is "<" "<") with true; change (tok_is ">" "<") with false;
      change (tok_is ">" ">") with true; change (tok_is "2>" "<") with false;
      change (tok_is "2>" ">") with false;
      change (tok_is "2>" "2>") with true; cbn iota; rewrite Hf; apply IH.
Qed.

(** The only messages of the redirection loop. *)
Lemma scan_redirs_msgs (n : nat) (l : bool) (seg : list string) :
  forall c msg, scan_redirs n l seg c = inl msg ->
    msg = MSG_IN \/ msg = MSG_OUT \/ msg = MSG_OUT_AFTER \/ msg = MSG_ERR.
Proof.
  induction seg as [seg IH] using (induction_ltof1 _ length).
  unfold ltof in IH. intros c msg. destruct seg as [|t rest]; [done |].
  cbn [scan_redirs].
  destruct (tok_is t "<").
  { destruct rest as [|f rest']; [intros [= <-]; auto |].
    destruct (is_op f); [intros [= <-]; auto |].
    apply IH. simpl; lia. }
  destruct (tok_is t ">").
  { assert ((if Nat.ltb 1 n && l then MSG_OUT_AFTER else MSG_OUT) = msg ->
            msg = MSG_IN \/ msg = MSG_OUT \/ msg = MSG_OUT_AFTER \/
            msg = MSG_ERR) as Hm.
    { destruct (Nat.ltb 1 n && l); intros <-; auto. }
    destruct rest as [|f rest']; [intros [= E]; auto |].
    destruct (is_op f); [intros [= E]; auto |].
    apply IH. simpl; lia. }
  destruct (tok_is t "2>").
  { destruct rest as [|f rest']; [intros [= <-]; auto |].
    destruct (is_op f); [intros [= <-]; auto 6 |].
    apply IH. simpl; lia. }
  apply IH. simpl; lia.
Qed.

(** A segment on which the loop raises no error is made of words and
    complete redirections. *)
Lemma scan_redirs_inv (n : nat) (l : bool) (seg : list string) :
  no_pipe seg ->
  forall c c', scan_redirs n l seg c = inr c' -> exists ws, seg_words seg ws.
Proof.
  induction seg as [seg IH] using (induction_ltof1 _ length).
  unfold ltof in IH. intros Hnp c c'. destruct seg as [|t rest].
  { exists []. constructor. }
  apply Forall_cons in Hnp as [Ht Hnp].
  cbn [scan_redirs].
  assert (forall f rest' c0,
            rest = f :: rest' -> is_redir t = true -> is_op f = false ->
            scan_redirs n l rest' c0 = inr c' ->
            exists ws, seg_words (t :: rest) ws) as Hredir.
  { intros f rest' c0 -> Hr Hf Hscan.
    apply Forall_cons in Hnp as [_ Hnp].
    destruct (IH rest' ltac:(simpl; lia) Hnp _ _ Hscan) as [ws Hws].
    exists ws. by constructor. }
  destruct (tok_is t "<") eqn:E1.
  { destruct rest as [|f rest']; [done |].
    destruct (is_op f) eqn:Ef; [done |].
    intros Hscan.
    eapply Hredir; [reflexivity | | exact Ef | exact Hscan].
    unfold is_redir. by rewrite E1. }
  destruct (tok_is t ">") eqn:E2.
  { destruct rest as [|f rest']; [done |].
    destruct (is_op f) eqn:Ef; [done |].
    intros Hscan.
    eapply Hredir; [reflexivity | | exact Ef | exact Hscan].
    unfold is_redir. by rewrite E1, E2. }
  destruct (tok_is t "2>") eqn:E3.
  { destruct rest as [|f rest']; [done |].
    destruct (is_op f) eqn:Ef; [done |].
    intros Hscan.
    eapply Hredir; [reflexivity | | exact Ef | exact Hscan].
    unfold is_redir. by rewrite E1, E2, E3. }
  intros Hscan.
  destruct (IH rest ltac:(simpl; lia) Hnp _ _ Hscan) as [ws Hws].
  exists (t :: ws). constructor; [| done].
  unfold is_op. by rewrite E1, E2, E3, Ht.
Qed.

(** *** [build_argv] *)

Lemma count_words_seg (seg ws : list string) :
  seg_words seg ws -> count_words seg = length ws.
Proof.
  induction 1 as [| w seg ws Hw Hs IH | o f seg ws Ho Hf Hs IH]; simpl.
  - done.
  - rewrite (is_op_false_redir w Hw).
    apply is_op_false_inv in Hw as (_ & _ & _ & ->). by rewrite IH.
  - by rewrite Ho.
Qed.

Lemma insert_middle {A} (front rest : list A) (x y : A) :
  <[length front := x]> (front ++ y :: rest) = front ++ x :: rest.
Proof. induction front as [|a front IH]; simpl; [done | by f_equal]. Qed.

Lemma fill_argv_seg (seg ws : list string) :
  seg_words seg ws ->
  forall (front : list (option string)) (m : nat),
    fill_argv seg (length front)
      (front ++ replicate (length ws + m) None) =
    (length front + length ws, front ++ (Some <$> ws) ++ replicate m None).
Proof.
  induction 1 as [| w seg ws Hw Hs IH | o f seg ws Ho Hf Hs IH];
    intros front m; cbn [fill_argv].
  - simpl. by rewrite Nat.add_0_r.
  - rewrite (is_op_false_redir w Hw).
    apply is_op_false_inv in Hw as (_ & _ & _ & ->).
    cbn [length Nat.add replicate].
    replace (<[length front:=Some w]>
               (front ++ None :: replicate (length ws + m) None))
      with ((front ++ [Some w]) ++ replicate (length ws + m) None).
    2:{ rewrite insert_middle. by rewrite <- app_assoc. }
    replace (S (length front)) with (length (front ++ [Some w])).
    2:{ rewrite length_app. simpl. lia. }
    rewrite IH. rewrite length_app. simpl.
    f_equal; [lia |]. by rewrite <- app_assoc.
  - rewrite Ho. apply IH.
Qed.

Lemma build_argv_seg (seg ws : list string) :
  seg_words seg ws -> build_argv seg = (Some <$> ws) ++ [None].
Proof.
  intros H. unfold build_argv. rewrite (count_words_seg seg ws H).
  pose proof (fill_argv_seg seg ws H [] 1) as Hf. simpl in Hf.
  rewrite Hf.
  rewrite <- (length_fmap Some ws). apply insert_middle.
Qed.

Lemma argv_empty_words (ws : list string) (c : Command) :
  argv_empty (set_argv (Some ((Some <$> ws) ++ [None])) c) =
    bool_decide (ws = []).
Proof. by destruct ws. Qed.

(** *** [do_segment] *)

Lemma do_segment_words (n : nat) (l : bool) (seg ws : list string)
    (c : Command) :
  seg_words seg ws ->
  exists c1,
    scan_redirs n l seg c = inr c1 /\
    (forall op, is_redir op = true ->
       field_after op seg (field op c) (field op c1)) /\
    do_segment n l seg c =
      if bool_decide (ws = []) then inl MSG_PIPE_MISSING
      else inr (set_argv (Some ((Some <$> ws) ++ [None])) c1).
Proof.
  intros H. destruct (scan_redirs_ok n l seg ws H c) as (c1 & Hc1 & Hfld).
  exists c1. split; [done |]. split; [done |].
  unfold do_segment. rewrite Hc1, (build_argv_seg seg ws H).
  rewrite argv_empty_words. done.
Qed.

Lemma seg_words_fun (seg ws ws' : list string) :
  seg_words seg ws -> seg_words seg ws' -> ws = ws'.
Proof.
  intros H. revert ws'.
  induction H as [| w seg ws Hw Hs IH | o f seg ws Ho Hf Hs IH];
    intros ws' H'; inversion H'; subst.
  - done.
  - f_equal. auto.
  - apply is_redir_is_op in H1. congruence.
  - apply is_redir_is_op in Ho. congruence.
  - auto.
Qed.


Lemma field_after_fresh (op : string) (seg : list string)
    (new : option string) :
  field_after op seg None new -> last_occurrence op seg new.
Proof. intros [[Hni E] | (f & E & H)]; by subst. Qed.

Lemma do_segment_accepted (n : nat) (l : bool) (seg : list string) :
  accepted seg ->
  exists c, do_segment n l seg zero_cmd = inr c /\ cmd_of_segment seg c.
Proof.
  intros (ws & Hws & Hne).
  destruct (do_segment_words n l seg ws zero_cmd Hws)
    as (c1 & Hscan & Hfld & Hdo).
  rewrite bool_decide_eq_false_2 in Hdo by done.
  eexists. split; [exact Hdo |].
  exists ws. split; [done |]. split; [done |]. split; [done |].
  repeat split; apply field_after_fresh.
  - apply (Hfld "<"). done.
  - apply (Hfld ">"). done.
  - apply (Hfld "2>"). done.
Qed.

Lemma do_segment_inr (n : nat) (l : bool) (seg : list string)
    (c : Command) :
  no_pipe seg -> do_segment n l seg zero_cmd = inr c -> cmd_of_segment seg c.
Proof.
  intros Hnp Hdo. unfold do_segment in Hdo.
  destruct (scan_redirs n l seg zero_cmd) as [msg | c1] eqn:Hscan; [done |].
  destruct (scan_redirs_inv n l seg Hnp _ _ Hscan) as [ws Hws].
  assert (ws <> []) as Hne.
  { intros ->. rewrite (build_argv_seg seg [] Hws) in Hdo. done. }
  destruct (do_segment_accepted n l seg) as (c' & Hc' & Hcmd).
  { by exists ws. }
  unfold do_segment in Hc'. rewrite Hscan in Hc'.
  destruct (argv_empty _); [done |]. congruence.
Qed.

Lemma do_segment_missing (n : nat) (l : bool) (seg : list string) :
  no_pipe seg ->
  do_segment n l seg zero_cmd = inl MSG_PIPE_MISSING <-> seg_words seg [].
Proof.
  intros Hnp. split.
  - unfold do_segment.
    destruct (scan_redirs n l seg zero_cmd) as [msg | c1] eqn:Hscan.
    { intros [= ->].
      apply scan_redirs_msgs in Hscan as [H | [H | [H | H]]]; done. }
    destruct (scan_redirs_inv n l seg Hnp _ _ Hscan) as [ws Hws].
    rewrite (build_argv_seg seg ws Hws), argv_empty_words.
    case_bool_decide; [by subst | done].
  - intros Hws.
    destruct (do_segment_words n l seg [] zero_cmd Hws) as (c1 & _ & _ & H).
    done.
Qed.

(** ** The whole sequence *)

Lemma free_pipeline_init (p : Pipeline) : free_pipeline p = pipeline_init.
Proof. unfold free_pipeline. by destruct (cmds p). Qed.


Lemma segments_result_cons (n : nat) (s : list string)
    (ss : list (list string)) :
  segments_result n (s :: ss) =
    match do_segment n (bool_decide (ss = [])) s zero_cmd with
    | inl msg => inl msg
    | inr c =>
        match segments_result n ss with
        | inl msg => inl msg
        | inr cs => inr (c :: cs)
        end
    end.
Proof. reflexivity. Qed.

Lemma run_segments_result (err_sz n : nat) (s : list string)
    (ss : list (list string)) (front : list Command) :
  run_segments err_sz n s ss (length front)
    (front ++ replicate (S (length ss)) zero_cmd) =
  parse_outcome err_sz n front (segments_result n (s :: ss)).
Proof.
  revert s front. induction ss as [|s' ss' IH]; intros s front.
  - cbn [run_segments segments_result length replicate].
    rewrite list_lookup_middle by done.
    change (default zero_cmd (Some zero_cmd)) with zero_cmd.
    rewrite bool_decide_eq_true_2 by done.
    destruct (do_segment n true s zero_cmd) as [msg | c]; simpl.
    + unfold parse_fail. by rewrite free_pipeline_init.
    + by rewrite insert_middle.
  - cbn [run_segments length]. rewrite (segments_result_cons n s).
    rewrite bool_decide_eq_false_2 by done.
    change (replicate (S (S (length ss'))) zero_cmd)
      with (zero_cmd :: replicate (S (length ss')) zero_cmd).
    rewrite list_lookup_middle by done.
    change (default zero_cmd (Some zero_cmd)) with zero_cmd.
    destruct (do_segment n false s zero_cmd) as [msg | c].
    + unfold parse_fail. by rewrite free_pipeline_init.
    + rewrite insert_middle.
      pose proof (IH s' (front ++ [c])) as IH'.
      rewrite length_app, <- app_assoc in IH'. cbn [length app] in IH'.
      replace (length front + 1) with (S (length front)) in IH' by lia.
      rewrite IH'.
      destruct (segments_result n (s' :: ss')); simpl; [done |].
      by rewrite <- app_assoc.
Qed.

Lemma stdlib_last (tokens : list string) (d : string) :
  tokens <> [] -> last tokens = Some (List.last tokens d).
Proof.
  induction tokens as [|t rest IH]; [done |]. intros _.
  destruct rest as [|u rest]; [done |].
  rewrite last_cons_cons. by rewrite IH.
Qed.

(** The four ways through [parse_line] once there is a token. *)
Lemma parse_tokens_first (tokens : list string) (err_sz : nat) :
  first_is_pipe tokens ->
  parse_tokens tokens err_sz =
    mkResult 1%Z pipeline_init (snprintf err_sz MSG_PIPE_MISSING).
Proof.
  unfold first_is_pipe. destruct tokens as [|t rest]; [done |].
  intros [= ->]. done.
Qed.

Lemma parse_tokens_last (tokens : list string) (err_sz : nat) :
  ~ first_is_pipe tokens -> last_is_pipe tokens ->
  parse_tokens tokens err_sz =
    mkResult 1%Z pipeline_init (snprintf err_sz MSG_PIPE_MISSING).
Proof.
  unfold first_is_pipe, last_is_pipe.
  destruct tokens as [|t rest]; [done |]. intros Hf Hl.
  unfold parse_tokens.
  destruct (tok_is t "|") eqn:E; [done |].
  rewrite (stdlib_last (t :: rest) t) in Hl by done.
  assert (List.last (t :: rest) t = "|") as -> by congruence. done.
Qed.

Lemma parse_tokens_adjacent (tokens : list string) (err_sz : nat) :
  ~ first_is_pipe tokens -> ~ last_is_pipe tokens ->
  adjacent_pipes tokens = true ->
  parse_tokens tokens err_sz =
    mkResult 1%Z pipeline_init (snprintf err_sz MSG_PIPE_EMPTY).
Proof.
  unfold first_is_pipe, last_is_pipe.
  destruct tokens as [|t rest]; [done |]. intros Hf Hl Ha.
  unfold parse_tokens.
  destruct (tok_is t "|") eqn:E; [apply tok_is_eq in E; by subst |].
  rewrite (stdlib_last (t :: rest) t) in Hl by done.
  destruct (tok_is (List.last (t :: rest) t) "|") eqn:El.
  { apply tok_is_eq in El. by rewrite El in Hl. }
  by rewrite Ha.
Qed.

Lemma parse_tokens_segments (tokens : list string) (err_sz : nat) :
  tokens <> [] -> ~ first_is_pipe tokens -> ~ last_is_pipe tokens ->
  adjacent_pipes tokens = false ->
  parse_tokens tokens err_sz =
    parse_outcome err_sz (length (split_pipes tokens)) []
      (segments_result (length (split_pipes tokens)) (split_pipes tokens)).
Proof.
  unfold first_is_pipe, last_is_pipe.
  destruct tokens as [|t rest]; [done |]. intros _ Hf Hl Ha.
  unfold parse_tokens.
  destruct (tok_is t "|") eqn:E; [apply tok_is_eq in E; by subst |].
  rewrite (stdlib_last (t :: rest) t) in Hl by done.
  destruct (tok_is (List.last (t :: rest) t) "|") eqn:El.
  { apply tok_is_eq in El. by rewrite El in Hl. }
  rewrite Ha, <- (split_pipes_length (t :: rest)), seg_loop_run.
  pose proof (split_pipes_nonempty (t :: rest)) as Hne.
  destruct (split_pipes (t :: rest)) as [|s ss]; [done |].
  apply (run_segments_result err_sz (S (length ss)) s ss []).
Qed.

Lemma segments_result_inl (n : nat) (segs : list (list string))
    (msg : string) :
  segments_result n segs = inl msg <->
  exists good seg later,
    segs = good ++ seg :: later /\
    Forall (fun s => exists c, do_segment n false s zero_cmd = inr c) good /\
    do_segment n (bool_decide (later = [])) seg zero_cmd = inl msg.
Proof.
  split.
  - induction segs as [|s ss IH]; [done |].
    rewrite segments_result_cons.
    destruct (do_segment n (bool_decide (ss = [])) s zero_cmd)
      as [m | c] eqn:Hs.
    + intros [= ->]. by exists [], s, ss.
    + destruct (segments_result n ss) as [m | cs]; [| done].
      intros [= ->]. destruct (IH eq_refl) as (good & seg & later & E & Hg & Hd).
      exists (s :: good), seg, later. split; [by rewrite E |].
      split; [| done]. constructor; [| done].
      rewrite bool_decide_eq_false_2 in Hs; [by exists c |].
      rewrite E. by destruct good.
  - intros (good & seg & later & -> & Hg & Hd).
    induction Hg as [|s good [c Hc] Hg IH].
    + rewrite app_nil_l, segments_result_cons. by rewrite Hd.
    + rewrite <- app_comm_cons, segments_result_cons.
      rewrite bool_decide_eq_false_2 by by destruct good.
      by rewrite Hc, IH.
Qed.

Lemma segments_result_inr (n : nat) (segs : list (list string))
    (cs : list Command) :
  segments_result n segs = inr cs ->
  Forall2 (fun s c => exists l, do_segment n l s zero_cmd = inr c) segs cs.
Proof.
  revert cs. induction segs as [|s ss IH]; intros cs.
  { intros [= <-]. constructor. }
  rewrite segments_result_cons.
  destruct (do_segment n (bool_decide (ss = [])) s zero_cmd)
    as [m | c] eqn:Hs; [done |].
  destruct (segments_result n ss) as [m | cs']; [done |].
  intros [= <-]. constructor; [by eexists | by apply IH].
Qed.

Lemma segments_result_accepted (n : nat) (segs : list (list string)) :
  Forall accepted segs ->
  exists cs, segments_result n segs = inr cs /\
             Forall2 cmd_of_segment segs cs.
Proof.
  induction 1 as [|s ss Hs Hss (cs & Hcs & Hall)].
  { exists []. split; [done | constructor]. }
  destruct (do_segment_accepted n (bool_decide (ss = [])) s Hs)
    as (c & Hc & Hcmd).
  exists (c :: cs). rewrite segments_result_cons, Hc, Hcs.
  split; [done | by constructor].
Qed.

Lemma seg_words_no_pipe (seg ws : list string) :
  seg_words seg ws -> no_pipe seg.
Proof.
  induction 1 as [| w seg ws Hw Hs IH | o f seg ws Ho Hf Hs IH].
  - constructor.
  - constructor; [| done]. by apply is_op_false_inv in Hw as (_ & _ & _ & ?).
  - constructor.
    + by apply is_redir_cases in Ho as [-> | [-> | ->]].
    + constructor; [| done].
      by apply is_op_false_inv in Hf as (_ & _ & _ & ?).
Qed.

Lemma seg_words_not_op (seg ws : list string) :
  seg_words seg ws -> Forall (fun w => is_op w = false) ws.
Proof. induction 1; [constructor | by constructor | done]. Qed.

Lemma accepted_no_pipe (seg : list string) : accepted seg -> no_pipe seg.
Proof. intros (ws & H & _). by eapply seg_words_no_pipe. Qed.

Lemma accepted_nonempty (seg : list string) : accepted seg -> seg <> [].
Proof. intros (ws & H & Hne) ->. by inversion H; subst. Qed.

(** *** The checks of part A on a sequence written by segments *)

Lemma adjacent_pipes_app (s r : list string) :
  no_pipe s -> adjacent_pipes (s ++ r) = adjacent_pipes r.
Proof.
  induction 1 as [|t s Ht Hs IH]; [done |].
  rewrite <- app_comm_cons. cbn [adjacent_pipes]. rewrite Ht, IH.
  destruct (s ++ r) eqn:E; [| done].
  apply app_eq_nil in E as [_ ->]. done.
Qed.

Lemma join_pipes_cons2 (s s' : list string) (ss : list (list string)) :
  join_pipes (s :: s' :: ss) = s ++ "|" :: join_pipes (s' :: ss).
Proof. reflexivity. Qed.

Lemma join_pipes_checks (segs : list (list string)) :
  segs <> [] -> Forall (fun s => s <> [] /\ no_pipe s) segs ->
  join_pipes segs <> [] /\ ~ first_is_pipe (join_pipes segs) /\
  ~ last_is_pipe (join_pipes segs) /\
  adjacent_pipes (join_pipes segs) = false.
Proof.
  intros Hne H. induction H as [|s ss [Hs Hnp] Hss IH]; [done |].
  assert (head s <> Some "|") as Hhd.
  { destruct s as [|t s]; [done |]. apply Forall_cons in Hnp as [Ht _].
    apply tok_is_ne in Ht. simpl. congruence. }
  assert (last s <> Some "|") as Hla.
  { intros (s0 & ->)%last_Some.
    apply Forall_app in Hnp as [_ Hnp]. apply Forall_cons in Hnp as [Ht _].
    done. }
  destruct ss as [|s' ss'].
  { simpl. split; [done |]. split; [done |]. split; [done |].
    rewrite <- (app_nil_r s). by rewrite adjacent_pipes_app. }
  destruct IH as (Hj & Hf & Hl & Ha); [done |].
  rewrite join_pipes_cons2. unfold first_is_pipe, last_is_pipe in *.
  split; [by destruct s |]. split; [by destruct s |]. split.
  - rewrite last_app_cons. destruct (join_pipes (s' :: ss')) eqn:E; [done |].
    by rewrite last_cons_cons.
  - rewrite adjacent_pipes_app by done. cbn [adjacent_pipes].
    destruct (join_pipes (s' :: ss')) as [|u r] eqn:E; [done |].
    rewrite Ha. simpl in Hf. destruct (tok_is u "|") eqn:Eu; [| done].
    apply tok_is_eq in Eu. congruence.
Qed.

(** Every segment accepted: the parse succeeds. *)
Lemma parse_tokens_accepted (segs : list (list string)) (err_sz : nat) :
  segs <> [] -> Forall accepted segs ->
  exists cs,
    parse_tokens (join_pipes segs) err_sz =
      mkResult 0%Z (mkPipeline (Some cs) (Z.of_nat (length segs))) "" /\
    Forall2 cmd_of_segment segs cs.
Proof.
  intros Hne Hacc.
  destruct (join_pipes_checks segs Hne) as (Hj & Hf & Hl & Ha).
  { eapply Forall_impl; [exact Hacc |]. intros s Hs.
    split; [by apply accepted_nonempty | by apply accepted_no_pipe]. }
  rewrite parse_tokens_segments by done.
  rewrite split_join; [| | done].
  2:{ eapply Forall_impl; [exact Hacc |]. apply accepted_no_pipe. }
  destruct (segments_result_accepted (length segs) segs Hacc)
    as (cs & -> & Hall).
  by exists cs.
Qed.

(** A successful parse: every segment was accepted. *)
Lemma parse_tokens_ok (tokens : list string) (err_sz : nat) :
  ret (parse_tokens tokens err_sz) = 0%Z ->
  tokens <> [] /\ ~ first_is_pipe tokens /\ ~ last_is_pipe tokens /\
  adjacent_pipes tokens = false /\
  exists cs,
    parse_tokens tokens err_sz =
      mkResult 0%Z
        (mkPipeline (Some cs) (Z.of_nat (length (split_pipes tokens)))) "" /\
    Forall2 cmd_of_segment (split_pipes tokens) cs.
Proof.
  intros Hret.
  destruct (decide (tokens = [])) as [-> | Hne]; [done |].
  destruct (decide (first_is_pipe tokens)) as [Hf | Hf].
  { by rewrite parse_tokens_first in Hret. }
  destruct (decide (last_is_pipe tokens)) as [Hl | Hl].
  { by rewrite parse_tokens_last in Hret. }
  destruct (adjacent_pipes tokens) eqn:Ha.
  { by rewrite parse_tokens_adjacent in Hret. }
  do 4 (split; [done |]).
  rewrite parse_tokens_segments in Hret |- * by done.
  destruct (segments_result _ _) as [m | cs] eqn:Hr; [done |].
  exists cs. split; [done |].
  apply segments_result_inr in Hr.
  pose proof (split_pipes_no_pipe tokens) as Hnp.
  revert Hnp. induction Hr as [|s c ss cs [l Hd] Hr IH]; [constructor |].
  intros [Hs Hss]%Forall_cons. constructor; [| auto].
  by eapply do_segment_inr.
Qed.

Lemma do_segment_msgs (n : nat) (l : bool) (seg : list string)
    (c : Command) (msg : string) :
  do_segment n l seg c = inl msg ->
  msg = MSG_IN \/ msg = MSG_OUT \/ msg = MSG_OUT_AFTER \/ msg = MSG_ERR \/
  msg = MSG_PIPE_MISSING.
Proof.
  unfold do_segment.
  destruct (scan_redirs n l seg c) as [m | c1] eqn:Hscan.
  - intros [= <-]. apply scan_redirs_msgs in Hscan. tauto.
  - destruct (argv_empty _); [| done]. intros [= <-]. tauto.
Qed.

Lemma known_msg_fits (err_sz : nat) (msg : string) :
  String.length MSG_OUT_AFTER < err_sz ->
  msg = MSG_IN \/ msg = MSG_OUT \/ msg = MSG_OUT_AFTER \/ msg = MSG_ERR \/
  msg = MSG_PIPE_MISSING \/ msg = MSG_PIPE_EMPTY ->
  snprintf err_sz msg = msg.
Proof.
  intros Hsz H. apply snprintf_fits.
  simpl in Hsz. destruct H as [-> | [-> | [-> | [-> | [-> | ->]]]]];
    simpl; lia.
Qed.

(** C7.  A redirection operator written several times in a segment, each
    time with a filename, raises no error: on a line whose segments are all
    made of at least one word and of complete redirections (repeated or
    not), [parse_line] returns 0 with an empty message and one [Command]
    per segment, and each of [in_file], [out_file], [err_file] holds the
    filename after the last occurrence of its operator in the segment
    (NULL when the operator does not occur).  Each field is one pointer, so
    a [Command] never holds two filenames of the same kind. *)
Theorem repeated_redirection_last_wins (line : option string)
    (err_sz : nat) (segs : list (list string)) :
  tokenize line = join_pipes segs -> segs <> [] -> Forall accepted segs ->
  exists cs,
    parse_line line err_sz =
      mkResult 0%Z (mkPipeline (Some cs) (Z.of_nat (length segs))) "" /\
    Forall2
      (fun seg c =>
         last_occurrence "<" seg (in_file c) /\
         last_occurrence ">" seg (out_file c) /\
         last_occurrence "2>" seg (err_file c))
      segs cs.
Proof.
  intros Htok Hne Hacc. unfold parse_line. rewrite Htok.
  destruct (parse_tokens_accepted segs err_sz Hne Hacc) as (cs & Hp & Hall).
  exists cs. split; [done |].
  eapply Forall2_impl; [exact Hall |].
  intros seg c (ws & _ & _ & _ & ? & ? & ?). done.
Qed.

Lemma repeated_redirection_last_wins_witness :
  exists cs,
    parse_line (Some "sort < a < b > c 2> d > e | wc") ERRBUF_SZ =
      mkResult 0%Z (mkPipeline (Some cs) 2%Z) "" /\
    Forall2
      (fun seg c =>
         last_occurrence "<" seg (in_file c) /\
         last_occurrence ">" seg (out_file c) /\
         last_occurrence "2>" seg (err_file c))
      [["sort"; "<"; "a"; "<"; "b"; ">"; "c"; "2>"; "d"; ">"; "e"]; ["wc"]]
      cs.
Proof.
  apply (repeated_redirection_last_wins
           (Some "sort < a < b > c 2> d > e | wc") ERRBUF_SZ
           [["sort"; "<"; "a"; "<"; "b"; ">"; "c"; "2>"; "d"; ">"; "e"];
            ["wc"]]).
  - reflexivity.
  - discriminate.
  - repeat constructor.
    + exists ["sort"]. split; [| discriminate].
      repeat (constructor; try reflexivity).
    + exists ["wc"]. split; [| discriminate].
      repeat (constructor; try reflexivity).
Defined.

(** C10.  In the [Pipeline] of a successful [parse_line], every [Command]
    has a non-NULL [argv] array that is the words [ws] of its segment
    followed by one NULL: [ws] is not empty (so [argv[0]] is not NULL), no
    entry is an operator, and [ws] is the segment with every redirection
    operator and the filename it consumes taken out. *)
Theorem parsed_argv_well_formed (line : option string) (err_sz : nat) :
  ret (parse_line line err_sz) = 0%Z ->
  exists cs,
    cmds (out (parse_line line err_sz)) = Some cs /\
    n_cmds (out (parse_line line err_sz)) = Z.of_nat (length cs) /\
    Forall2
      (fun seg c =>
         exists ws,
           argv c = Some ((Some <$> ws) ++ [None]) /\
           ws <> [] /\
           Forall (fun w => is_op w = false) ws /\
           seg_words seg ws)
      (split_pipes (tokenize line)) cs.
Proof.
  unfold parse_line. intros Hret.
  destruct (parse_tokens_ok _ _ Hret) as (_ & _ & _ & _ & cs & -> & Hall).
  exists cs. split; [done |]. split.
  { simpl. by rewrite (Forall2_length _ _ _ Hall). }
  eapply Forall2_impl; [exact Hall |].
  intros seg c (ws & Hws & Hne & Hargv & _). exists ws.
  split; [done |]. split; [done |]. split; [| done].
  by eapply seg_words_not_op.
Qed.

Lemma parsed_argv_well_formed_witness :
  exists cs,
    cmds (out (parse_line (Some "grep foo < in > out | wc -l") ERRBUF_SZ))
      = Some cs /\
    n_cmds (out (parse_line (Some "grep foo < in > out | wc -l") ERRBUF_SZ))
      = Z.of_nat (length cs) /\
    Forall2
      (fun seg c =>
         exists ws,
           argv c = Some ((Some <$> ws) ++ [None]) /\
           ws <> [] /\
           Forall (fun w => is_op w = false) ws /\
           seg_words seg ws)
      (split_pipes (tokenize (Some "grep foo < in > out | wc -l"))) cs.
Proof.
  apply (parsed_argv_well_formed (Some "grep foo < in > out | wc -l")
           ERRBUF_SZ).
  reflexivity.
Defined.

Lemma join_pipes_nonempty (good later : list (list string))
    (seg : list string) :
  seg <> [] -> join_pipes (good ++ seg :: later) <> [].
Proof.
  intros Hseg. induction good as [|g good IH].
  - rewrite app_nil_l. destruct later; simpl; [done |]. by destruct seg.
  - rewrite <- app_comm_cons.
    destruct (good ++ seg :: later) eqn:E; [by destruct good |].
    rewrite join_pipes_cons2. by destruct g.
Qed.

(** C3, as the code has it.  Take a line that passes the pipe-placement
    checks, whose segments before segment [seg] are all accepted, and in
    which [seg] is [pre ++ op :: tail]: complete redirections and words
    [pre], then a redirection operator [op] whose next token is absent or
    is an operator.  Then [parse_line] fails, releases the [Pipeline], and
    the message is "Input file not specified." for [<], "Error output file
    not specified." for [2>], and for [>]: "Output file not specified after
    redirection." when the [>] is the last token of the last segment of a
    line of several commands, "Output file not specified." when the line
    has one command or the segment is not the last one. *)
Theorem missing_filename_message (line : option string) (err_sz : nat)
    (good later : list (list string)) (pre tail : list string)
    (op : string) :
  let segs := good ++ (pre ++ op :: tail) :: later in
  let r := parse_line line err_sz in
  tokenize line = join_pipes segs ->
  String.length MSG_OUT_AFTER < err_sz ->
  Forall no_pipe segs ->
  ~ first_is_pipe (join_pipes segs) ->
  ~ last_is_pipe (join_pipes segs) ->
  adjacent_pipes (join_pipes segs) = false ->
  Forall accepted good ->
  (exists ws, seg_words pre ws) ->
  is_redir op = true ->
  no_filename tail ->
  ret r = 1%Z /\ out r = pipeline_init /\
  (op = "<" -> err r = MSG_IN) /\
  (op = "2>" -> err r = MSG_ERR) /\
  (op = ">" -> tail = [] -> later = [] -> good <> [] ->
   err r = MSG_OUT_AFTER) /\
  (op = ">" -> later <> [] \/ good = [] -> err r = MSG_OUT).
Proof.
  intros segs r Htok Hsz Hnp Hf Hl Ha Hgood [ws Hpre] Hop Htail.
  assert (segs <> []) as Hne by by (unfold segs; destruct good).
  assert (join_pipes segs <> []) as Hj.
  { apply join_pipes_nonempty. by destruct pre. }
  set (n := length segs).
  set (l := bool_decide (later = [])).
  assert (r = mkResult 1%Z pipeline_init (missing_file_msg n l op)) as ->.
  { unfold r, parse_line. rewrite Htok.
    rewrite parse_tokens_segments by done. rewrite split_join by done.
    fold n.
    assert (segments_result n segs = inl (missing_file_msg n l op)) as ->.
    { apply segments_result_inl.
      exists good, (pre ++ op :: tail), later. split; [done |]. split.
      - eapply Forall_impl; [exact Hgood |]. intros s Hs.
        destruct (do_segment_accepted n false s Hs) as (c & Hc & _).
        by exists c.
      - unfold do_segment.
        by rewrite (scan_redirs_missing n l pre ws op tail). }
    unfold parse_outcome. f_equal. apply known_msg_fits; [done |].
    unfold missing_file_msg.
    destruct (tok_is op "<"); [auto 10 |].
    destruct (tok_is op ">"); [| auto 10].
    destruct (Nat.ltb 1 n && l); auto 10. }
  cbn [ret out err]. split; [done |]. split; [done |].
  unfold missing_file_msg.
  split; [by intros -> |]. split; [by intros -> |].
  assert (n = length good + S (length later)) as Hn.
  { unfold n, segs. rewrite length_app. done. }
  split.
  - intros -> _ Hlater Hg. change (tok_is ">" "<") with false.
    change (tok_is ">" ">") with true. cbn iota.
    unfold l. rewrite bool_decide_eq_true_2 by done.
    destruct (Nat.ltb_spec 1 n) as [_ | Hlt]; [done |].
    destruct good; [done |]. simpl in Hn. lia.
  - intros -> Hcase. change (tok_is ">" "<") with false.
    change (tok_is ">" ">") with true. cbn iota.
    destruct Hcase as [Hlater | ->].
    + unfold l. rewrite bool_decide_eq_false_2 by done.
      by rewrite andb_false_r.
    + unfold l. case_bool_decide as Hlater; [| by rewrite andb_false_r].
      subst later. simpl in Hn. subst n. by rewrite Hn.
Qed.

Lemma missing_filename_message_witness :
  let r := parse_line (Some "ls -l | sort < in >") ERRBUF_SZ in
  ret r = 1%Z /\ out r = pipeline_init /\
  ((">" : string) = "<" -> err r = MSG_IN) /\
  ((">" : string) = "2>" -> err r = MSG_ERR) /\
  ((">" : string) = ">" -> @nil string = [] -> @nil (list string) = [] ->
   [["ls"; "-l"]] <> [] -> err r = MSG_OUT_AFTER) /\
  ((">" : string) = ">" ->
   @nil (list string) <> [] \/ [["ls"; "-l"]] = [] -> err r = MSG_OUT).
Proof.
  apply (missing_filename_message (Some "ls -l | sort < in >") ERRBUF_SZ
           [["ls"; "-l"]] [] ["sort"; "<"; "in"] [] ">").
  - reflexivity.
  - simpl. unfold ERRBUF_SZ. lia.
  - repeat constructor.
  - unfold first_is_pipe. simpl. discriminate.
  - unfold last_is_pipe. simpl. discriminate.
  - reflexivity.
  - repeat constructor. exists ["ls"; "-l"]. split; [| discriminate].
    repeat (constructor; try reflexivity).
  - exists ["sort"]. repeat (constructor; try reflexivity).
  - reflexivity.
  - exact I.
Defined.

(** C3 as stated fails: in [cat < |] the operator [<] is followed by the
    operator [|], and in [cat > <] the operator [<] is followed by nothing,
    yet neither line fails with "Input file not specified.": the
    pipe-placement checks run first, and inside a segment the first
    operator without a filename decides the message. *)
Lemma missing_filename_message_counterexample :
  tokenize (Some "cat < |") = ["cat"; "<"; "|"] /\
  is_op "|" = true /\
  err (parse_line (Some "cat < |") ERRBUF_SZ) = MSG_PIPE_MISSING /\
  tokenize (Some "cat > <") = ["cat"; ">"; "<"] /\
  err (parse_line (Some "cat > <") ERRBUF_SZ) = MSG_OUT /\
  MSG_PIPE_MISSING <> MSG_IN /\ MSG_OUT <> MSG_IN.
Proof. repeat split; discriminate. Qed.

(** The scan of part A of [parse_line] for two adjacent [|] finds them
    exactly when there are two. *)
Lemma adjacent_pipes_spec (tokens : list string) :
  adjacent_pipes tokens = true <-> pipes_adjacent tokens.
Proof.
  unfold pipes_adjacent. induction tokens as [|t rest IH].
  { split; [done | by intros (i & H & _)]. }
  destruct rest as [|u rest].
  { split; [done |]. intros ([|i] & H1 & H2); done. }
  change (adjacent_pipes (t :: u :: rest))
    with ((tok_is t "|" && tok_is u "|") || adjacent_pipes (u :: rest)).
  rewrite orb_true_iff, andb_true_iff, !tok_is_eq, IH. split.
  - intros [[-> ->] | (i & H1 & H2)]; [by exists 0 | by exists (S i)].
  - intros ([|i] & H1 & H2).
    + left. cbn in H1, H2. by split; congruence.
    + right. by exists i.
Qed.

Lemma adjacent_pipes_false (tokens : list string) :
  adjacent_pipes tokens = false <-> ~ pipes_adjacent tokens.
Proof.
  rewrite <- adjacent_pipes_spec. by destruct (adjacent_pipes tokens).
Qed.

(** The two pipe messages in terms of the checks of [parse_line]. *)
Lemma placement_messages_loop (line : option string) (err_sz : nat) :
  String.length MSG_OUT_AFTER < err_sz ->
  let tokens := tokenize line in
  let r := parse_line line err_sz in
  (err r = MSG_PIPE_MISSING <->
     first_is_pipe tokens \/ last_is_pipe tokens \/
     (tokens <> [] /\ adjacent_pipes tokens = false /\
      exists good seg later,
        split_pipes tokens = good ++ seg :: later /\
        Forall accepted good /\ seg_words seg [])) /\
  (err r = MSG_PIPE_EMPTY <->
     adjacent_pipes tokens = true /\
     ~ first_is_pipe tokens /\ ~ last_is_pipe tokens).
Proof.
  intros Hsz tokens r. unfold r, parse_line. fold tokens.
  assert (snprintf err_sz MSG_PIPE_MISSING = MSG_PIPE_MISSING) as HfitM
    by (apply known_msg_fits; auto 10).
  assert (snprintf err_sz MSG_PIPE_EMPTY = MSG_PIPE_EMPTY) as HfitE
    by (apply known_msg_fits; auto 10).
  destruct (decide (first_is_pipe tokens)) as [Hf | Hf].
  { rewrite parse_tokens_first by done. cbn [err]. rewrite HfitM.
    split; [split; tauto |]. split; [done | tauto]. }
  destruct (decide (last_is_pipe tokens)) as [Hl | Hl].
  { rewrite parse_tokens_last by done. cbn [err]. rewrite HfitM.
    split; [split; tauto |]. split; [done | tauto]. }
  destruct (adjacent_pipes tokens) eqn:Ha.
  { rewrite parse_tokens_adjacent by done. cbn [err]. rewrite HfitE.
    split; [| tauto]. split; [done |].
    intros [? | [? | (_ & ? & _)]]; done. }
  destruct (decide (tokens = [])) as [E | Hne].
  { rewrite E. cbn. split; [| split; [done | by intros (? & _)]].
    split; [done |]. intros [? | [? | (? & _)]]; [| | done].
    - by rewrite E in Hf.
    - by rewrite E in Hl. }
  rewrite parse_tokens_segments by done.
  pose proof (split_pipes_no_pipe tokens) as Hnp.
  set (n := length (split_pipes tokens)) in *.
  destruct (segments_result n (split_pipes tokens)) as [msg | cs] eqn:Hr.
  - cbn [parse_outcome err].
    pose proof Hr as Hr'.
    apply segments_result_inl in Hr'
      as (good & seg & later & Hsplit & Hgood & Hseg).
    rewrite Hsplit in Hnp.
    apply Forall_app in Hnp as [Hnpg Hnps].
    apply Forall_cons in Hnps as [Hnps _].
    pose proof (do_segment_msgs _ _ _ _ _ Hseg) as Hmsg.
    rewrite (known_msg_fits err_sz msg) by tauto.
    split; [| split; [| intros (? & _); congruence]].
    + split.
      * intros ->. right. right. do 2 (split; [done |]).
        exists good, seg, later. split; [done |]. split.
        -- clear Hsplit. induction Hgood as [|s good [c Hc] Hg IH];
             [constructor |].
           apply Forall_cons in Hnpg as [Hs Hnpg].
           constructor; [| auto].
           destruct (do_segment_inr _ _ _ _ Hs Hc) as (ws & ? & ? & _).
           by exists ws.
        -- by apply (do_segment_missing n (bool_decide (later = []))).
      * intros [? | [? | (_ & _ & good' & seg' & later' & Hsplit' & Hg' & Hs')]];
          [done | done |].
        assert (segments_result n (split_pipes tokens) =
                inl MSG_PIPE_MISSING) as Hr2.
        { apply segments_result_inl. exists good', seg', later'.
          split; [done |]. split.
          - eapply Forall_impl; [exact Hg' |]. intros s Hs.
            destruct (do_segment_accepted n false s Hs) as (c & Hc & _).
            by exists c.
          - apply do_segment_missing; [| done].
            by eapply seg_words_no_pipe. }
        congruence.
    + intros ->.
      destruct Hmsg as [H | [H | [H | [H | H]]]]; discriminate.
  - cbn [parse_outcome err].
    split; [| split; [done | intros (? & _); congruence]].
    split; [done |].
    intros [? | [? | (_ & _ & good' & seg' & later' & Hsplit' & Hg' & Hs')]];
      [done | done |].
    assert (segments_result n (split_pipes tokens) =
            inl MSG_PIPE_MISSING) as Hr2.
    { apply segments_result_inl. exists good', seg', later'.
      split; [done |]. split.
      - eapply Forall_impl; [exact Hg' |]. intros s Hs.
        destruct (do_segment_accepted n false s Hs) as (c & Hc & _).
        by exists c.
      - apply do_segment_missing; [| done]. by eapply seg_words_no_pipe. }
    congruence.
Qed.

(** C6, as the code has it.  With [tokens] the tokens of the line:
    [parse_line] fails with "Command missing after pipe." exactly when the
    first token is [|], or the last token is [|], or there is a token, no
    two [|] are adjacent, and the segments, taken in order, are accepted
    up to one that is made of complete redirections only, whose argument
    list is empty.  It fails with "Empty command between pipes." exactly
    when two adjacent [|] occur and neither the first nor the last token
    is [|].  The three placement checks are decided on the whole token
    sequence, whatever the segments hold. *)
Theorem pipe_placement_messages (line : option string) (err_sz : nat) :
  String.length MSG_OUT_AFTER < err_sz ->
  let tokens := tokenize line in
  let r := parse_line line err_sz in
  (err r = MSG_PIPE_MISSING <->
     first_is_pipe tokens \/ last_is_pipe tokens \/
     (tokens <> [] /\ ~ pipes_adjacent tokens /\
      exists good seg later,
        split_pipes tokens = good ++ seg :: later /\
        Forall accepted good /\ seg_words seg [])) /\
  (err r = MSG_PIPE_EMPTY <->
     pipes_adjacent tokens /\
     ~ first_is_pipe tokens /\ ~ last_is_pipe tokens).
Proof.
  intros Hsz tokens r.
  destruct (placement_messages_loop line err_sz Hsz) as [H1 H2].
  fold tokens r in H1, H2.
  rewrite adjacent_pipes_false in H1. rewrite adjacent_pipes_spec in H2.
  by split.
Qed.

Lemma pipe_placement_messages_witness :
  let tokens := tokenize (Some "ls | > out") in
  let r := parse_line (Some "ls | > out") ERRBUF_SZ in
  (err r = MSG_PIPE_MISSING <->
     first_is_pipe tokens \/ last_is_pipe tokens \/
     (tokens <> [] /\ ~ pipes_adjacent tokens /\
      exists good seg later,
        split_pipes tokens = good ++ seg :: later /\
        Forall accepted good /\ seg_words seg [])) /\
  (err r = MSG_PIPE_EMPTY <->
     pipes_adjacent tokens /\
     ~ first_is_pipe tokens /\ ~ last_is_pipe tokens).
Proof.
  apply (pipe_placement_messages (Some "ls | > out") ERRBUF_SZ).
  simpl. unfold ERRBUF_SZ. lia.
Defined.

(** C6 as stated fails: in [cat > | < in] the second segment consists of
    a redirection only, so that its argument list is empty, yet the line
    does not fail with "Command missing after pipe.": the segments are
    examined in order, and the first one has a [>] without a filename. *)
Lemma pipe_placement_messages_counterexample :
  tokenize (Some "cat > | < in") = ["cat"; ">"; "|"; "<"; "in"] /\
  split_pipes ["cat"; ">"; "|"; "<"; "in"] = [["cat"; ">"]; ["<"; "in"]] /\
  seg_words ["<"; "in"] [] /\
  build_argv ["<"; "in"] = [None] /\
  err (parse_line (Some "cat > | < in") ERRBUF_SZ) = MSG_OUT /\
  MSG_OUT <> MSG_PIPE_MISSING.
Proof.
  repeat split; try discriminate.
  by apply seg_words_redir; [| | constructor].
Qed.


(** ** Descriptor tables *)

Lemma fd_get_nil (fd : nat) : fd_get [] fd = None.
Proof. by destruct fd. Qed.

Lemma fd_get_cons_0 (x : option file) (t : fdtable) : fd_get (x :: t) 0 = x.
Proof. unfold fd_get. simpl. by destruct x. Qed.

Lemma fd_get_cons_S (x : option file) (t : fdtable) (fd : nat) :
  fd_get (x :: t) (S fd) = fd_get t fd.
Proof. reflexivity. Qed.

Lemma fd_get_set (fd fd' : nat) (v : option file) (t : fdtable) :
  fd_get (fd_set fd v t) fd' = if decide (fd = fd') then v else fd_get t fd'.
Proof.
  revert fd' t. induction fd as [|fd IH]; intros fd' t.
  - destruct t as [|x t], fd' as [|fd']; simpl;
      rewrite ?fd_get_cons_0, ?fd_get_cons_S, ?fd_get_nil; done.
  - destruct t as [|x t], fd' as [|fd']; cbn [fd_set];
      rewrite ?fd_get_cons_0, ?fd_get_cons_S, ?fd_get_nil, ?IH;
      try done; rewrite ?fd_get_nil; repeat case_decide; try done; lia.
Qed.

Lemma lowest_free_free (t : fdtable) : fd_get t (lowest_free t) = None.
Proof.
  induction t as [|x t IH]; [done |]. destruct x as [f|]; [| done].
  simpl. by rewrite fd_get_cons_S.
Qed.

Lemma std_open_lowest_free (t : fdtable) : std_open t -> 3 <= lowest_free t.
Proof.
  intros H. destruct (Nat.le_gt_cases 3 (lowest_free t)) as [|Hlt]; [done |].
  destruct (H _ Hlt) as [f Hf]. by rewrite lowest_free_free in Hf.
Qed.

Lemma fd_get_open (f : file) (t : fdtable) (fd' : nat) :
  fd_get (sys_open f t).2 fd' =
    if decide ((sys_open f t).1 = fd') then Some f else fd_get t fd'.
Proof. unfold sys_open. cbn [fst snd]. apply fd_get_set. Qed.

Lemma fd_get_close (fd fd' : nat) (t : fdtable) :
  fd_get (sys_close fd t) fd' =
    if decide (fd = fd') then None else fd_get t fd'.
Proof.
  unfold sys_close. destruct (fd_get t fd) eqn:E.
  - apply fd_get_set.
  - case_decide; [by subst |]. done.
Qed.

Lemma fd_get_dup2 (oldfd newfd fd' : nat) (t t' : fdtable) :
  sys_dup2 oldfd newfd t = Some t' ->
  fd_get t' fd' = if decide (newfd = fd') then fd_get t oldfd
                  else fd_get t fd'.
Proof.
  unfold sys_dup2. destruct (fd_get t oldfd) as [f|] eqn:E; [| done].
  intros [= <-]. destruct (Nat.eqb_spec oldfd newfd) as [-> | Hne].
  - case_decide; [by subst |]. done.
  - rewrite fd_get_set. by case_decide.
Qed.


Lemma same_std_open (t t' : fdtable) :
  same_std t t' -> std_open t -> std_open t'.
Proof. intros Hs Ho fd Hfd. rewrite Hs by done. auto. Qed.

Lemma same_std_refl (t : fdtable) : same_std t t.
Proof. by intros fd _. Qed.

Lemma same_std_trans (t1 t2 t3 : fdtable) :
  same_std t1 t2 -> same_std t2 t3 -> same_std t1 t3.
Proof. intros H12 H23 fd Hfd. rewrite H23, H12; done. Qed.

Lemma sys_open_spec (f : file) (t : fdtable) :
  std_open t ->
  3 <= (sys_open f t).1 /\
  fd_get (sys_open f t).2 (sys_open f t).1 = Some f /\
  (forall fd', fd' <> (sys_open f t).1 ->
     fd_get (sys_open f t).2 fd' = fd_get t fd').
Proof.
  intros Ho. split; [by apply std_open_lowest_free |]. split.
  - rewrite fd_get_open. by case_decide.
  - intros fd' Hne. rewrite fd_get_open. by case_decide.
Qed.

Lemma sys_close_high (fd : nat) (t : fdtable) :
  3 <= fd -> same_std t (sys_close fd t).
Proof. intros H fd' Hfd'. rewrite fd_get_close. case_decide; [lia | done]. Qed.

(** ** Pipes *)

Lemma sys_pipe_spec (i : nat) (t : fdtable) :
  std_open t ->
  let r := (sys_pipe i t).1.1 in
  let w := (sys_pipe i t).1.2 in
  let t' := (sys_pipe i t).2 in
  3 <= r /\ 3 <= w /\
  fd_get t' r = Some (PipeRead i) /\ fd_get t' w = Some (PipeWrite i) /\
  (forall fd, is_Some (fd_get t fd) -> fd_get t' fd = fd_get t fd).
Proof.
  intros Ho. unfold sys_pipe, sys_open. cbn.
  set (r := lowest_free t). set (t1 := fd_set r (Some (PipeRead i)) t).
  set (w := lowest_free t1).
  assert (fd_get t r = None) as Hr by apply lowest_free_free.
  assert (fd_get t1 w = None) as Hw by apply lowest_free_free.
  assert (fd_get t1 r = Some (PipeRead i)) as Hr1.
  { unfold t1. rewrite fd_get_set. by case_decide. }
  assert (w <> r) as Hwr by (intros E; congruence).
  assert (std_open t1) as Ho1.
  { intros fd Hfd. unfold t1. rewrite fd_get_set. case_decide; [done | auto]. }
  split; [by apply std_open_lowest_free |].
  split; [by apply std_open_lowest_free |].
  split; [rewrite fd_get_set; by case_decide |].
  split; [rewrite fd_get_set; by case_decide |].
  intros fd [f Hf]. rewrite fd_get_set.
  assert (fd_get t1 fd = fd_get t fd) as H1.
  { unfold t1. rewrite fd_get_set. case_decide; [congruence | done]. }
  case_decide; [congruence | done].
Qed.

Lemma close_all_pipes_cons (r w : nat) (rest : list (nat * nat))
    (t : fdtable) :
  close_all_pipes ((r, w) :: rest) t =
    ((close_all_pipes rest (sys_close w (sys_close r t))).1,
     EvClose r :: EvClose w ::
       (close_all_pipes rest (sys_close w (sys_close r t))).2).
Proof. simpl. by destruct (close_all_pipes rest _). Qed.


Lemma close_all_pipes_trace (pipe_fds : list (nat * nat)) (t : fdtable)
    (sel : event -> bool) :
  (forall fd, sel (EvClose fd) = false) ->
  none_of sel (close_all_pipes pipe_fds t).2.
Proof.
  intros His. revert t. induction pipe_fds as [|[r w] rest IH]; intros t.
  { constructor. }
  rewrite close_all_pipes_cons. cbn [snd].
  constructor; [done |]. constructor; [done |]. apply IH.
Qed.


Lemma create_pipes_from_S (o : os) (k i : nat)
    (pipe_fds : list (nat * nat)) (t : fdtable) :
  create_pipes_from o (S k) i pipe_fds t =
    if pipe_ok o i then
      let next :=
        create_pipes_from o k (S i) (pipe_fds ++ [(sys_pipe i t).1])
          (sys_pipe i t).2 in
      (next.1.1, next.1.2,
       EvPipe i (sys_pipe i t).1.1 (sys_pipe i t).1.2 :: next.2)
    else
      (None, (close_all_pipes pipe_fds t).1,
       EvPerror "pipe" :: (close_all_pipes pipe_fds t).2).
Proof.
  cbn [create_pipes_from]. destruct (pipe_ok o i).
  - destruct (sys_pipe i t) as [[r w] t1]. cbn [fst snd].
    by destruct (create_pipes_from o k (S i) _ t1) as [[res t2] tr].
  - by destruct (close_all_pipes pipe_fds t).
Qed.

(** A run of [create_pipes] that returns 0 made every pipe asked for and
    left the standard descriptors alone. *)
Lemma create_pipes_from_ok (o : os) (k : nat) :
  forall i pipe_fds t fds',
    (create_pipes_from o k i pipe_fds t).1.1 = Some fds' ->
    length pipe_fds = i -> std_open t -> pipes_bound pipe_fds t ->
    let t' := (create_pipes_from o k i pipe_fds t).1.2 in
    length fds' = i + k /\ same_std t t' /\ pipes_bound fds' t'.
Proof.
  induction k as [|k IH]; intros i pipe_fds t fds' Hres Hlen Ho Hb.
  { simpl in *. injection Hres as <-.
    split; [lia |]. split; [apply same_std_refl | done]. }
  rewrite create_pipes_from_S in Hres |- *.
  destruct (pipe_ok o i); [| done]. cbn [fst snd] in *.
  destruct (sys_pipe_spec i t Ho) as (Hr & Hw & Hgr & Hgw & Hkeep).
  destruct (sys_pipe i t) as [[r w] t1] eqn:Ep. cbn [fst snd] in *.
  assert (same_std t t1) as Hs1.
  { intros fd Hfd. apply Hkeep. auto. }
  destruct (IH (S i) (pipe_fds ++ [(r, w)]) t1 fds' Hres) as (Hl & Hs & Hb').
  - rewrite length_app. simpl. lia.
  - by eapply same_std_open.
  - intros j r' w' Hj. apply lookup_app_Some in Hj as [Hj | [Hge Hj]].
    + destruct (Hb j r' w' Hj) as (? & ? & Hgr' & Hgw').
      do 2 (split; [done |]).
      rewrite !Hkeep by (rewrite ?Hgr', ?Hgw'; eauto). done.
    + destruct (j - length pipe_fds) as [|?] eqn:Ej; [| done].
      injection Hj as <- <-.
      assert (j = i) as -> by lia. done.
  - split; [lia |]. split; [| done]. by eapply same_std_trans.
Qed.

(** [create_pipes] returns 0 exactly when no [pipe] call fails; the pipes
    it made are as many as the calls that succeeded. *)
Lemma create_pipes_from_result (o : os) (k : nat) :
  forall i pipe_fds t,
    is_Some (create_pipes_from o k i pipe_fds t).1.1 <->
    forallb (pipe_ok o) (seq i k) = true.
Proof.
  induction k as [|k IH]; intros i pipe_fds t.
  { simpl. split; [done | eauto]. }
  rewrite create_pipes_from_S. cbn [seq forallb].
  destruct (pipe_ok o i); cbn [fst snd andb].
  - apply IH.
  - split; [by intros [? ?] | done].
Qed.

Lemma filter_length_none (sel : event -> bool) (tr : list event) :
  none_of sel tr -> length (filter (fun e => sel e = true) tr) = 0.
Proof.
  induction 1 as [|e tr He Htr IH]; [done |].
  rewrite filter_cons. case_decide; [congruence | done].
Qed.

Lemma create_pipes_from_count (o : os) (k : nat) :
  forall i pipe_fds t,
    let n := length (filter (fun e => is_pipe_event e = true)
                       (create_pipes_from o k i pipe_fds t).2) in
    n <= k /\ (forallb (pipe_ok o) (seq i k) = true -> n = k).
Proof.
  induction k as [|k IH]; intros i pipe_fds t.
  { simpl. split; [lia | done]. }
  rewrite create_pipes_from_S. cbn [seq forallb].
  destruct (pipe_ok o i); cbn [fst snd andb].
  - rewrite filter_cons. cbn [is_pipe_event].
    rewrite decide_True by done. cbn [length].
    destruct (IH (S i) (pipe_fds ++ [(sys_pipe i t).1]) (sys_pipe i t).2)
      as [Hle Heq].
    split; [lia |]. intros H. by rewrite Heq.
  - rewrite filter_cons. cbn [is_pipe_event].
    rewrite decide_False by done.
    rewrite filter_length_none by by apply close_all_pipes_trace.
    split; [lia | done].
Qed.

(** ** The child *)

Lemma try_dup2_Some (ok : bool) (oldfd newfd : nat) (t t' : fdtable) :
  try_dup2 ok (Some oldfd) newfd t = Some t' ->
  forall fd, fd_get t' fd =
    if decide (newfd = fd) then fd_get t oldfd else fd_get t fd.
Proof.
  unfold try_dup2. destruct ok; [| done]. intros H fd.
  by apply fd_get_dup2.
Qed.

Lemma try_dup2_ok (oldfd newfd : nat) (t : fdtable) :
  is_Some (fd_get t oldfd) -> is_Some (try_dup2 true (Some oldfd) newfd t).
Proof. intros [f Hf]. unfold try_dup2, sys_dup2. rewrite Hf. eauto. Qed.

Lemma none_of_app (sel : event -> bool) (tr1 tr2 : list event) :
  none_of sel tr1 -> none_of sel tr2 -> none_of sel (tr1 ++ tr2).
Proof. intros. by apply Forall_app. Qed.

Lemma none_of_nil (sel : event -> bool) : none_of sel [].
Proof. constructor. Qed.

Lemma none_of_perror (sel : event -> bool) (tag : string) :
  sel (EvPerror tag) = false -> none_of sel [EvPerror tag].
Proof. by repeat constructor. Qed.


Lemma redirect_one_inr (open_ok dup_ok : bool) (f : file) (target : nat)
    (ev : event) (tag : string) (t t' : fdtable) (tr : list event) :
  std_open t -> target < 3 ->
  redirect_one open_ok dup_ok f target ev tag t = inr (t', tr) ->
  fd_get t' target = Some f /\
  (forall fd, fd < 3 -> fd <> target -> fd_get t' fd = fd_get t fd) /\
  none_of is_fprintf_event tr /\ none_of is_execvp_event tr.
Proof.
  intros Ho Htarget. unfold redirect_one. destruct open_ok; [| done].
  destruct (sys_open_spec f t Ho) as (Hfd & Hget & Hkeep).
  destruct (sys_open f t) as [fd t1]. cbn [fst snd] in *.
  destruct (try_dup2 dup_ok (Some fd) target t1) as [t2|] eqn:Hd; [| done].
  intros [= <- <-].
  pose proof (try_dup2_Some _ _ _ _ _ Hd) as Hg.
  pose proof (sys_close_high fd t2 Hfd) as Hs.
  split; [rewrite Hs, Hg, decide_True by done; done |].
  split; [| split; by repeat constructor].
  intros fd' Hfd' Hne. rewrite Hs, Hg, decide_False by done.
  apply Hkeep. lia.
Qed.

Lemma redirect_one_inl (open_ok dup_ok : bool) (f : file) (target : nat)
    (ev : event) (tag : string) (t t' : fdtable) (tr : list event) :
  is_execvp_event ev = false ->
  redirect_one open_ok dup_ok f target ev tag t = inl (t', tr) ->
  none_of is_execvp_event tr.
Proof.
  intros Hev. unfold redirect_one. destruct open_ok.
  - destruct (sys_open f t) as [fd t1].
    destruct (try_dup2 dup_ok (Some fd) target t1); [done |].
    intros [= <- <-]. by repeat constructor.
  - intros [= <- <-]. by repeat constructor.
Qed.

Lemma stdin_lt : STDIN_FILENO < 3.
Proof. unfold STDIN_FILENO. lia. Qed.
Lemma stdout_lt : STDOUT_FILENO < 3.
Proof. unfold STDOUT_FILENO. lia. Qed.

Lemma redirect_field_inr (name : option string) (open_ok dup_ok : bool)
    (mk : string -> file) (target : nat) (ev : string -> event)
    (tag : string) (t t' : fdtable) (tr : list event) :
  std_open t -> target < 3 ->
  redirect_field name open_ok dup_ok mk target ev tag t = inr (t', tr) ->
  fd_get t' target = from_option (fun f => Some (mk f)) (fd_get t target) name
  /\
  (forall fd, fd < 3 -> fd <> target -> fd_get t' fd = fd_get t fd) /\
  none_of is_fprintf_event tr /\ none_of is_execvp_event tr.
Proof.
  intros Ho Htarget. destruct name as [name|]; cbn [redirect_field].
  - apply redirect_one_inr; done.
  - intros [= <- <-]. repeat split; by try apply none_of_nil.
Qed.

Lemma redirect_field_inl (name : option string) (open_ok dup_ok : bool)
    (mk : string -> file) (target : nat) (ev : string -> event)
    (tag : string) (t t' : fdtable) (tr : list event) :
  (forall s, is_execvp_event (ev s) = false) ->
  redirect_field name open_ok dup_ok mk target ev tag t = inl (t', tr) ->
  none_of is_execvp_event tr.
Proof.
  intros Hev. destruct name as [name|]; cbn [redirect_field]; [| done].
  by apply redirect_one_inl.
Qed.

Lemma redirect_field_std (name : option string) (open_ok dup_ok : bool)
    (mk : string -> file) (target : nat) (ev : string -> event)
    (tag : string) (t t' : fdtable) (tr : list event) :
  std_open t -> target < 3 ->
  redirect_field name open_ok dup_ok mk target ev tag t = inr (t', tr) ->
  std_open t'.
Proof.
  intros Ho Ht H.
  destruct (redirect_field_inr _ _ _ _ _ _ _ _ _ _ Ho Ht H) as (Hg & Hk & _).
  intros fd Hfd. destruct (decide (fd = target)) as [-> | Hne].
  - rewrite Hg. destruct name; simpl; [eauto | by apply Ho].
  - rewrite Hk by done. by apply Ho.
Qed.

Lemma apply_redirections_fields (co : child_os) (cmd : Command)
    (t : fdtable) :
  apply_redirections co cmd t =
    match
      redirect_field (in_file cmd) (open_in_ok co) (dup2_in_ok co) FileRead
        STDIN_FILENO (fun _ => EvFprintf "File not found.
") "dup2: stdin redirection" t
    with
    | inl e => inl e
    | inr (t1, tr1) =>
        match
          redirect_field (out_file cmd) (open_out_ok co) (dup2_out_ok co)
            FileWrite STDOUT_FILENO EvPerror "dup2: stdout redirection" t1
        with
        | inl (t2, tr2) => inl (t2, tr1 ++ tr2)
        | inr (t2, tr2) =>
            match
              redirect_field (err_file cmd) (open_err_ok co) (dup2_err_ok co)
                FileWrite STDERR_FILENO EvPerror "dup2: stderr redirection" t2
            with
            | inl (t3, tr3) => inl (t3, tr1 ++ tr2 ++ tr3)
            | inr (t3, tr3) => inr (t3, tr1 ++ tr2 ++ tr3)
            end
        end
    end.
Proof.
  unfold apply_redirections, redirect_field.
  by destruct (in_file cmd), (out_file cmd), (err_file cmd).
Qed.


Lemma apply_redirections_inl (co : child_os) (cmd : Command)
    (t t' : fdtable) (tr : list event) :
  std_open t -> apply_redirections co cmd t = inl (t', tr) ->
  none_of is_execvp_event tr.
Proof.
  intros Ho. rewrite apply_redirections_fields.
  destruct (redirect_field (in_file cmd) _ _ _ _ _ _ t)
    as [e | [t1 tr1]] eqn:H1.
  { intros [= ->]. by eapply redirect_field_inl in H1. }
  pose proof (redirect_field_std _ _ _ _ _ _ _ _ _ _ Ho stdin_lt H1) as Ho1.
  apply redirect_field_inr in H1 as (_ & _ & _ & E1);
    [| done | apply stdin_lt].
  destruct (redirect_field (out_file cmd) _ _ _ _ _ _ t1)
    as [[t2 tr2] | [t2 tr2]] eqn:H2.
  { intros [= <- <-]. apply none_of_app; [done |].
    by eapply redirect_field_inl in H2. }
  pose proof (redirect_field_std _ _ _ _ _ _ _ _ _ _ Ho1 stdout_lt H2) as Ho2.
  apply redirect_field_inr in H2 as (_ & _ & _ & E2);
    [| done | apply stdout_lt].
  destruct (redirect_field (err_file cmd) _ _ _ _ _ _ t2)
    as [[t3 tr3] | [t3 tr3]] eqn:H3; [| done].
  intros [= <- <-]. repeat apply none_of_app; try done.
  by eapply redirect_field_inl in H3.
Qed.



(** The calls of the child before [execvp] print no fixed diagnostic,
    whatever the descriptors are. *)
Lemma connect_pipes_for_child_trace (co : child_os) (i : nat) (n : Z)
    (pipe_fds : list (nat * nat)) (t : fdtable) :
  none_of is_fprintf_event (connect_pipes_for_child co i n pipe_fds t).2 /\
  none_of is_execvp_event (connect_pipes_for_child co i n pipe_fds t).2.
Proof.
  unfold connect_pipes_for_child.
  set (s1 := if Nat.ltb 0 i then _ else _).
  assert (none_of is_fprintf_event s1.2 /\ none_of is_execvp_event s1.2)
    as [F1 E1].
  { unfold s1. destruct (Nat.ltb 0 i); [| split; apply none_of_nil].
    destruct (try_dup2 _ _ _ t); split;
      by try apply none_of_nil; try apply none_of_perror. }
  destruct s1 as [t1 tr1]. cbn [fst snd] in *.
  set (s2 := if Z.ltb (Z.of_nat i) (n - 1) then _ else _).
  assert (none_of is_fprintf_event s2.2 /\ none_of is_execvp_event s2.2)
    as [F2 E2].
  { unfold s2. destruct (Z.ltb _ _); [| split; apply none_of_nil].
    destruct (try_dup2 _ _ _ t1); split;
      by try apply none_of_nil; try apply none_of_perror. }
  destruct s2 as [t2 tr2]. cbn [fst snd] in *.
  pose proof (close_all_pipes_trace pipe_fds t2 is_fprintf_event
                ltac:(done)) as Hcf.
  pose proof (close_all_pipes_trace pipe_fds t2 is_execvp_event
                ltac:(done)) as Hce.
  destruct (close_all_pipes pipe_fds t2) as [t3 tr3]. cbn [fst snd] in *.
  split; repeat apply none_of_app; done.
Qed.

Lemma redirect_field_trace (name : option string) (open_ok dup_ok : bool)
    (mk : string -> file) (target : nat) (ev : string -> event)
    (tag : string) (t : fdtable) :
  (forall s, is_execvp_event (ev s) = false) ->
  match redirect_field name open_ok dup_ok mk target ev tag t with
  | inl (_, tr) => none_of is_execvp_event tr
  | inr (_, tr) => none_of is_execvp_event tr /\ none_of is_fprintf_event tr
  end.
Proof.
  intros Hev. destruct name as [name|]; cbn [redirect_field].
  2:{ split; apply none_of_nil. }
  unfold redirect_one. destruct open_ok; [| by repeat constructor].
  destruct (sys_open (mk name) t) as [fd t1].
  destruct (try_dup2 dup_ok (Some fd) target t1); [split |];
    by repeat constructor.
Qed.

Lemma apply_redirections_trace (co : child_os) (cmd : Command)
    (t : fdtable) :
  match apply_redirections co cmd t with
  | inl (_, tr) => none_of is_execvp_event tr
  | inr (_, tr) => none_of is_execvp_event tr /\ none_of is_fprintf_event tr
  end.
Proof.
  rewrite apply_redirections_fields.
  pose proof (redirect_field_trace (in_file cmd) (open_in_ok co)
    (dup2_in_ok co) FileRead STDIN_FILENO (fun _ => EvFprintf "File not found.
") "dup2: stdin redirection" t ltac:(done)) as H1.
  destruct (redirect_field (in_file cmd) _ _ _ _ _ _ t)
    as [[t1 tr1] | [t1 tr1]]; [done |]. destruct H1 as [E1 F1].
  pose proof (redirect_field_trace (out_file cmd) (open_out_ok co)
    (dup2_out_ok co) FileWrite STDOUT_FILENO EvPerror
    "dup2: stdout redirection" t1 ltac:(done)) as H2.
  destruct (redirect_field (out_file cmd) _ _ _ _ _ _ t1)
    as [[t2 tr2] | [t2 tr2]]; [by apply none_of_app |].
  destruct H2 as [E2 F2].
  pose proof (redirect_field_trace (err_file cmd) (open_err_ok co)
    (dup2_err_ok co) FileWrite STDERR_FILENO EvPerror
    "dup2: stderr redirection" t2 ltac:(done)) as H3.
  destruct (redirect_field (err_file cmd) _ _ _ _ _ _ t2)
    as [[t3 tr3] | [t3 tr3]]; [by repeat apply none_of_app |].
  destruct H3 as [E3 F3]. split; by repeat apply none_of_app.
Qed.

(** A child whose [execvp] returned prints the one diagnostic and exits
    with 127.  The call returned when it was made and the child neither
    became the program nor died in the call. *)
Lemma child_run_exec_fails (co : child_os) (p : Pipeline) (i : nat)
    (pipe_fds : list (nat * nat)) (t : fdtable) :
  let cr := child_run co p i pipe_fds t in
  (exists e, e ∈ c_trace cr /\ is_execvp_event e = true) ->
  (forall tx path args, c_end cr <> Runs tx path args) ->
  c_end cr <> Faults ->
  c_end cr = Exits 127 /\
  exists pre path args,
    c_trace cr =
      pre ++ [EvExecvp (Some path) args;
              EvFprintf (not_found_msg (n_cmds p))] /\
    none_of is_fprintf_event pre /\ none_of is_execvp_event pre.
Proof.
  unfold child_run.
  set (w := if Z.ltb 0 (n_cmds p - 1) then _ else _).
  assert (none_of is_fprintf_event w.2 /\ none_of is_execvp_event w.2)
    as (Wf & We).
  { unfold w. destruct (Z.ltb 0 (n_cmds p - 1)).
    - apply connect_pipes_for_child_trace.
    - split; apply none_of_nil. }
  destruct w as [t1 tr1]. cbn [fst snd] in *.
  assert (forall tr, none_of is_execvp_event tr ->
            ~ exists e, e ∈ tr /\ is_execvp_event e = true) as Hno.
  { intros tr Htr (e & He & Hee).
    eapply Forall_forall in Htr; [| exact He]. congruence. }
  destruct (cmds p) as [cs|]; [| by intros H%Hno].
  destruct (cs !! i) as [c|]; [| by intros H%Hno].
  pose proof (apply_redirections_trace co c t1) as Hr.
  destruct (apply_redirections co c t1) as [[t2 tr2] | [t2 tr2]].
  { intros H%Hno; [done | by apply none_of_app]. }
  destruct Hr as [Re Rf].
  destruct (argv c) as [a|]; [| intros H%Hno; [done | by apply none_of_app]].
  fold (not_found_msg (n_cmds p)).
  destruct (default None (a !! 0)) as [f|]; [| by intros _ _ H].
  destruct (execvp_ok co).
  { intros _ Hruns. by exfalso; eapply Hruns. }
  intros _ _ _. split; [done |]. exists (tr1 ++ tr2), f, a.
  cbn [c_trace]. rewrite <- app_assoc.
  split; [done |]. split; by apply none_of_app.
Qed.

(** ** The parent *)

Lemma fork_from_inr (o : os) (p : Pipeline) (pipe_fds : list (nat * nat))
    (t : fdtable) (k : nat) :
  forall i kids,
    forallb (fork_ok o) (seq i k) = true ->
    fork_from o p pipe_fds t k i kids =
      inr (kids ++
           ((fun j => child_run (child o j) p j pipe_fds t) <$> seq i k)).
Proof.
  induction k as [|k IH]; intros i kids H.
  { simpl. by rewrite app_nil_r. }
  cbn [seq forallb] in H. apply andb_true_iff in H as [Hi H].
  cbn [fork_from]. rewrite Hi, IH by done.
  cbn [seq fmap list_fmap]. by rewrite <- app_assoc.
Qed.

Lemma fork_from_inl (o : os) (p : Pipeline) (pipe_fds : list (nat * nat))
    (t : fdtable) (k : nat) :
  forall i kids,
    forallb (fork_ok o) (seq i k) = false ->
    exists m, m < k /\
      fork_from o p pipe_fds t k i kids =
        inl (i + m,
             kids ++
             ((fun j => child_run (child o j) p j pipe_fds t) <$> seq i m)).
Proof.
  induction k as [|k IH]; intros i kids H; [done |].
  cbn [seq forallb] in H. cbn [fork_from].
  destruct (fork_ok o i).
  - destruct (IH (S i) (kids ++ [child_run (child o i) p i pipe_fds t]) H)
      as (m & Hm & ->).
    exists (S m). split; [lia |]. f_equal. f_equal; [lia |].
    cbn [seq fmap list_fmap]. by rewrite <- app_assoc.
  - exists 0. split; [lia |]. simpl. by rewrite Nat.add_0_r, app_nil_r.
Qed.

Lemma kids_lookup (o : os) (p : Pipeline) (pipe_fds : list (nat * nat))
    (t : fdtable) (m i : nat) (cr : child_result) :
  ((fun j => child_run (child o j) p j pipe_fds t) <$> seq 0 m) !! i
    = Some cr ->
  i < m /\ cr = child_run (child o i) p i pipe_fds t.
Proof.
  rewrite list_lookup_fmap. intros H.
  destruct (seq 0 m !! i) as [j|] eqn:Hj; [| done].
  apply lookup_seq in Hj as [-> Hlt]. simpl in H. split; [done |].
  congruence.
Qed.

(** Every child that [execute_pipeline] forks runs [child_run] on the
    table of the shell with the pipes added. *)
Lemma execute_pipeline_children (o : os) (t : fdtable) (p : Pipeline)
    (i : nat) (cr : child_result) :
  std_open t ->
  x_children (execute_pipeline o t (Some p)) !! i = Some cr ->
  exists pipe_fds t1,
    std_open t1 /\ same_std t t1 /\ pipes_bound pipe_fds t1 /\
    length pipe_fds = Z.to_nat (n_cmds p - 1) /\
    (Z.of_nat i < n_cmds p)%Z /\
    cr = child_run (child o i) p i pipe_fds t1.
Proof.
  intros Ho. unfold execute_pipeline.
  destruct (Z.eqb_spec (n_cmds p) 0) as [_ | Hn0]; [done |].
  set (n := n_cmds p) in *.
  assert (forall (fds : list (nat * nat)) t1 (r : (nat * list child_result) +
                                                    list child_result),
            r = fork_from o p fds t1 (Z.to_nat n) 0 [] ->
            std_open t1 -> same_std t t1 -> pipes_bound fds t1 ->
            length fds = Z.to_nat (n - 1) ->
            match r with inl (_, kids) | inr kids =>
              kids !! i = Some cr ->
              exists pipe_fds t1,
                std_open t1 /\ same_std t t1 /\ pipes_bound pipe_fds t1 /\
                length pipe_fds = Z.to_nat (n - 1) /\
                (Z.of_nat i < n)%Z /\
                cr = child_run (child o i) p i pipe_fds t1
            end) as Hkids.
  { intros fds t1 r -> Ho1 Hs1 Hb1 Hl1.
    destruct (forallb (fork_ok o) (seq 0 (Z.to_nat n))) eqn:Hf.
    - rewrite fork_from_inr by done. rewrite app_nil_l.
      intros [Hlt ->]%kids_lookup. exists fds, t1.
      do 4 (split; [done |]). split; [lia | done].
    - destruct (fork_from_inl o p fds t1 _ 0 [] Hf) as (m & Hm & ->).
      rewrite app_nil_l.
      intros [Hlt ->]%kids_lookup. exists fds, t1.
      do 4 (split; [done |]). split; [lia | done]. }
  destruct (Z.ltb_spec 0 (n - 1)) as [Hpipes | Hpipes].
  - destruct (malloc_pipe_fds_ok o); [| done].
    unfold create_pipes.
    pose proof (create_pipes_from_ok o (Z.to_nat (n - 1)) 0 [] t) as Hcp.
    destruct (create_pipes_from o (Z.to_nat (n - 1)) 0 [] t)
      as [[[fds|] t1] tr1]; [| done].
    cbn [fst snd] in Hcp.
    destruct (Hcp fds eq_refl eq_refl Ho) as (Hl & Hs & Hb).
    { by intros j r w Hj. }
    cbn [default from_option id].
    destruct (malloc_pids_ok o); cbn [negb].
    2:{ by destruct (close_all_pipes fds t1). }
    pose proof (Hkids fds t1 _ eq_refl (same_std_open _ _ Hs Ho) Hs Hb Hl)
      as Hk.
    destruct (fork_from o p fds t1 (Z.to_nat n) 0 []) as [[j kids] | kids].
    + by destruct (close_all_pipes fds t1).
    + destruct (close_all_pipes fds t1).
      by destruct (wait_from o n 0 kids 0%Z).
  - cbn [default from_option id].
    destruct (malloc_pids_ok o); cbn [negb]; [| done].
    assert (pipes_bound [] t) as Hb by by intros j r w Hj.
    assert (length (@nil (nat * nat)) = Z.to_nat (n - 1)) as Hl
      by (simpl; lia).
    pose proof (Hkids [] t _ eq_refl Ho (same_std_refl t) Hb Hl) as Hk.
    destruct (fork_from o p [] t (Z.to_nat n) 0 []) as [[j kids] | kids].
    + done.
    + by destruct (wait_from o n 0 kids 0%Z).
Qed.

Lemma filter_none (sel : event -> bool) (tr : list event) :
  none_of sel tr -> filter (fun e => sel e = true) tr = [].
Proof.
  induction 1 as [|e tr He Htr IH]; [done |].
  rewrite filter_cons. case_decide; [congruence | done].
Qed.

Lemma filter_all (sel : event -> bool) (tr : list event) :
  Forall (fun e => sel e = true) tr -> filter (fun e => sel e = true) tr = tr.
Proof.
  induction 1 as [|e tr He Htr IH]; [done |].
  rewrite filter_cons. case_decide; [by rewrite IH | done].
Qed.

Lemma none_of_fmap (sel : event -> bool) (f : nat -> event) (l : list nat) :
  (forall j, sel (f j) = false) -> none_of sel (f <$> l).
Proof. intros H. apply Forall_fmap, Forall_forall. intros j _. apply H. Qed.

Lemma create_pipes_from_trace (o : os) (sel : event -> bool) (k : nat) :
  (forall i r w, sel (EvPipe i r w) = false) ->
  (forall tag, sel (EvPerror tag) = false) ->
  (forall fd, sel (EvClose fd) = false) ->
  forall i pipe_fds t, none_of sel (create_pipes_from o k i pipe_fds t).2.
Proof.
  intros Hp He Hc. induction k as [|k IH]; intros i pipe_fds t.
  { apply none_of_nil. }
  rewrite create_pipes_from_S. destruct (pipe_ok o i); cbn [snd].
  - constructor; [done | apply IH].
  - constructor; [done |]. by apply close_all_pipes_trace.
Qed.

Lemma exists_not_forall (f : nat -> bool) (l : list nat) :
  existsb (fun i => negb (f i)) l = negb (forallb f l).
Proof.
  induction l as [|x l IH]; [done |]. simpl. rewrite IH.
  by destruct (f x).
Qed.

Lemma wait_events_cons (o : os) (i : nat) (cr : child_result)
    (kids : list child_result) :
  wait_events o i (cr :: kids) =
    EvWait i (Some (wait_status (child o i) cr)) :: wait_events o (S i) kids.
Proof. reflexivity. Qed.

Lemma wait_from_cons (o : os) (n : Z) (i : nat) (cr : child_result)
    (rest : list child_result) (last_exit : Z) :
  wait_from o n i (cr :: rest) last_exit =
    let st := wait_status (child o i) cr in
    let next :=
      wait_from o n (S i) rest
        (if Z.eqb (Z.of_nat i) (n - 1) then exit_status_of st
         else last_exit) in
    (next.1, EvWait i (Some st) :: next.2).
Proof.
  cbn [wait_from]. unfold exit_status_of.
  by destruct (wait_from o n (S i) rest _).
Qed.

Lemma wait_from_trace (o : os) (n : Z) (kids : list child_result) :
  forall i last_exit,
    (wait_from o n i kids last_exit).2 = wait_events o i kids.
Proof.
  induction kids as [|cr rest IH]; intros i last_exit; [done |].
  rewrite wait_from_cons, wait_events_cons. cbn [snd]. by rewrite IH.
Qed.

Lemma wait_from_past (o : os) (n : Z) (kids : list child_result) :
  forall i last_exit,
    (n - 1 < Z.of_nat i)%Z -> (wait_from o n i kids last_exit).1 = last_exit.
Proof.
  induction kids as [|cr rest IH]; intros i last_exit Hi; [done |].
  rewrite wait_from_cons. cbn [fst].
  destruct (Z.eqb_spec (Z.of_nat i) (n - 1)); [lia |].
  apply IH. lia.
Qed.

(** The value of [last_exit] after the wait loop is the status of child
    [n - 1]. *)
Lemma wait_from_last (o : os) (n : Z) (kids : list child_result) :
  forall i last_exit cr,
    (Z.of_nat i <= n - 1)%Z ->
    kids !! (Z.to_nat (n - 1) - i) = Some cr ->
    (wait_from o n i kids last_exit).1 =
      exit_status_of (wait_status (child o (Z.to_nat (n - 1))) cr).
Proof.
  induction kids as [|c rest IH]; intros i last_exit cr Hi Hcr; [done |].
  rewrite wait_from_cons. cbn [fst].
  destruct (Z.eqb_spec (Z.of_nat i) (n - 1)) as [E | Hne].
  - replace (Z.to_nat (n - 1) - i) with 0 in Hcr by lia.
    injection Hcr as ->.
    rewrite wait_from_past by lia.
    by replace (Z.to_nat (n - 1)) with i by lia.
  - apply IH; [lia |].
    replace (Z.to_nat (n - 1) - i) with (S (Z.to_nat (n - 1) - S i))
      in Hcr by lia.
    done.
Qed.

Lemma wait_events_waits (o : os) (kids : list child_result) (i : nat) :
  Forall (fun e => is_wait_event e = true) (wait_events o i kids).
Proof.
  revert i. induction kids as [|cr rest IH]; intros i; [constructor |].
  rewrite wait_events_cons. by constructor.
Qed.

Lemma exit_status_range (st : wstatus) :
  (0 <= exit_status_of st <= 255)%Z.
Proof.
  unfold exit_status_of. destruct st as [code | sig]; simpl; [| lia].
  change (Z.land code 255) with (Z.land code (Z.ones 8)).
  rewrite Z.land_ones by lia. change (2 ^ 8)%Z with 256%Z.
  pose proof (Z.mod_pos_bound code 256 ltac:(lia)). lia.
Qed.

Lemma execute_pipeline_kids (o : os) (t : fdtable) (p : Pipeline)
    (i : nat) (cr : child_result) :
  x_children (execute_pipeline o t (Some p)) !! i = Some cr ->
  exists pipe_fds t1, cr = child_run (child o i) p i pipe_fds t1.
Proof.
  unfold execute_pipeline.
  destruct (Z.eqb (n_cmds p) 0); [done |].
  set (n := n_cmds p) in *.
  assert (forall (fds : list (nat * nat)) t1,
            match fork_from o p fds t1 (Z.to_nat n) 0 [] with
            | inl (_, kids) | inr kids =>
              kids !! i = Some cr ->
              exists pipe_fds t1, cr = child_run (child o i) p i pipe_fds t1
            end) as Hkids.
  { intros fds t1.
    destruct (forallb (fork_ok o) (seq 0 (Z.to_nat n))) eqn:Hf.
    - rewrite fork_from_inr by done. rewrite app_nil_l.
      intros [Hlt ->]%kids_lookup. by exists fds, t1.
    - destruct (fork_from_inl o p fds t1 _ 0 [] Hf) as (m & Hm & ->).
      rewrite app_nil_l.
      intros [Hlt ->]%kids_lookup. by exists fds, t1. }
  destruct (Z.ltb 0 (n - 1)).
  - destruct (malloc_pipe_fds_ok o); [| done].
    destruct (create_pipes o (Z.to_nat (n - 1)) t)
      as [[[fds|] t1] tr1]; [| done].
    cbn [default from_option id].
    destruct (malloc_pids_ok o); cbn [negb].
    2:{ by destruct (close_all_pipes fds t1). }
    pose proof (Hkids fds t1) as Hk.
    destruct (fork_from o p fds t1 (Z.to_nat n) 0 []) as [[j kids] | kids].
    + by destruct (close_all_pipes fds t1).
    + destruct (close_all_pipes fds t1).
      by destruct (wait_from o n 0 kids 0%Z).
  - cbn [default from_option id].
    destruct (malloc_pids_ok o); cbn [negb]; [| done].
    pose proof (Hkids [] t) as Hk.
    destruct (fork_from o p [] t (Z.to_nat n) 0 []) as [[j kids] | kids].
    + done.
    + by destruct (wait_from o n 0 kids 0%Z).
Qed.

(** ** Properties of [execute_pipeline] *)



(** C1.  The redirection blocks of [apply_redirections] miss the case in
    which [open] returns the very descriptor that is to be replaced.  In a
    shell started with standard output closed, the child of [ls > out]
    gets descriptor 1 from [open]; [dup2(1, 1)] changes nothing, and the
    [close(fd)] that follows, which is not guarded by a test
    [fd != STDOUT_FILENO], closes the file.  The child reaches [execvp]
    with [out_file] set and standard output closed, where [redir.c] and
    [exec.c] document that the descriptor is replaced by the file.  With
    the three standard descriptors open the same line does put the file
    on standard output. *)
Theorem redirection_closes_its_target :
  let t := [Some (Inherited 0); None; Some (Inherited 2)] in
  let p := out (parse_line (Some "ls > out") ERRBUF_SZ) in
  let c := mkCommand (Some [Some "ls"; None]) None (Some "out") None in
  cmds p = Some [c] /\ out_file c = Some "out" /\
  (exists tx,
     x_children (execute_pipeline os_ok t (Some p)) =
       [mkChild (Runs tx "ls" [Some "ls"; None])
          [EvClose 1; EvExecvp (Some "ls") [Some "ls"; None]]] /\
     fd_get tx STDOUT_FILENO = None /\
     fd_get tx STDOUT_FILENO <> Some (FileWrite "out")) /\
  (exists tx,
     x_children (execute_pipeline os_ok shell_fds (Some p)) =
       [mkChild (Runs tx "ls" [Some "ls"; None])
          [EvClose 3; EvExecvp (Some "ls") [Some "ls"; None]]] /\
     fd_get tx STDOUT_FILENO = Some (FileWrite "out")).
Proof.
  intros t p c. split; [reflexivity |]. split; [reflexivity |]. split.
  - exists [Some (Inherited 0); None; Some (Inherited 2)].
    split; [vm_compute; reflexivity |]. split; [reflexivity | discriminate].
  - exists [Some (Inherited 0); Some (FileWrite "out"); Some (Inherited 2);
            None].
    split; [vm_compute; reflexivity | reflexivity].
Qed.

(** C5.  Take any child that [execute_pipeline] forked and whose [execvp]
    call returned: the call is in its trace, and the child neither became
    the program nor died in the call (which is what happens to a command
    without a name, [argv[0] == NULL]).  It printed one fixed diagnostic,
    right after the call and as its last act before [exit(127)]:
    "Command not found." when [n_cmds == 1], "Command not found in pipe
    sequence." when [n_cmds > 1]; nothing else it did printed a fixed
    diagnostic; and the status the parent gets for it is exit status
    127. *)
Theorem exec_failure_diagnostic (o : os) (t : fdtable) (p : Pipeline)
    (i : nat) (cr : child_result) :
  x_children (execute_pipeline o t (Some p)) !! i = Some cr ->
  (exists e, e ∈ c_trace cr /\ is_execvp_event e = true) ->
  (forall tx path args, c_end cr <> Runs tx path args) ->
  c_end cr <> Faults ->
  let msg := not_found_msg (n_cmds p) in
  c_end cr = Exits 127 /\
  exit_status_of (wait_status (child o i) cr) = 127%Z /\
  (exists pre path args,
     c_trace cr = pre ++ [EvExecvp (Some path) args; EvFprintf msg] /\
     none_of is_fprintf_event pre /\ none_of is_execvp_event pre) /\
  filter (fun e => is_fprintf_event e = true) (c_trace cr) = [EvFprintf msg]
  /\
  (n_cmds p = 1%Z -> msg = MSG_NOT_FOUND) /\
  ((1 < n_cmds p)%Z -> msg = MSG_NOT_FOUND_PIPE).
Proof.
  intros Hkid Hexec Hnot Hlive msg.
  destruct (execute_pipeline_kids o t p i cr Hkid) as (fds & t1 & ->).
  destruct (child_run_exec_fails _ _ _ _ _ Hexec Hnot Hlive)
    as (Hend & pre & path & args & Htr & Hpf & Hpe).
  split; [done |]. split.
  { unfold wait_status. by rewrite Hend. }
  split; [by exists pre, path, args |]. split.
  { rewrite Htr, filter_app, (filter_none _ _ Hpf). done. }
  unfold msg, not_found_msg. split.
  - by intros ->.
  - intros H. by destruct (Z.eqb_spec (n_cmds p) 1); [lia |].
Qed.

Lemma exec_failure_diagnostic_witness :
  let p := out (parse_line (Some "nosuchcmd -x") ERRBUF_SZ) in
  let cr :=
    mkChild (Exits 127)
      [EvExecvp (Some "nosuchcmd") [Some "nosuchcmd"; Some "-x"; None];
       EvFprintf MSG_NOT_FOUND] in
  let msg := not_found_msg (n_cmds p) in
  c_end cr = Exits 127 /\
  exit_status_of (wait_status (child os_not_found 0) cr) = 127%Z /\
  (exists pre path args,
     c_trace cr = pre ++ [EvExecvp (Some path) args; EvFprintf msg] /\
     none_of is_fprintf_event pre /\ none_of is_execvp_event pre) /\
  filter (fun e => is_fprintf_event e = true) (c_trace cr) = [EvFprintf msg]
  /\
  (n_cmds p = 1%Z -> msg = MSG_NOT_FOUND) /\
  ((1 < n_cmds p)%Z -> msg = MSG_NOT_FOUND_PIPE).
Proof.
  apply (exec_failure_diagnostic os_not_found shell_fds
           (out (parse_line (Some "nosuchcmd -x") ERRBUF_SZ)) 0).
  - reflexivity.
  - eexists. split; [apply list_elem_of_here | reflexivity].
  - discriminate.
  - discriminate.
Defined.

(** A command without a name is outside C5: [execvp(NULL, argv)] does not
    return, the child dies in the call with nothing printed, and
    [execute_pipeline] returns 1 for a child that did not exit. *)
Example nameless_command_faults :
  let p := mkPipeline (Some [mkCommand (Some [None]) None None None]) 1 in
  let x := execute_pipeline os_not_found shell_fds (Some p) in
  x_children x = [mkChild Faults [EvExecvp None [None]]] /\
  wait_status (child os_not_found 0) (mkChild Faults [EvExecvp None [None]])
    = WSignaled 11 /\
  x_ret x = 1%Z.
Proof. vm_compute. done. Qed.

(** [execute_pipeline] when no call of the parent fails. *)
Lemma execute_pipeline_success (o : os) (t : fdtable) (p : Pipeline) :
  n_cmds p <> 0%Z -> parent_call_fails o (n_cmds p) = false ->
  exists pipe_fds t1 tr1 t2 tr2,
    let kids :=
      (fun j => child_run (child o j) p j pipe_fds t1)
        <$> seq 0 (Z.to_nat (n_cmds p)) in
    execute_pipeline o t (Some p) =
      mkExec (wait_from o (n_cmds p) 0 kids 0%Z).1
        (tr1 ++ (EvFork <$> seq 0 (Z.to_nat (n_cmds p))) ++ tr2 ++
         wait_events o 0 kids)
        t2 kids /\
    none_of is_wait_event tr1 /\ none_of is_wait_event tr2 /\
    none_of is_pipe_event tr2 /\
    length (filter (fun e => is_pipe_event e = true) tr1) =
      Z.to_nat (n_cmds p - 1).
Proof.
  intros Hn0 Hok. unfold parent_call_fails in Hok.
  rewrite !exists_not_forall in Hok.
  apply orb_false_iff in Hok as [Hok Hfork].
  apply orb_false_iff in Hok as [Hpipes Hpids].
  apply negb_false_iff in Hfork, Hpids.
  unfold execute_pipeline.
  destruct (Z.eqb_spec (n_cmds p) 0) as [| _]; [done |].
  set (n := n_cmds p) in *. rewrite Hpids. cbn [negb].
  destruct (Z.ltb 0 (n - 1)) eqn:Hlt.
  - cbn [andb] in Hpipes. apply orb_false_iff in Hpipes as [Hm Hp].
    apply negb_false_iff in Hm, Hp. rewrite Hm. unfold create_pipes.
    pose proof (proj2 (create_pipes_from_result o (Z.to_nat (n - 1)) 0 [] t)
                  Hp) as [fds Hfds].
    pose proof (create_pipes_from_count o (Z.to_nat (n - 1)) 0 [] t)
      as [_ Hcount].
    pose proof (create_pipes_from_trace o is_wait_event (Z.to_nat (n - 1))
                  ltac:(done) ltac:(done) ltac:(done) 0 [] t) as Htr.
    destruct (create_pipes_from o (Z.to_nat (n - 1)) 0 [] t)
      as [[res t1] tr1]. cbn [fst snd] in *. subst res.
    cbn [default from_option id].
    rewrite fork_from_inr by done. rewrite app_nil_l.
    pose proof (close_all_pipes_trace fds t1 is_wait_event ltac:(done))
      as Hcw.
    pose proof (close_all_pipes_trace fds t1 is_pipe_event ltac:(done))
      as Hcp.
    destruct (close_all_pipes fds t1) as [t2 tr2]. cbn [snd] in *.
    exists fds, t1, tr1, t2, tr2. cbn zeta.
    set (kids := _ <$> seq 0 (Z.to_nat n)).
    pose proof (wait_from_trace o n kids 0 0%Z) as Hw.
    destruct (wait_from o n 0 kids 0%Z) as [last tr3]. cbn [fst snd] in *.
    subst tr3. split; [done |]. repeat split; try done. by apply Hcount.
  - cbn [default from_option id].
    rewrite fork_from_inr by done. rewrite app_nil_l.
    exists [], t, [], t, []. cbn zeta.
    set (kids := _ <$> seq 0 (Z.to_nat n)).
    pose proof (wait_from_trace o n kids 0 0%Z) as Hw.
    destruct (wait_from o n 0 kids 0%Z) as [last tr3]. cbn [fst snd] in *.
    subst tr3. split; [done |].
    repeat split; try apply none_of_nil.
    apply Z.ltb_ge in Hlt. simpl. lia.
Qed.

(** C2.  [execute_pipeline] returns 0 at once, without any call, for a
    NULL pipeline and for [n_cmds == 0].  Otherwise it returns -1 when a
    call of the parent fails (an allocation, a [pipe], a [fork]).  When none
    fails (and [n_cmds > 0]) it forks every child, waits for each of them
    in order, and returns the exit status of the last one, child
    [n_cmds - 1], with 1 standing for a child ended by a signal; that value
    is not negative. *)
Theorem execute_pipeline_status (o : os) (t : fdtable) :
  execute_pipeline o t None = mkExec 0 [] t [] /\
  (forall p, n_cmds p = 0%Z ->
     execute_pipeline o t (Some p) = mkExec 0 [] t []) /\
  (forall p, n_cmds p <> 0%Z -> parent_call_fails o (n_cmds p) = true ->
     x_ret (execute_pipeline o t (Some p)) = (-1)%Z) /\
  (forall p, (0 < n_cmds p)%Z -> parent_call_fails o (n_cmds p) = false ->
     let r := execute_pipeline o t (Some p) in
     let last := Z.to_nat (n_cmds p - 1) in
     length (x_children r) = Z.to_nat (n_cmds p) /\
     filter (fun e => is_wait_event e = true) (x_trace r) =
       wait_events o 0 (x_children r) /\
     exists cr,
       x_children r !! last = Some cr /\
       x_ret r = exit_status_of (wait_status (child o last) cr) /\
       (forall code, wait_status (child o last) cr = WExited code ->
          x_ret r = Z.land code 255) /\
       (forall sig, wait_status (child o last) cr = WSignaled sig ->
          x_ret r = 1%Z) /\
       (0 <= x_ret r <= 255)%Z).
Proof.
  split; [done |]. split.
  { intros p Hp. unfold execute_pipeline. by rewrite Hp. }
  split.
  - intros p Hn0 Hfail. unfold parent_call_fails in Hfail.
    rewrite !exists_not_forall in Hfail.
    unfold execute_pipeline.
    destruct (Z.eqb_spec (n_cmds p) 0) as [| _]; [done |].
    set (n := n_cmds p) in *.
    assert (forall fds t1 tr1 (cl : fdtable * list event),
              negb (malloc_pids_ok o) ||
              negb (forallb (fork_ok o) (seq 0 (Z.to_nat n))) = true ->
              x_ret
                (if negb (malloc_pids_ok o)
                 then
                   let (t2, tr2) := cl in
                   mkExec (-1) (tr1 ++ EvPerror "malloc (pids)" :: tr2) t2 []
                 else
                   match fork_from o p fds t1 (Z.to_nat n) 0 [] with
                   | inl (i, kids) =>
                       let (t2, tr2) := cl in
                       mkExec (-1)
                         (tr1 ++ (EvFork <$> seq 0 i) ++
                          EvPerror "fork" :: tr2 ++ reap_all i)
                         t2 kids
                   | inr kids =>
                       let (t2, tr2) := cl in
                       let (last_exit, tr3) := wait_from o n 0 kids 0%Z in
                       mkExec last_exit
                         (tr1 ++ (EvFork <$> seq 0 (Z.to_nat n)) ++ tr2 ++
                          tr3)
                         t2 kids
                   end) = (-1)%Z) as Hlate.
    { intros fds t1 tr1 [t2 tr2] H.
      destruct (malloc_pids_ok o); cbn [negb orb] in *; [| done].
      apply negb_true_iff in H.
      by destruct (fork_from_inl o p fds t1 _ 0 [] H) as (m & Hm & ->). }
    destruct (Z.ltb 0 (n - 1)); cbn [andb orb] in Hfail.
    + destruct (malloc_pipe_fds_ok o); [| done]. cbn [negb orb] in Hfail.
      unfold create_pipes.
      pose proof (create_pipes_from_result o (Z.to_nat (n - 1)) 0 [] t)
        as Hres.
      destruct (create_pipes_from o (Z.to_nat (n - 1)) 0 [] t)
        as [[[fds|] t1] tr1]; [| done].
      cbn [fst] in Hres. rewrite (proj1 Hres) in Hfail by eauto.
      cbn [negb orb] in Hfail.
      exact (Hlate fds t1 tr1 (close_all_pipes fds t1) Hfail).
    + exact (Hlate [] t [] (t, []) Hfail).
  - intros p Hpos Hok r last.
    destruct (execute_pipeline_success o t p ltac:(lia) Hok)
      as (fds & t1 & tr1 & t2 & tr2 & Hr & Hw1 & Hw2 & _).
    cbn zeta in Hr. unfold r. rewrite Hr. cbn [x_children x_trace x_ret].
    set (kids := _ <$> seq 0 (Z.to_nat (n_cmds p))).
    split; [unfold kids; by rewrite length_fmap, length_seq |].
    split.
    { rewrite !filter_app, (filter_none _ _ Hw1), (filter_none _ _ Hw2).
      rewrite (filter_none _ (EvFork <$> _)) by by apply none_of_fmap.
      rewrite filter_all by apply wait_events_waits. done. }
    assert (kids !! last =
            Some (child_run (child o last) p last fds t1)) as Hlast.
    { unfold kids. rewrite list_lookup_fmap, lookup_seq_lt by lia. done. }
    eexists. split; [exact Hlast |].
    assert ((wait_from o (n_cmds p) 0 kids 0%Z).1 =
            exit_status_of
              (wait_status (child o last)
                 (child_run (child o last) p last fds t1))) as ->.
    { apply wait_from_last; [lia |]. by rewrite Nat.sub_0_r. }
    split; [done |]. split; [by intros code -> |].
    split; [by intros sig -> |]. apply exit_status_range.
Qed.

Lemma execute_pipeline_status_witness :
  let p := out (parse_line (Some "ls | wc") ERRBUF_SZ) in
  let o := mkOs true (fun _ => true) true (fun i => Nat.eqb i 0)
             (fun _ => child_os_ok) in
  x_ret (execute_pipeline o shell_fds (Some p)) = (-1)%Z /\
  length (x_children (execute_pipeline os_ok shell_fds (Some p))) = 2 /\
  x_ret (execute_pipeline os_ok shell_fds (Some p)) = 0%Z.
Proof.
  intros p o.
  destruct (execute_pipeline_status o shell_fds) as (_ & _ & Hfail & _).
  destruct (execute_pipeline_status os_ok shell_fds) as (_ & _ & _ & Hok).
  split.
  - apply Hfail; [discriminate | reflexivity].
  - destruct (Hok p) as (Hlen & _ & cr & Hcr & Hret & _).
    + reflexivity.
    + reflexivity.
    + split; [exact Hlen |]. rewrite Hret.
      injection Hcr as <-. reflexivity.
Defined.

(** The pipes made by [execute_pipeline] are those made by its call of
    [create_pipes]. *)
Lemma execute_pipeline_pipes (o : os) (t : fdtable) (p : Pipeline) :
  let n_pipes := Z.to_nat (n_cmds p - 1) in
  let r := execute_pipeline o t (Some p) in
  pipes_created r <= n_pipes /\
  (malloc_pipe_fds_ok o = true ->
   forallb (pipe_ok o) (seq 0 n_pipes) = true ->
   pipes_created r = n_pipes).
Proof.
  intros n_pipes r. unfold r, pipes_created, execute_pipeline.
  destruct (Z.eqb_spec (n_cmds p) 0) as [E | _].
  { cbn [x_trace]. unfold n_pipes. rewrite E. simpl. split; [lia | done]. }
  set (n := n_cmds p) in *.
  assert (forall fds t1 tr1 (cl : fdtable * list event),
            none_of is_pipe_event cl.2 ->
            length (filter (fun e => is_pipe_event e = true)
              (x_trace
                (if negb (malloc_pids_ok o)
                 then
                   let (t2, tr2) := cl in
                   mkExec (-1) (tr1 ++ EvPerror "malloc (pids)" :: tr2) t2 []
                 else
                   match fork_from o p fds t1 (Z.to_nat n) 0 [] with
                   | inl (i, kids) =>
                       let (t2, tr2) := cl in
                       mkExec (-1)
                         (tr1 ++ (EvFork <$> seq 0 i) ++
                          EvPerror "fork" :: tr2 ++ reap_all i)
                         t2 kids
                   | inr kids =>
                       let (t2, tr2) := cl in
                       let (last_exit, tr3) := wait_from o n 0 kids 0%Z in
                       mkExec last_exit
                         (tr1 ++ (EvFork <$> seq 0 (Z.to_nat n)) ++ tr2 ++
                          tr3)
                         t2 kids
                   end))) =
            length (filter (fun e => is_pipe_event e = true) tr1)) as Hlate.
  { intros fds t1 tr1 [t2 tr2] Hcl. cbn [snd] in Hcl.
    assert (forall rest, none_of is_pipe_event rest ->
              length (filter (fun e => is_pipe_event e = true)
                        (tr1 ++ rest)) =
              length (filter (fun e => is_pipe_event e = true) tr1)) as Hrest.
    { intros rest Hr. rewrite filter_app, (filter_none _ _ Hr).
      by rewrite app_nil_r. }
    destruct (malloc_pids_ok o); cbn [negb].
    2:{ cbn [x_trace]. apply Hrest. by constructor. }
    destruct (fork_from o p fds t1 (Z.to_nat n) 0 []) as [[i kids] | kids].
    - cbn [x_trace]. apply Hrest.
      apply none_of_app; [by apply none_of_fmap |].
      constructor; [done |]. apply none_of_app; [done |].
      by apply none_of_fmap.
    - pose proof (wait_from_trace o n kids 0 0%Z) as Hw.
      destruct (wait_from o n 0 kids 0%Z) as [last tr3]. cbn [snd] in Hw.
      cbn [x_trace]. apply Hrest.
      apply none_of_app; [by apply none_of_fmap |].
      apply none_of_app; [done |]. subst tr3.
      apply Forall_fmap, Forall_forall. by intros [j cr] _. }
  destruct (Z.ltb_spec 0 (n - 1)) as [Hlt | Hge].
  - destruct (malloc_pipe_fds_ok o).
    2:{ cbn [x_trace]. simpl. split; [lia | done]. }
    unfold create_pipes. fold n_pipes.
    pose proof (create_pipes_from_count o n_pipes 0 [] t) as [Hle Heq].
    destruct (create_pipes_from o n_pipes 0 [] t) as [[[fds|] t1] tr1];
      cbn [fst snd] in *.
    + cbn [default from_option id].
      rewrite (Hlate fds t1 tr1 (close_all_pipes fds t1))
        by by apply close_all_pipes_trace.
      split; [done | auto].
    + cbn [x_trace]. split; [done | auto].
  - cbn [default from_option id].
    rewrite (Hlate [] t [] (t, [])) by apply none_of_nil.
    simpl. unfold n_pipes. split; [lia |]. intros _ _. lia.
Qed.

(** C4.  When the line parses, with [k] tokens [|], the [Pipeline] has
    [n_cmds == k + 1] and [k + 1] commands.  Executing it never makes more
    than [k] pipes, and makes exactly [k] of them once the pipe array is
    allocated and no [pipe] call fails; without [|] there is one command
    and no pipe is made, whatever the system does. *)
Theorem pipes_per_command (line : option string) (err_sz : nat) (o : os)
    (t : fdtable) (k : nat) :
  ret (parse_line line err_sz) = 0%Z ->
  count_pipes (tokenize line) = k ->
  let p := out (parse_line line err_sz) in
  let r := execute_pipeline o t (Some p) in
  n_cmds p = (Z.of_nat k + 1)%Z /\
  (exists cs, cmds p = Some cs /\ length cs = k + 1) /\
  pipes_created r <= k /\
  (k = 0 -> n_cmds p = 1%Z /\ pipes_created r = 0) /\
  (malloc_pipe_fds_ok o = true ->
   (forall i, i < k -> pipe_ok o i = true) ->
   pipes_created r = k).
Proof.
  intros Hret Hk p r.
  destruct (parse_tokens_ok _ _ Hret) as (_ & _ & _ & _ & cs & Hp & Hall).
  assert (length cs = k + 1) as Hlen.
  { rewrite <- (Forall2_length _ _ _ Hall), split_pipes_length. lia. }
  assert (n_cmds p = (Z.of_nat k + 1)%Z) as Hn.
  { unfold p, parse_line. rewrite Hp. cbn [out n_cmds].
    rewrite split_pipes_length. lia. }
  assert (Z.to_nat (n_cmds p - 1) = k) as Hnp by lia.
  pose proof (execute_pipeline_pipes o t p) as [Hle Heq].
  cbn zeta in Hle, Heq. rewrite Hnp in Hle, Heq. fold r in Hle, Heq.
  split; [done |]. split.
  { exists cs. split; [| done]. unfold p, parse_line. by rewrite Hp. }
  split; [done |]. split.
  { intros ->. split; [by rewrite Hn | lia]. }
  intros Hm Hpipes. apply Heq; [done |].
  apply forallb_forall. intros i Hi%in_seq. apply Hpipes. lia.
Qed.

Lemma pipes_per_command_witness :
  let p := out (parse_line (Some "cat f | sort | uniq") ERRBUF_SZ) in
  let r := execute_pipeline os_ok shell_fds (Some p) in
  n_cmds p = (Z.of_nat 2 + 1)%Z /\
  (exists cs, cmds p = Some cs /\ length cs = 2 + 1) /\
  pipes_created r <= 2 /\
  (2 = 0 -> n_cmds p = 1%Z /\ pipes_created r = 0) /\
  (malloc_pipe_fds_ok os_ok = true ->
   (forall i, i < 2 -> pipe_ok os_ok i = true) ->
   pipes_created r = 2).
Proof.
  apply (pipes_per_command (Some "cat f | sort | uniq") ERRBUF_SZ os_ok
           shell_fds 2).
  - reflexivity.
  - reflexivity.
Defined.

(** ** The heap *)

Section MemFacts.

Variable ok : nat -> bool.

Lemma runs_ret {A} (a : A) (h : Mem.heap) (Q : A -> Mem.heap -> Prop) :
  Q a h -> runs (Mem.ret a) h Q.
Proof. intros H. by exists a, h. Qed.

Lemma runs_bind {A B} (m : Mem.M A) (k : A -> Mem.M B) (h : Mem.heap)
    (Q : B -> Mem.heap -> Prop) :
  runs m h (fun a h' => runs (k a) h' Q) -> runs (m ≫= k) h Q.
Proof.
  intros (a & h' & Hm & b & h'' & Hk & HQ). exists b, h''.
  split; [| done]. unfold mbind, Mem.M_bind, Mem.bind. by rewrite Hm.
Qed.

Lemma runs_conseq {A} (m : Mem.M A) (h : Mem.heap)
    (Q Q' : A -> Mem.heap -> Prop) :
  runs m h Q -> (forall a h', Q a h' -> Q' a h') -> runs m h Q'.
Proof. intros (a & h' & Hm & HQ) H. exists a, h'. auto. Qed.

Lemma holds_perm (base : gset Mem.loc) (ls ls' : list Mem.loc)
    (h : Mem.heap) :
  ls ≡ₚ ls' -> holds base ls h -> holds base ls' h.
Proof.
  intros Hp (Hnd & Hdis & Hlive & Hwf).
  split; [by rewrite <- Hp |]. split.
  { intros l Hl. apply Hdis. by rewrite Hp. }
  split; [| done]. rewrite Hlive. f_equal.
  apply set_eq. intros l. rewrite !elem_of_list_to_set. by rewrite Hp.
Qed.

Lemma runs_alloc (base : gset Mem.loc) (ls : list Mem.loc) (h : Mem.heap) :
  holds base ls h ->
  runs (Mem.alloc ok) h
    (fun p h' =>
       match p with
       | Some l => holds base (l :: ls) h'
       | None => holds base ls h'
       end).
Proof.
  intros (Hnd & Hdis & Hlive & Hwf). unfold runs, Mem.alloc.
  destruct (ok (Mem.calls h)); eexists _, _; (split; [reflexivity |]).
  - assert (Mem.next h ∉ Mem.live h) as Hfresh.
    { intros Hin. apply Hwf in Hin. lia. }
    rewrite Hlive in Hfresh.
    split.
    { constructor; [| done]. intros Hin. apply Hfresh.
      apply elem_of_union_r. by apply elem_of_list_to_set. }
    split.
    { intros l [-> | Hl]%elem_of_cons; [| by apply Hdis].
      intros Hin. apply Hfresh. by apply elem_of_union_l. }
    split.
    { cbn [Mem.live]. rewrite Hlive. cbn [list_to_set foldr].
      set_solver. }
    intros l. cbn [Mem.live Mem.next].
    intros [->%elem_of_singleton | Hl%Hwf]%elem_of_union; lia.
  - done.
Qed.

Lemma runs_free (base : gset Mem.loc) (l : Mem.loc) (ls : list Mem.loc)
    (h : Mem.heap) :
  holds base (l :: ls) h ->
  runs (Mem.free (Some l)) h (fun _ h' => holds base ls h').
Proof.
  intros (Hnd & Hdis & Hlive & Hwf). unfold runs, Mem.free.
  apply NoDup_cons in Hnd as [Hl Hnd].
  rewrite decide_True.
  2:{ rewrite Hlive. cbn [list_to_set foldr]. set_solver. }
  eexists _, _. split; [reflexivity |].
  split; [done |]. split.
  { intros l' Hl'. apply Hdis. by right. }
  split.
  { cbn [Mem.live]. rewrite Hlive. cbn [list_to_set foldr].
    assert (l ∉ base) as Hb by (apply Hdis; by left).
    assert (l ∉ (list_to_set ls : gset Mem.loc)) as Hs
      by by rewrite elem_of_list_to_set.
    set_solver. }
  intros l'. cbn [Mem.live Mem.next]. intros Hin. apply Hwf. set_solver.
Qed.

Lemma runs_free_null (h : Mem.heap) (Q : unit -> Mem.heap -> Prop) :
  Q tt h -> runs (Mem.free None) h Q.
Proof. intros H. by exists tt, h. Qed.

Lemma runs_realloc (base : gset Mem.loc) (p : Mem.ptr) (ls : list Mem.loc)
    (h : Mem.heap) :
  holds base (locs_ptr p ++ ls) h ->
  runs (Mem.realloc ok p) h
    (fun q h' =>
       match q with
       | Some l => holds base (l :: ls) h'
       | None => holds base (locs_ptr p ++ ls) h'
       end).
Proof.
  destruct p as [l|]; cbn [locs_ptr app]; [| apply runs_alloc].
  intros H. pose proof H as (Hnd & Hdis & Hlive & Hwf).
  destruct (runs_free base l ls h H) as ([] & h1 & Hfree & H1).
  destruct (runs_alloc base ls h1 H1) as (q & h2 & Halloc & H2).
  unfold Mem.free in Hfree. unfold Mem.alloc in Halloc.
  unfold runs, Mem.realloc.
  destruct (decide (l ∈ Mem.live h)); [| done].
  injection Hfree as <-. cbn [Mem.calls Mem.live Mem.next] in Halloc.
  destruct (ok (Mem.calls h)).
  - injection Halloc as <- <-. eexists _, _. split; [reflexivity | done].
  - eexists _, _. split; [reflexivity | done].
Qed.

(** *** Releasing *)

Lemma runs_free_ptr (base : gset Mem.loc) (p : Mem.ptr)
    (ls : list Mem.loc) (h : Mem.heap) :
  holds base (locs_ptr p ++ ls) h ->
  runs (Mem.free p) h (fun _ h' => holds base ls h').
Proof.
  destruct p as [l|]; cbn [locs_ptr app].
  - apply runs_free.
  - intros H. by apply runs_free_null.
Qed.

Lemma runs_free_str (base : gset Mem.loc) (s : option Mem.cstr)
    (ls : list Mem.loc) (h : Mem.heap) :
  holds base (locs_file s ++ ls) h ->
  runs (Mem.free_str s) h (fun _ h' => holds base ls h').
Proof.
  destruct s as [s|].
  - apply (runs_free_ptr base (Some (Mem.s_loc s))).
  - apply (runs_free_ptr base None).
Qed.

Lemma runs_free_strs (base : gset Mem.loc) (a : list Mem.cstr)
    (ls : list Mem.loc) (h : Mem.heap) :
  holds base ((Mem.s_loc <$> a) ++ ls) h ->
  runs (Mem.free_strs a) h (fun _ h' => holds base ls h').
Proof.
  revert h. induction a as [|s a IH]; intros h H.
  { by apply runs_ret. }
  rewrite fmap_cons in H. cbn [app] in H.
  cbn [Mem.free_strs]. apply runs_bind.
  eapply runs_conseq; [apply runs_free; eassumption |]. cbn beta.
  intros _ h' H'. by apply IH.
Qed.

Lemma runs_free_argv_strs (base : gset Mem.loc)
    (a : list (option Mem.cstr)) (ls : list Mem.loc) (h : Mem.heap) :
  None ∈ a ->
  holds base ((Mem.s_loc <$> until_null a) ++ ls) h ->
  runs (Mem.free_argv_strs a) h (fun _ h' => holds base ls h').
Proof.
  revert h. induction a as [|[s|] a IH]; intros h Hin H.
  - by apply elem_of_nil in Hin.
  - cbn [until_null] in H. rewrite fmap_cons in H. cbn [app] in H.
    cbn [Mem.free_argv_strs]. apply runs_bind.
    eapply runs_conseq; [apply runs_free; eassumption |]. cbn beta.
    intros _ h' H'. apply IH; [| done].
    by apply elem_of_cons in Hin as [? | ?].
  - by apply runs_ret.
Qed.

Lemma runs_free_command (base : gset Mem.loc) (c : Mem.Command)
    (ls : list Mem.loc) (h : Mem.heap) :
  wf_cmd c -> holds base (locs_cmd c ++ ls) h ->
  runs (Mem.free_command c) h (fun _ h' => holds base ls h').
Proof.
  intros Hwf H. unfold Mem.free_command, locs_cmd, locs_files in *.
  rewrite <- !app_assoc in H.
  apply runs_bind.
  eapply runs_conseq with
    (Q := fun _ h' =>
            holds base (locs_file (Mem.in_file c) ++
                        locs_file (Mem.out_file c) ++
                        locs_file (Mem.err_file c) ++ ls) h').
  { unfold wf_cmd in Hwf. destruct (Mem.argv c) as [[la arr]|].
    - cbn [locs_argv] in H. rewrite <- app_assoc in H.
      apply runs_bind.
      eapply runs_conseq; [apply runs_free_argv_strs; eassumption |]. cbn beta.
      intros _ h' H'. apply runs_free; eassumption.
    - by apply runs_ret. }
  cbn beta. intros _ h1 H1. apply runs_bind.
  eapply runs_conseq; [apply runs_free_str; eassumption |]. cbn beta.
  intros _ h2 H2. apply runs_bind.
  eapply runs_conseq; [apply runs_free_str; eassumption |]. cbn beta.
  intros _ h3 H3. apply runs_free_str; eassumption.
Qed.

Lemma runs_free_commands (base : gset Mem.loc) (cs : list Mem.Command)
    (k : nat) :
  forall i ls h,
    i + k = length cs -> Forall wf_cmd cs ->
    holds base (locs_cmds (drop i cs) ++ ls) h ->
    runs (Mem.free_commands cs k i) h (fun _ h' => holds base ls h').
Proof.
  induction k as [|k IH]; intros i ls h Hlen Hwf H.
  { apply runs_ret. rewrite drop_ge in H by lia. done. }
  cbn [Mem.free_commands].
  destruct (lookup_lt_is_Some_2 cs i) as [c Hc]; [lia |].
  rewrite Hc. rewrite (drop_S _ _ _ Hc) in H.
  unfold locs_cmds in H. cbn [fmap list_fmap concat] in H.
  rewrite <- app_assoc in H.
  apply runs_bind.
  eapply runs_conseq.
  { apply runs_free_command; [| exact H].
    eapply Forall_lookup_1; [exact Hwf | exact Hc]. }
  cbn beta. intros _ h' H'. apply IH; [lia | done | done].
Qed.

(** [free_pipeline] releases every block of a [Pipeline] and leaves the
    empty [Pipeline]. *)
Lemma runs_free_pipeline (base : gset Mem.loc) (p : Mem.Pipeline)
    (ls : list Mem.loc) (h : Mem.heap) :
  wf_pipeline p -> holds base (locs_pipeline p ++ ls) h ->
  runs (Mem.free_pipeline (Some p)) h
    (fun p' h' => p' = Some Mem.pipeline_init /\ holds base ls h').
Proof.
  intros Hwf H. unfold Mem.free_pipeline, locs_pipeline, wf_pipeline in *.
  destruct (Mem.cmds p) as [[lc cs]|]; [| by apply runs_ret].
  destruct Hwf as [Hn Hwf]. rewrite <- app_assoc in H.
  apply runs_bind. eapply runs_conseq.
  { apply runs_free_commands with (ls := [lc] ++ ls);
      [lia | done | by rewrite drop_0]. }
  cbn beta. intros _ h1 H1. apply runs_bind.
  eapply runs_conseq; [apply runs_free; eassumption |]. cbn beta.
  intros _ h2 H2. by apply runs_ret.
Qed.

Lemma runs_free_tokens (base : gset Mem.loc) (tb : Mem.tokbuf)
    (ls : list Mem.loc) (h : Mem.heap) :
  wf_tokbuf tb -> holds base (locs_tokbuf tb ++ ls) h ->
  runs (Mem.free_tokens tb) h (fun _ h' => holds base ls h').
Proof.
  intros [Hnull _] H. unfold Mem.free_tokens, locs_tokbuf in *.
  destruct (Mem.t_ptr tb) as [l|].
  - rewrite <- app_assoc in H. apply runs_bind.
    eapply runs_conseq; [apply runs_free_strs; eassumption |]. cbn beta.
    intros _ h' H'. apply runs_free; eassumption.
  - destruct (Hnull eq_refl) as [Harr _]. rewrite Harr in H.
    by apply runs_ret.
Qed.

(** *** The tokenizer *)

Lemma runs_strdup (base : gset Mem.loc) (v : string) (ls : list Mem.loc)
    (h : Mem.heap) :
  holds base ls h ->
  runs (Mem.strdup ok v) h
    (fun r h' => holds base (locs_file r ++ ls) h' /\
                 forall x, r = Some x -> Mem.s_val x = v).
Proof.
  intros H. unfold Mem.strdup. apply runs_bind.
  eapply runs_conseq; [apply runs_alloc; exact H |]. cbn beta.
  intros [l|] h' H'; apply runs_ret; (split; [done |]).
  - by intros x [= <-].
  - done.
Qed.

Lemma runs_push_token (base : gset Mem.loc) (tb : Mem.tokbuf)
    (tok : string) (ls : list Mem.loc) (h : Mem.heap) :
  wf_tokbuf tb -> holds base (locs_tokbuf tb ++ ls) h ->
  runs (Mem.push_token ok tb tok) h
    (fun r h' => wf_tokbuf r.2 /\ holds base (locs_tokbuf r.2 ++ ls) h').
Proof.
  intros Hwf H. unfold Mem.push_token.
  destruct (Nat.leb (String.length tok) 0); [by apply runs_ret |].
  apply runs_bind.
  eapply runs_conseq with
    (Q := fun grown h' =>
            match grown with
            | None => holds base (locs_tokbuf tb ++ ls) h'
            | Some tb1 =>
                wf_tokbuf tb1 /\ Mem.t_ptr tb1 <> None /\
                Mem.t_arr tb1 = Mem.t_arr tb /\
                length (Mem.t_arr tb1) < Mem.t_cap tb1 /\
                holds base (locs_tokbuf tb1 ++ ls) h'
            end).
  { destruct Hwf as [Hnull Hcap].
    destruct (Nat.leb_spec (Mem.t_cap tb) (length (Mem.t_arr tb)))
      as [Hfull | Hroom].
    - apply runs_bind. eapply runs_conseq.
      { apply (runs_realloc base (Mem.t_ptr tb)
                 ((Mem.s_loc <$> Mem.t_arr tb) ++ ls)).
        eapply holds_perm; [| exact H]. unfold locs_tokbuf.
        solve_Permutation. }
      cbn beta. intros [l|] h' H'; apply runs_ret.
      + cbn [Mem.t_ptr Mem.t_arr Mem.t_cap].
        assert (length (Mem.t_arr tb) <
                (if Nat.eqb (Mem.t_cap tb) 0 then 8 else Mem.t_cap tb * 2))
          as Hlt.
        { destruct (Nat.eqb_spec (Mem.t_cap tb) 0); lia. }
        split; [split; [done | cbn; lia] |].
        split; [done |]. split; [done |]. split; [done |].
        eapply holds_perm; [| exact H']. unfold locs_tokbuf.
        cbn [Mem.t_ptr Mem.t_arr locs_ptr]. solve_Permutation.
      + eapply holds_perm; [| exact H']. unfold locs_tokbuf.
        solve_Permutation.
    - apply runs_ret. split; [done |]. split; [| done].
      intros Hp. destruct (Hnull Hp) as [_ Hc]. lia. }
  cbn beta. intros [tb1|] h1 H1; [| by apply runs_ret].
  destruct H1 as (Hwf1 & Hptr & Harr & Hroom & H1).
  apply runs_bind.
  eapply runs_conseq; [apply runs_strdup; exact H1 |]. cbn beta.
  intros [x|] h2 [H2 _]; apply runs_ret; cbn [snd]; [| done].
  split.
  { split; cbn [Mem.t_ptr Mem.t_arr Mem.t_cap]; [done |].
    rewrite length_app. simpl. lia. }
  eapply holds_perm; [| exact H2]. unfold locs_tokbuf.
  cbn [Mem.t_ptr Mem.t_arr locs_file]. rewrite fmap_app.
  cbn [fmap list_fmap]. solve_Permutation.
Qed.

Lemma runs_tok_loop (base : gset Mem.loc) (ls : list Mem.loc)
    (fuel : nat) :
  forall p tb h,
    wf_tokbuf tb -> holds base (locs_tokbuf tb ++ ls) h ->
    runs (Mem.tok_loop ok fuel p tb) h
      (fun r h' =>
         let tb' := match r with inl tb' | inr tb' => tb' end in
         wf_tokbuf tb' /\ holds base (locs_tokbuf tb' ++ ls) h').
Proof.
  induction fuel as [|fuel IH]; intros p tb h Hwf H.
  { by apply runs_ret. }
  cbn [Mem.tok_loop].
  destruct (is_nul (deref p)); [by apply runs_ret |].
  destruct (skip_ws p) as [|c p']; [by apply runs_ret |].
  destruct (is_nul c); [by apply runs_ret |].
  assert (forall tok next,
            runs (r ← Mem.push_token ok tb tok;
                  if Z.eqb r.1 0 then Mem.tok_loop ok fuel next r.2
                  else Mem.ret (inl r.2)) h
              (fun r h' =>
                 let tb' := match r with inl tb' | inr tb' => tb' end in
                 wf_tokbuf tb' /\ holds base (locs_tokbuf tb' ++ ls) h'))
    as Hpush.
  { intros tok nxt. apply runs_bind.
    eapply runs_conseq; [by apply runs_push_token |]. cbn beta.
    intros [rc tb1] h1 [Hwf1 H1]. cbn [fst snd] in *.
    destruct (Z.eqb rc 0); [by apply IH | by apply runs_ret]. }
  destruct (starts_2gt c p'); [apply Hpush |].
  destruct (is_op_char c); [apply Hpush |].
  destruct (scan_word (String c p')) as [w rest]. apply Hpush.
Qed.

Lemma runs_tokenize (base : gset Mem.loc) (ls : list Mem.loc)
    (line : option string) (err_sz : nat) (h : Mem.heap) :
  holds base ls h ->
  runs (Mem.tokenize ok line err_sz) h
    (fun r h' =>
       wf_tokbuf r.1.2 /\ holds base (locs_tokbuf r.1.2 ++ ls) h' /\
       (r.1.1 = 0%Z \/
        r.1.1 = 1%Z /\ r.1.2 = Mem.mkTokbuf None [] 0)).
Proof.
  intros H. unfold Mem.tokenize.
  assert (wf_tokbuf (Mem.mkTokbuf None [] 0)) as Hwf0.
  { split; [done | cbn; lia]. }
  destruct line as [l|]; [| apply runs_ret; auto].
  apply runs_bind. eapply runs_conseq.
  { apply (runs_tok_loop base ls); [exact Hwf0 | exact H]. }
  cbn beta. intros [tb | tb] h1 [Hwf1 H1].
  - apply runs_bind.
    eapply runs_conseq; [by apply runs_free_tokens |]. cbn beta.
    intros _ h2 H2. apply runs_ret. auto.
  - apply runs_ret. auto.
Qed.

(** *** Segments *)

Lemma runs_replace_file (base : gset Mem.loc) (old : option Mem.cstr)
    (f : Mem.cstr) (ls : list Mem.loc) (h : Mem.heap) :
  holds base (locs_file old ++ ls) h ->
  runs (Mem.replace_file ok old f) h
    (fun s h' => holds base (locs_file s ++ ls) h').
Proof.
  intros H. unfold Mem.replace_file. apply runs_bind.
  eapply runs_conseq; [apply runs_free_str; exact H |]. cbn beta.
  intros _ h1 H1.
  eapply runs_conseq; [apply runs_strdup; exact H1 |]. cbn beta.
  by intros s h2 [H2 _].
Qed.

Lemma runs_scan_redirs (base : gset Mem.loc) (n : nat) (l : bool)
    (ls : list Mem.loc) (seg : list Mem.cstr) :
  forall c h,
    holds base (locs_files c ++ ls) h ->
    runs (Mem.scan_redirs ok n l seg c) h
      (fun r h' =>
         holds base (locs_files (slot_of r) ++ ls) h' /\
         Mem.argv (slot_of r) = Mem.argv c).
Proof.
  induction seg as [seg IH] using (induction_ltof1 _ length).
  unfold ltof in IH. intros c h H.
  destruct seg as [|t rest]; [by apply runs_ret |].
  cbn [Mem.scan_redirs].
  assert (forall rest' (c1 : Mem.Command) h1,
            length rest' < length (t :: rest) ->
            holds base (locs_files c1 ++ ls) h1 ->
            Mem.argv c1 = Mem.argv c ->
            runs (Mem.scan_redirs ok n l rest' c1) h1
              (fun r h' =>
                 holds base (locs_files (slot_of r) ++ ls) h' /\
                 Mem.argv (slot_of r) = Mem.argv c)) as Hnext.
  { intros rest' c1 h1 Hlen H1 Ha.
    eapply runs_conseq; [by apply IH |]. cbn beta.
    intros r h' [? ?]. split; [done | congruence]. }
  destruct (tok_is (Mem.s_val t) "<").
  { destruct rest as [|f rest']; [by apply runs_ret |].
    destruct (is_op (Mem.s_val f)); [by apply runs_ret |].
    apply runs_bind. eapply runs_conseq.
    { apply (runs_replace_file base (Mem.in_file c) f
               (locs_file (Mem.out_file c) ++ locs_file (Mem.err_file c)
                ++ ls)).
      eapply holds_perm; [| exact H]. unfold locs_files.
      solve_Permutation. }
    cbn beta. intros [s|] h1 H1.
    - apply Hnext; [simpl; lia | | done].
      eapply holds_perm; [| exact H1]. unfold locs_files.
      cbn [Mem.in_file Mem.out_file Mem.err_file Mem.set_in_file].
      solve_Permutation.
    - apply runs_ret. split; [| done].
      eapply holds_perm; [| exact H1]. unfold locs_files.
      cbn [slot_of snd Mem.in_file Mem.out_file Mem.err_file
           Mem.set_in_file].
      solve_Permutation. }
  destruct (tok_is (Mem.s_val t) ">").
  { destruct rest as [|f rest']; [by apply runs_ret |].
    destruct (is_op (Mem.s_val f)); [by apply runs_ret |].
    apply runs_bind. eapply runs_conseq.
    { apply (runs_replace_file base (Mem.out_file c) f
               (locs_file (Mem.in_file c) ++ locs_file (Mem.err_file c)
                ++ ls)).
      eapply holds_perm; [| exact H]. unfold locs_files.
      solve_Permutation. }
    cbn beta. intros [s|] h1 H1.
    - apply Hnext; [simpl; lia | | done].
      eapply holds_perm; [| exact H1]. unfold locs_files.
      cbn [Mem.in_file Mem.out_file Mem.err_file Mem.set_out_file].
      solve_Permutation.
    - apply runs_ret. split; [| done].
      eapply holds_perm; [| exact H1]. unfold locs_files.
      cbn [slot_of snd Mem.in_file Mem.out_file Mem.err_file
           Mem.set_out_file].
      solve_Permutation. }
  destruct (tok_is (Mem.s_val t) "2>").
  { destruct rest as [|f rest']; [by apply runs_ret |].
    destruct (is_op (Mem.s_val f)); [by apply runs_ret |].
    apply runs_bind. eapply runs_conseq.
    { apply (runs_replace_file base (Mem.err_file c) f
               (locs_file (Mem.in_file c) ++ locs_file (Mem.out_file c)
                ++ ls)).
      eapply holds_perm; [| exact H]. unfold locs_files.
      solve_Permutation. }
    cbn beta. intros [s|] h1 H1.
    - apply Hnext; [simpl; lia | | done].
      eapply holds_perm; [| exact H1]. unfold locs_files.
      cbn [Mem.in_file Mem.out_file Mem.err_file Mem.set_err_file].
      solve_Permutation.
    - apply runs_ret. split; [| done].
      eapply holds_perm; [| exact H1]. unfold locs_files.
      cbn [slot_of snd Mem.in_file Mem.out_file Mem.err_file
           Mem.set_err_file].
      solve_Permutation. }
  apply Hnext; [simpl; lia | done | done].
Qed.

Lemma omap_id_Some {A} (l : list A) : omap id (Some <$> l) = l.
Proof. induction l as [|x l IH]; [done |]. cbn. by rewrite IH. Qed.

Lemma until_null_words (strs : list Mem.cstr)
    (rest : list (option Mem.cstr)) :
  until_null ((Some <$> strs) ++ None :: rest) = strs.
Proof. induction strs as [|x l IH]; [done |]. cbn. f_equal. exact IH. Qed.

Lemma insert_words (strs : list Mem.cstr) (x y : option Mem.cstr)
    (rest : list (option Mem.cstr)) :
  <[length strs := x]> ((Some <$> strs) ++ y :: rest)
  = (Some <$> strs) ++ x :: rest.
Proof. rewrite <- (length_fmap Some strs). apply insert_middle. Qed.

Lemma take_words (strs : list Mem.cstr) (rest : list (option Mem.cstr)) :
  take (length strs) ((Some <$> strs) ++ rest) = Some <$> strs.
Proof. rewrite <- (length_fmap Some strs). apply take_app_length. Qed.

Lemma runs_fill_argv (base : gset Mem.loc) (la : Mem.loc)
    (ls : list Mem.loc) (m : nat) (seg : list Mem.cstr) :
  forall strs h,
    holds base ((Mem.s_loc <$> strs) ++ la :: ls) h ->
    runs (Mem.fill_argv ok la seg (length strs)
            ((Some <$> strs) ++
             replicate (count_words (Mem.s_val <$> seg) + m) None)) h
      (fun r h' =>
         match r with
         | None => holds base ls h'
         | Some (k', a') =>
             exists strs',
               k' = length strs' /\
               a' = (Some <$> strs') ++ replicate m None /\
               holds base ((Mem.s_loc <$> strs') ++ la :: ls) h'
         end).
Proof.
  induction seg as [seg IH] using (induction_ltof1 _ length).
  unfold ltof in IH. intros strs h H.
  destruct seg as [|t rest].
  { apply runs_ret. by exists strs. }
  rewrite fmap_cons. cbn [Mem.fill_argv count_words].
  destruct (is_redir (Mem.s_val t)).
  { destruct rest as [|f rest'].
    - apply runs_ret. by exists strs.
    - rewrite fmap_cons. apply IH; [simpl; lia | done]. }
  destruct (tok_is (Mem.s_val t) "|"); [apply IH; [simpl; lia | done] |].
  apply runs_bind.
  eapply runs_conseq; [apply runs_strdup; exact H |]. cbn beta.
  intros [x|] h1 [H1 _].
  - cbn [Nat.add replicate]. rewrite insert_words.
    pose proof (IH rest ltac:(simpl; lia) (strs ++ [x]) h1) as IH'.
    rewrite length_app, !fmap_app in IH'. cbn [length fmap list_fmap] in IH'.
    rewrite <- !app_assoc in IH'. cbn [app] in IH'.
    replace (length strs + 1) with (S (length strs)) in IH' by lia.
    apply IH'. eapply holds_perm; [| exact H1].
    cbn [locs_file]. solve_Permutation.
  - rewrite take_words, omap_id_Some.
    apply runs_bind.
    eapply runs_conseq; [apply runs_free_strs; exact H1 |]. cbn beta.
    intros _ h2 H2. apply runs_bind.
    eapply runs_conseq; [apply runs_free; exact H2 |]. cbn beta.
    intros _ h3 H3. by apply runs_ret.
Qed.

Lemma runs_build_argv (base : gset Mem.loc) (ls : list Mem.loc)
    (seg : list Mem.cstr) (h : Mem.heap) :
  holds base ls h ->
  runs (Mem.build_argv ok seg) h
    (fun r h' =>
       wf_cmd (Mem.set_argv r.2 Mem.zero_cmd) /\
       holds base (locs_argv r.2 ++ ls) h').
Proof.
  intros H. unfold Mem.build_argv. apply runs_bind.
  eapply runs_conseq; [apply runs_alloc; exact H |]. cbn beta.
  intros [la|] h1 H1; [| by apply runs_ret].
  apply runs_bind. eapply runs_conseq.
  { apply (runs_fill_argv base la ls 1 seg [] h1). exact H1. }
  cbn beta. intros [[k a]|] h2 H2; [| by apply runs_ret].
  destruct H2 as (strs & -> & -> & H2). apply runs_ret.
  cbn [replicate snd]. rewrite insert_words.
  split.
  - unfold wf_cmd. cbn. apply elem_of_app. right. by left.
  - cbn [locs_argv]. rewrite until_null_words.
    eapply holds_perm; [| exact H2]. solve_Permutation.
Qed.

Lemma runs_do_segment (base : gset Mem.loc) (n : nat) (l : bool)
    (ls : list Mem.loc) (seg : list Mem.cstr) (c : Mem.Command)
    (h : Mem.heap) :
  Mem.argv c = None -> holds base (locs_files c ++ ls) h ->
  runs (Mem.do_segment ok n l seg c) h
    (fun r h' =>
       wf_cmd (slot_of r) /\ holds base (locs_cmd (slot_of r) ++ ls) h').
Proof.
  intros Hargv H. unfold Mem.do_segment. apply runs_bind.
  eapply runs_conseq; [apply runs_scan_redirs; exact H |]. cbn beta.
  intros [[msg c1] | c1] h1 [H1 Ha]; cbn [slot_of snd] in *.
  { apply runs_ret. cbn [slot_of snd]. unfold wf_cmd, locs_cmd.
    rewrite Ha, Hargv. done. }
  apply runs_bind.
  eapply runs_conseq; [apply runs_build_argv; exact H1 |]. cbn beta.
  intros [rc b] h2 [Hwf H2]. cbn [fst snd] in *.
  assert (wf_cmd (Mem.set_argv b c1) /\
          holds base (locs_cmd (Mem.set_argv b c1) ++ ls) h2) as Hc2.
  { split; [done |]. unfold locs_cmd. cbn [Mem.set_argv Mem.argv].
    eapply holds_perm; [| exact H2]. unfold locs_files.
    cbn [Mem.in_file Mem.out_file Mem.err_file]. solve_Permutation. }
  destruct (negb (Z.eqb rc 0)); [by apply runs_ret |].
  destruct (Mem.argv_empty _); by apply runs_ret.
Qed.

(** *** The whole line *)

Lemma locs_cmds_cons (c : Mem.Command) (cs : list Mem.Command) :
  locs_cmds (c :: cs) = locs_cmd c ++ locs_cmds cs.
Proof. reflexivity. Qed.

Lemma locs_cmds_insert (cs : list Mem.Command) (i : nat)
    (c : Mem.Command) :
  cs !! i = Some Mem.zero_cmd ->
  locs_cmds (<[i := c]> cs) ≡ₚ locs_cmd c ++ locs_cmds cs.
Proof.
  revert i. induction cs as [|c0 cs IH]; intros i Hi; [done |].
  destruct i as [|i]; cbn [insert list_insert]; rewrite !locs_cmds_cons.
  - injection Hi as ->. done.
  - change (list_insert i c cs) with (<[i := c]> cs).
    rewrite (IH i Hi). solve_Permutation.
Qed.

Lemma runs_parse_fail (base : gset Mem.loc) (err_sz : nat)
    (tb : Mem.tokbuf) (p : Mem.Pipeline) (msg : string)
    (ls : list Mem.loc) (h : Mem.heap) :
  wf_tokbuf tb -> wf_pipeline p ->
  holds base (locs_pipeline p ++ locs_tokbuf tb ++ ls) h ->
  runs (Mem.parse_fail err_sz tb (Some p) msg) h (parse_post base ls).
Proof.
  intros Hwt Hwp H. unfold Mem.parse_fail. apply runs_bind.
  eapply runs_conseq.
  { apply (runs_free_tokens base tb (locs_pipeline p ++ ls)); [done |].
    eapply holds_perm; [| exact H]. solve_Permutation. }
  cbn beta. intros _ h1 H1. apply runs_bind.
  eapply runs_conseq; [by apply runs_free_pipeline |]. cbn beta.
  intros p' h2 [-> H2]. apply runs_ret. right. done.
Qed.

Lemma runs_seg_loop (base : gset Mem.loc) (err_sz n : nat)
    (tb : Mem.tokbuf) (lc : Mem.loc) (ls : list Mem.loc)
    (rest : list Mem.cstr) :
  forall cur idx cs h,
    wf_tokbuf tb -> n = length cs -> Forall wf_cmd cs ->
    idx + count_pipes (Mem.s_val <$> rest) < length cs ->
    (forall j, idx <= j -> j < length cs -> cs !! j = Some Mem.zero_cmd) ->
    holds base (locs_cmds cs ++ lc :: locs_tokbuf tb ++ ls) h ->
    runs (Mem.seg_loop ok err_sz n tb lc rest cur idx cs) h
      (parse_post base ls).
Proof.
  assert (forall l cur idx cs h,
    wf_tokbuf tb -> n = length cs -> Forall wf_cmd cs ->
    idx < length cs ->
    (forall j, idx <= j -> j < length cs -> cs !! j = Some Mem.zero_cmd) ->
    holds base (locs_cmds cs ++ lc :: locs_tokbuf tb ++ ls) h ->
    forall k : (string * Mem.Command) + Mem.Command -> Mem.M Mem.parse_result,
    (forall r h',
       wf_cmd (slot_of r) ->
       holds base (locs_cmds (<[idx := slot_of r]> cs) ++
                   lc :: locs_tokbuf tb ++ ls) h' ->
       runs (k r) h' (parse_post base ls)) ->
    runs (r ← Mem.do_segment ok n l cur
                (default Mem.zero_cmd (cs !! idx)); k r) h
      (parse_post base ls)) as Hseg.
  { intros l cur idx cs h Hwt Hn Hwf Hidx Hzero H k Hk.
    rewrite (Hzero idx) by lia.
    change (default Mem.zero_cmd (Some Mem.zero_cmd)) with Mem.zero_cmd.
    apply runs_bind. eapply runs_conseq.
    { apply (runs_do_segment base n l
               (locs_cmds cs ++ lc :: locs_tokbuf tb ++ ls));
        [done | exact H]. }
    cbn beta. intros r h1 [Hw H1]. apply Hk; [done |].
    eapply holds_perm; [| exact H1].
    rewrite locs_cmds_insert by (apply Hzero; lia).
    by rewrite <- app_assoc. }
  assert (forall idx cs e h,
    wf_tokbuf tb -> n = length cs -> Forall wf_cmd cs -> wf_cmd e.2 ->
    holds base (locs_cmds (<[idx := e.2]> cs) ++
                lc :: locs_tokbuf tb ++ ls) h ->
    runs (Mem.parse_fail err_sz tb
            (Some (Mem.mkPipeline (Some (lc, <[idx := e.2]> cs))
                     (Z.of_nat n)))
            (snprintf err_sz e.1)) h (parse_post base ls)) as Hfail.
  { intros idx cs e h Hwt Hn Hwf Hwe H. apply runs_parse_fail; [done | |].
    - unfold wf_pipeline. cbn. rewrite length_insert. split; [by rewrite Hn |].
      by apply Forall_insert.
    - eapply holds_perm; [| exact H]. unfold locs_pipeline. cbn.
      solve_Permutation. }
  induction rest as [|t rest' IH]; intros cur idx cs h Hwt Hn Hwf Hidx Hzero H.
  - cbn [fmap list_fmap count_pipes] in Hidx. cbn [Mem.seg_loop].
    apply Hseg; [done | done | done | lia | done | done |].
    intros [e|c] h1 Hw H1; cbn [slot_of] in *.
    + by apply Hfail.
    + apply runs_bind. eapply runs_conseq.
      { apply (runs_free_tokens base tb
                 (locs_cmds (<[idx := c]> cs) ++ lc :: ls)); [done |].
        eapply holds_perm; [| exact H1]. solve_Permutation. }
      cbn beta. intros _ h2 H2. apply runs_ret. left. split; [done |].
      eexists. split; [done |]. split.
      * unfold wf_pipeline. cbn. rewrite length_insert.
        split; [by rewrite Hn | by apply Forall_insert].
      * eapply holds_perm; [| exact H2]. unfold locs_pipeline. cbn.
        solve_Permutation.
  - rewrite fmap_cons in Hidx. cbn [count_pipes] in Hidx.
    cbn [Mem.seg_loop]. destruct (tok_is (Mem.s_val t) "|").
    + apply Hseg; [done | done | done | lia | done | done |].
      intros [e|c] h1 Hw H1; cbn [slot_of] in *.
      * by apply Hfail.
      * apply IH; [done | by rewrite length_insert | by apply Forall_insert
                  | rewrite length_insert; lia | | done].
        intros j Hj Hlt. rewrite length_insert in Hlt.
        rewrite list_lookup_insert_ne by lia. apply Hzero; lia.
    + by apply IH.
Qed.

Lemma locs_cmds_replicate (n : nat) :
  locs_cmds (replicate n Mem.zero_cmd) = [].
Proof.
  induction n as [|n IH]; [done |].
  cbn [replicate]. rewrite locs_cmds_cons, IH. done.
Qed.

Lemma runs_parse_line (base : gset Mem.loc) (ls : list Mem.loc)
    (line : option string) (err_sz : nat) (h : Mem.heap) :
  holds base ls h ->
  runs (Mem.parse_line ok line err_sz) h (parse_post base ls).
Proof.
  intros H. unfold Mem.parse_line. apply runs_bind.
  eapply runs_conseq; [apply runs_tokenize; exact H |]. cbn beta.
  intros [[rc tb] e] h1 (Hwt & H1 & _). cbn [fst snd] in *.
  assert (forall msg,
    runs (Mem.parse_fail err_sz tb (Some Mem.pipeline_init) msg) h1
      (parse_post base ls)) as Hfail.
  { intros msg. by apply runs_parse_fail. }
  destruct (negb (Z.eqb rc 0)); [apply Hfail |].
  destruct (Mem.s_val <$> Mem.t_arr tb) as [|first tl] eqn:Htoks.
  { apply runs_bind.
    eapply runs_conseq; [by apply runs_free_tokens |]. cbn beta.
    intros _ h2 H2. apply runs_ret. by right. }
  destruct (tok_is first "|"); [apply Hfail |].
  destruct (tok_is (List.last _ _) "|"); [apply Hfail |].
  destruct (adjacent_pipes _); [apply Hfail |].
  apply runs_bind. eapply runs_conseq; [apply runs_alloc; exact H1 |].
  cbn beta. intros [lc|] h2 H2; [| apply runs_parse_fail; done].
  apply runs_seg_loop.
  - done.
  - by rewrite length_replicate.
  - apply Forall_replicate. done.
  - rewrite length_replicate, Htoks. lia.
  - intros j _ Hj. rewrite length_replicate in Hj.
    by apply lookup_replicate_2.
  - by rewrite locs_cmds_replicate.
Qed.

End MemFacts.

(** ** The allocation table forgotten: when no allocation fails, the
    parser of [Mem] computes what the parser of the first part does *)

Section MemRefines.

Variable ok : nat -> bool.
Hypothesis ok_true : forall n, ok n = true.

Lemma yields_ret {A} (a : A) (Q : A -> Prop) : Q a -> yields (mret a) Q.
Proof. intros H h a' h' [= <- <-]. done. Qed.

Lemma yields_bind {A B} (m : Mem.M A) (k : A -> Mem.M B)
    (P : A -> Prop) (Q : B -> Prop) :
  yields m P -> (forall a, P a -> yields (k a) Q) -> yields (a ← m; k a) Q.
Proof.
  intros Hm Hk h b h' E.
  unfold mbind, Mem.M_bind, Mem.bind in E.
  destruct (m h) as [|a h1] eqn:Em; [done |].
  exact (Hk a (Hm _ _ _ Em) _ _ _ E).
Qed.

Lemma yields_any {A} (m : Mem.M A) : yields m (fun _ => True).
Proof. by intros h a h' _. Qed.

Lemma yields_alloc : yields (Mem.alloc ok) is_Some.
Proof.
  intros h a h'. unfold Mem.alloc. rewrite ok_true. intros [= <- _]. eauto.
Qed.

Lemma yields_realloc (p : Mem.ptr) : yields (Mem.realloc ok p) is_Some.
Proof.
  intros h a h'. destruct p as [l|]; cbn [Mem.realloc].
  - destruct (decide _); [| done]. rewrite ok_true. intros [= <- _]. eauto.
  - apply yields_alloc.
Qed.

Lemma yields_strdup (v : string) :
  yields (Mem.strdup ok v) (fun r => exists x, r = Some x /\ Mem.s_val x = v).
Proof.
  unfold Mem.strdup. eapply yields_bind; [apply yields_alloc |].
  intros a [l ->]. apply yields_ret. by eexists.
Qed.

Lemma yields_push_token (tb : Mem.tokbuf) (tok : string) :
  yields (Mem.push_token ok tb tok)
    (fun r => r.1 = 0%Z /\
              Mem.s_val <$> Mem.t_arr r.2
              = push_token (Mem.s_val <$> Mem.t_arr tb) tok).
Proof.
  unfold Mem.push_token, push_token.
  destruct (Nat.leb (String.length tok) 0); [by apply yields_ret |].
  eapply yields_bind with
    (P := fun g => exists tb1, g = Some tb1 /\ Mem.t_arr tb1 = Mem.t_arr tb).
  { destruct (Nat.leb _ _); [| apply yields_ret; by eexists].
    eapply yields_bind; [apply yields_realloc |].
    intros a [l ->]. apply yields_ret. by eexists. }
  intros g (tb1 & -> & Harr).
  eapply yields_bind; [apply yields_strdup |].
  intros s (x & -> & Hx). apply yields_ret. cbn.
  by rewrite fmap_app, Harr, <- Hx.
Qed.

Lemma yields_tok_loop (fuel : nat) :
  forall p tb,
    yields (Mem.tok_loop ok fuel p tb)
      (fun r => exists tb',
         r = inr tb' /\
         Mem.s_val <$> Mem.t_arr tb'
         = tok_loop fuel p (Mem.s_val <$> Mem.t_arr tb)).
Proof.
  induction fuel as [|fuel IH]; intros p tb; cbn [Mem.tok_loop tok_loop].
  { apply yields_ret. by eexists. }
  assert (forall tok q,
    yields (r ← Mem.push_token ok tb tok;
            if Z.eqb r.1 0 then Mem.tok_loop ok fuel q r.2
            else mret (inl r.2))
      (fun r => exists tb',
         r = inr tb' /\
         Mem.s_val <$> Mem.t_arr tb'
         = tok_loop fuel q
             (push_token (Mem.s_val <$> Mem.t_arr tb) tok))) as Hstep.
  { intros tok q. eapply yields_bind; [apply yields_push_token |].
    intros r [-> <-]. apply IH. }
  destruct (is_nul (deref p)); [apply yields_ret; by eexists |].
  destruct (skip_ws p) as [|c p']; [apply yields_ret; by eexists |].
  destruct (is_nul c); [apply yields_ret; by eexists |].
  destruct (starts_2gt c p'); [apply Hstep |].
  destruct (is_op_char c); [apply Hstep |].
  destruct (scan_word (String c p')) as [w rest]. apply Hstep.
Qed.

Lemma yields_tokenize (line : option string) (err_sz : nat) :
  yields (Mem.tokenize ok line err_sz)
    (fun r => r.1.1 = 0%Z /\
              Mem.s_val <$> Mem.t_arr r.1.2 = tokenize line).
Proof.
  unfold Mem.tokenize, tokenize.
  destruct line as [l|]; [| by apply yields_ret].
  eapply yields_bind; [apply yields_tok_loop |].
  intros r (tb' & -> & E). by apply yields_ret.
Qed.

Lemma yields_free_pipeline (p : Mem.Pipeline) :
  yields (Mem.free_pipeline (Some p))
    (fun r => r = Some Mem.pipeline_init).
Proof.
  unfold Mem.free_pipeline.
  destruct (Mem.cmds p) as [[lc cs]|]; [| by apply yields_ret].
  eapply yields_bind; [apply yields_any |]. intros _ _.
  eapply yields_bind; [apply yields_any |]. intros _ _.
  by apply yields_ret.
Qed.

Lemma yields_parse_fail (err_sz : nat) (tb : Mem.tokbuf)
    (p : Mem.Pipeline) (msg : string) :
  yields (Mem.parse_fail err_sz tb (Some p) msg)
    (fun r => Mem.ret_val r = 1%Z /\
              Mem.out r = Some Mem.pipeline_init /\ Mem.err r = msg).
Proof.
  unfold Mem.parse_fail.
  eapply yields_bind; [apply yields_any |]. intros _ _.
  eapply yields_bind; [apply yields_free_pipeline |]. intros p' ->.
  by apply yields_ret.
Qed.

Lemma yields_replace_file (old : option Mem.cstr) (f : Mem.cstr) :
  yields (Mem.replace_file ok old f)
    (fun r => exists x, r = Some x /\ Mem.s_val x = Mem.s_val f).
Proof.
  unfold Mem.replace_file.
  eapply yields_bind; [apply yields_any |]. intros _ _.
  apply yields_strdup.
Qed.

Lemma yields_scan_redirs (n : nat) (l : bool) (seg : list Mem.cstr) :
  forall c,
    yields (Mem.scan_redirs ok n l seg c)
      (fun r => slot_refines r
                  (scan_redirs n l (Mem.s_val <$> seg) (erase_cmd c))).
Proof.
  induction seg as [seg IH] using (induction_ltof1 _ length).
  unfold ltof in IH. intros c.
  destruct seg as [|t rest]; [apply yields_ret; by eexists |].
  rewrite fmap_cons. cbn [Mem.scan_redirs scan_redirs].
  assert (forall msg old f rest' (set : option Mem.cstr -> Mem.Command)
                 (pset : option string -> Command),
    length rest' < length (t :: rest) ->
    (forall x, erase_cmd (set (Some x)) = pset (Some (Mem.s_val x))) ->
    yields
      (if is_op (Mem.s_val f) then mret (inl (msg, c))
       else
         s ← Mem.replace_file ok old f;
         match s with
         | None => mret (inl (MSG_OOM, set None))
         | Some _ => Mem.scan_redirs ok n l rest' (set s)
         end)
      (fun r => slot_refines r
         (if is_op (Mem.s_val f) then inl msg
          else scan_redirs n l (Mem.s_val <$> rest')
                 (pset (Some (Mem.s_val f)))))) as Hone.
  { intros msg old f rest' set pset Hlen Hset.
    destruct (is_op (Mem.s_val f)); [apply yields_ret; by eexists |].
    eapply yields_bind; [apply yields_replace_file |].
    intros s (x & -> & Hx). rewrite <- Hx, <- Hset. by apply IH. }
  destruct (tok_is (Mem.s_val t) "<").
  { destruct rest as [|f rest']; [apply yields_ret; by eexists |].
    rewrite fmap_cons.
    apply (Hone _ _ f rest' (fun s => Mem.set_in_file s c)
             (fun s => set_in_file s (erase_cmd c)));
      [simpl; lia | done]. }
  destruct (tok_is (Mem.s_val t) ">").
  { destruct rest as [|f rest']; [apply yields_ret; by eexists |].
    rewrite fmap_cons.
    apply (Hone _ _ f rest' (fun s => Mem.set_out_file s c)
             (fun s => set_out_file s (erase_cmd c)));
      [simpl; lia | done]. }
  destruct (tok_is (Mem.s_val t) "2>").
  { destruct rest as [|f rest']; [apply yields_ret; by eexists |].
    rewrite fmap_cons.
    apply (Hone _ _ f rest' (fun s => Mem.set_err_file s c)
             (fun s => set_err_file s (erase_cmd c)));
      [simpl; lia | done]. }
  apply IH. simpl. lia.
Qed.

Lemma erase_argv_insert (a : list (option Mem.cstr)) (k : nat)
    (x : option Mem.cstr) :
  erase_argv (<[k := x]> a) = <[k := Mem.s_val <$> x]> (erase_argv a).
Proof. unfold erase_argv. by rewrite list_fmap_insert. Qed.

Lemma erase_argv_replicate (n : nat) :
  erase_argv (replicate n None) = replicate n None.
Proof. unfold erase_argv. by rewrite fmap_replicate. Qed.

Lemma yields_fill_argv (la : Mem.loc) (seg : list Mem.cstr) :
  forall k a,
    yields (Mem.fill_argv ok la seg k a)
      (fun r => exists a',
         r = Some ((fill_argv (Mem.s_val <$> seg) k (erase_argv a)).1, a')
         /\ erase_argv a'
            = (fill_argv (Mem.s_val <$> seg) k (erase_argv a)).2).
Proof.
  induction seg as [seg IH] using (induction_ltof1 _ length).
  unfold ltof in IH. intros k a.
  destruct seg as [|t rest]; [apply yields_ret; by eexists |].
  rewrite fmap_cons. cbn [Mem.fill_argv fill_argv].
  destruct (is_redir (Mem.s_val t)).
  { destruct rest as [|f rest']; [apply yields_ret; by eexists |].
    rewrite fmap_cons. apply IH. simpl. lia. }
  destruct (tok_is (Mem.s_val t) "|"); [apply IH; simpl; lia |].
  eapply yields_bind; [apply yields_strdup |].
  intros s (x & -> & Hx). rewrite <- Hx.
  change (Some (Mem.s_val x)) with (Mem.s_val <$> Some x).
  rewrite <- erase_argv_insert. apply IH. simpl. lia.
Qed.

Lemma yields_build_argv (seg : list Mem.cstr) :
  yields (Mem.build_argv ok seg)
    (fun r => r.1 = 0%Z /\
              exists la a, r.2 = Some (la, a) /\
                           erase_argv a = build_argv (Mem.s_val <$> seg)).
Proof.
  unfold Mem.build_argv, build_argv.
  eapply yields_bind; [apply yields_alloc |]. intros pa [la ->].
  eapply yields_bind; [apply yields_fill_argv |].
  intros r (a' & -> & Ha). rewrite erase_argv_replicate in *.
  apply yields_ret. split; [done |].
  exists la. eexists. split; [done |].
  rewrite erase_argv_insert, Ha.
  by destruct (fill_argv _ _ _).
Qed.

Lemma argv_empty_erase (c : Mem.Command) :
  Mem.argv_empty c = argv_empty (erase_cmd c).
Proof.
  unfold Mem.argv_empty, argv_empty, erase_cmd. cbn.
  destruct (Mem.argv c) as [[la a]|]; [| done]. cbn.
  by destruct a as [|[x|] a].
Qed.

Lemma yields_do_segment (n : nat) (l : bool) (seg : list Mem.cstr)
    (c : Mem.Command) :
  yields (Mem.do_segment ok n l seg c)
    (fun r => slot_refines r
                (do_segment n l (Mem.s_val <$> seg) (erase_cmd c))).
Proof.
  unfold Mem.do_segment, do_segment.
  eapply yields_bind; [apply yields_scan_redirs |].
  intros r Hr.
  destruct (scan_redirs n l (Mem.s_val <$> seg) (erase_cmd c))
    as [msg | c1]; cbn [slot_refines] in Hr.
  { destruct Hr as (c' & ->). apply yields_ret. by eexists. }
  destruct Hr as (c' & -> & Hc').
  eapply yields_bind; [apply yields_build_argv |].
  intros [rc b] (Hrc & la & a & Hb & Ha). cbn [fst snd] in *.
  rewrite Hrc, Hb. cbn [Z.eqb negb]. rewrite argv_empty_erase.
  assert (erase_cmd (Mem.set_argv (Some (la, a)) c')
          = set_argv (Some (build_argv (Mem.s_val <$> seg))) c1) as E.
  { rewrite <- Hc', <- Ha. done. }
  rewrite E. destruct (argv_empty _); apply yields_ret; by eexists.
Qed.

Lemma erase_slot (cs : list Mem.Command) (i : nat) :
  erase_cmd (default Mem.zero_cmd (cs !! i))
  = default zero_cmd ((erase_cmd <$> cs) !! i).
Proof. rewrite list_lookup_fmap. by destruct (cs !! i). Qed.

Lemma yields_seg_loop (err_sz n : nat) (tb : Mem.tokbuf) (lc : Mem.loc)
    (rest : list Mem.cstr) :
  forall cur idx cs,
    yields (Mem.seg_loop ok err_sz n tb lc rest cur idx cs)
      (fun r => refines r
                  (seg_loop err_sz n (Mem.s_val <$> rest)
                     (Mem.s_val <$> cur) idx (erase_cmd <$> cs))).
Proof.
  assert (forall l cur idx cs
                 (k : Mem.Command -> Mem.M Mem.parse_result)
                 (pk : Command -> parse_result),
    (forall c, yields (k c) (fun r => refines r (pk (erase_cmd c)))) ->
    yields
      (r ← Mem.do_segment ok n l cur (default Mem.zero_cmd (cs !! idx));
       match r with
       | inl e =>
           Mem.parse_fail err_sz tb
             (Some (Mem.mkPipeline (Some (lc, <[idx := e.2]> cs))
                      (Z.of_nat n)))
             (snprintf err_sz e.1)
       | inr c => k c
       end)
      (fun r => refines r
         match do_segment n l (Mem.s_val <$> cur)
                 (default zero_cmd ((erase_cmd <$> cs) !! idx)) with
         | inl msg =>
             parse_fail err_sz
               (mkPipeline (Some (erase_cmd <$> cs)) (Z.of_nat n)) msg
         | inr c => pk c
         end)) as Hseg.
  { intros l cur idx cs k pk Hk.
    eapply yields_bind; [apply yields_do_segment |].
    intros r Hr. rewrite erase_slot in Hr.
    destruct (do_segment _ _ _ _) as [msg | c1]; cbn [slot_refines] in Hr.
    - destruct Hr as (c' & ->).
      eapply yields_bind; [apply yields_any |]. intros _ _.
      eapply yields_bind; [apply yields_free_pipeline |]. intros p' ->.
      apply yields_ret. split; [done |]. split; [done |]. by eexists.
    - destruct Hr as (c' & -> & <-). apply Hk. }
  induction rest as [|t rest' IH]; intros cur idx cs.
  - cbn [fmap list_fmap Mem.seg_loop seg_loop].
    apply (Hseg true cur idx cs
             (fun c =>
                Mem.free_tokens tb;;
                mret (Mem.mkResult 0%Z
                        (Some (Mem.mkPipeline
                                 (Some (lc, <[idx := c]> cs)) (Z.of_nat n)))
                        EmptyString))
             (fun c =>
                mkResult 0%Z
                  (mkPipeline (Some (<[idx := c]> (erase_cmd <$> cs)))
                     (Z.of_nat n))
                  EmptyString)).
    intros c. eapply yields_bind; [apply yields_any |]. intros _ _.
    apply yields_ret. split; [done |]. split; [done |].
    eexists. split; [done |]. unfold erase_pipeline. cbn.
    by rewrite list_fmap_insert.
  - rewrite fmap_cons. cbn [Mem.seg_loop seg_loop].
    destruct (tok_is (Mem.s_val t) "|").
    + apply (Hseg false cur idx cs
               (fun c =>
                  Mem.seg_loop ok err_sz n tb lc rest' [] (S idx)
                    (<[idx := c]> cs))
               (fun c =>
                  seg_loop err_sz n (Mem.s_val <$> rest') [] (S idx)
                    (<[idx := c]> (erase_cmd <$> cs)))).
      intros c. rewrite <- list_fmap_insert. apply (IH [] (S idx)).
    + change (Mem.s_val <$> cur ++ [t]) with (Mem.s_val <$> (cur ++ [t])).
      replace ((Mem.s_val <$> cur) ++ [Mem.s_val t])
        with (Mem.s_val <$> (cur ++ [t])) by by rewrite fmap_app.
      apply IH.
Qed.

Lemma yields_parse_line (line : option string) (err_sz : nat) :
  yields (Mem.parse_line ok line err_sz)
    (fun r => refines r (parse_line line err_sz)).
Proof.
  unfold Mem.parse_line, parse_line, parse_tokens.
  eapply yields_bind; [apply yields_tokenize |].
  intros [[rc tb] e] [Hrc Htoks]. cbn [fst snd] in *.
  rewrite Hrc, Htoks. cbn [Z.eqb negb].
  assert (forall msg,
    yields (Mem.parse_fail err_sz tb (Some Mem.pipeline_init)
              (snprintf err_sz msg))
      (fun r => refines r (parse_fail err_sz pipeline_init msg))) as Hfail.
  { intros msg. intros h r h' E.
    destruct (yields_parse_fail _ _ _ _ _ _ _ E) as (Hr & Ho & He).
    split; [done |]. split; [done |]. by eexists. }
  destruct (tokenize line) as [|first tl].
  { eapply yields_bind; [apply yields_any |]. intros _ _.
    apply yields_ret. split; [done |]. split; [done |]. by eexists. }
  destruct (tok_is first "|"); [apply Hfail |].
  destruct (tok_is (List.last _ _) "|"); [apply Hfail |].
  destruct (adjacent_pipes _); [apply Hfail |].
  eapply yields_bind; [apply yields_alloc |]. intros pc [lc ->].
  intros h r h' E. apply yields_seg_loop in E.
  rewrite Htoks, fmap_replicate in E. exact E.
Qed.

End MemRefines.

(** With an allocator that never fails, [Mem.parse_line] ends without a
    fault and its return value, [*out] and [err] are those of
    [parse_line]. *)
Lemma parse_line_refines (ok : nat -> bool) (base : gset Mem.loc)
    (ls : list Mem.loc) (h : Mem.heap) (line : option string)
    (err_sz : nat) :
  (forall n, ok n = true) -> holds base ls h ->
  exists r h',
    Mem.parse_line ok line err_sz h = Mem.Done r h' /\
    refines r (parse_line line err_sz).
Proof.
  intros Hok H.
  destruct (runs_parse_line ok base ls line err_sz h H)
    as (r & h' & E & _).
  exists r, h'. split; [done |].
  exact (yields_parse_line ok Hok line err_sz h r h' E).
Qed.

(** ** Release of a [Pipeline] *)

Lemma holds_live (base : gset Mem.loc) (ls : list Mem.loc)
    (h h' : Mem.heap) :
  holds base ls h -> holds base ls h' -> Mem.live h' = Mem.live h.
Proof. intros (_ & _ & E & _) (_ & _ & E' & _). by rewrite E, E'. Qed.

(** C9.  [free_pipeline] is idempotent and safe on partial results.  Let
    [p] be a [Pipeline] whose blocks are live, whatever the state of its
    commands (a NULL [argv], NULL file names), and let the allocator fail
    whenever it likes ([ok]).  Calling [free_pipeline] on [p] does not
    fault, releases the blocks of [p] and no other, and leaves
    [cmds == NULL], [n_cmds == 0]; calling it a second time does not fault
    and changes nothing.  [parse_line] never faults and returns 0 or 1.
    When it returns 1, [*out] is the empty [Pipeline], the live blocks are
    those of before the call (every block obtained on the way is released),
    and [free_pipeline] on [*out] does not fault and changes nothing.
    When it returns 0, [free_pipeline] on [*out] does not fault and brings
    the live blocks back to those of before the call. *)
Theorem free_pipeline_idempotent (ok : nat -> bool) (base : gset Mem.loc)
    (p : Mem.Pipeline) (ls : list Mem.loc) (h : Mem.heap)
    (line : option string) (err_sz : nat) :
  wf_pipeline p -> holds base (locs_pipeline p ++ ls) h ->
  (exists h1,
     Mem.free_pipeline (Some p) h = Mem.Done (Some Mem.pipeline_init) h1 /\
     holds base ls h1 /\
     Mem.free_pipeline (Some Mem.pipeline_init) h1
     = Mem.Done (Some Mem.pipeline_init) h1) /\
  (exists r h1,
     Mem.parse_line ok line err_sz h = Mem.Done r h1 /\
     (Mem.ret_val r = 0%Z \/ Mem.ret_val r = 1%Z) /\
     (Mem.ret_val r <> 0%Z ->
      Mem.out r = Some Mem.pipeline_init /\
      Mem.live h1 = Mem.live h /\
      Mem.free_pipeline (Mem.out r) h1
      = Mem.Done (Some Mem.pipeline_init) h1) /\
     (Mem.ret_val r = 0%Z ->
      exists q h2,
        Mem.out r = Some q /\ wf_pipeline q /\
        Mem.free_pipeline (Some q) h1
        = Mem.Done (Some Mem.pipeline_init) h2 /\
        Mem.live h2 = Mem.live h)).
Proof.
  intros Hwf H. split.
  - destruct (runs_free_pipeline ok base p ls h Hwf H)
      as (p1 & h1 & E & -> & H1).
    by exists h1.
  - destruct (runs_parse_line ok base (locs_pipeline p ++ ls) line err_sz
                h H) as (r & h1 & E & Hpost).
    exists r, h1. split; [done |].
    destruct Hpost as [(Hr & q & Hq & Hwq & H1) | (Hr & Hout & H1)].
    + split; [by left |]. split; [congruence |]. intros _.
      destruct (runs_free_pipeline ok base q _ h1 Hwq H1)
        as (p2 & h2 & E2 & -> & H2).
      exists q, h2. split; [done |]. split; [done |]. split; [done |].
      exact (holds_live _ _ _ _ H H2).
    + split; [by right |]. split; [| intros E0; rewrite E0 in Hr; done].
      intros _. split; [done |]. split; [exact (holds_live _ _ _ _ H H1) |].
      by rewrite Hout.
Qed.

Lemma free_pipeline_idempotent_witness :
  let c := Mem.mkCommand
             (Some (1, [Some (Mem.mkCstr 2 "ls"); None]))
             None (Some (Mem.mkCstr 3 "out")) None in
  let p := Mem.mkPipeline (Some (0, [c; Mem.zero_cmd])) 2 in
  let h := Mem.mkHeap (list_to_set [0; 1; 2; 3; 4]) 5 5 in
  let ok := fun n => Nat.ltb n 12 in
  (exists h1,
     Mem.free_pipeline (Some p) h = Mem.Done (Some Mem.pipeline_init) h1 /\
     holds ∅ [4] h1 /\
     Mem.free_pipeline (Some Mem.pipeline_init) h1
     = Mem.Done (Some Mem.pipeline_init) h1) /\
  (exists r h1,
     Mem.parse_line ok (Some "sort < in | wc") ERRBUF_SZ h
     = Mem.Done r h1 /\
     (Mem.ret_val r = 0%Z \/ Mem.ret_val r = 1%Z) /\
     (Mem.ret_val r <> 0%Z ->
      Mem.out r = Some Mem.pipeline_init /\
      Mem.live h1 = Mem.live h /\
      Mem.free_pipeline (Mem.out r) h1
      = Mem.Done (Some Mem.pipeline_init) h1) /\
     (Mem.ret_val r = 0%Z ->
      exists q h2,
        Mem.out r = Some q /\ wf_pipeline q /\
        Mem.free_pipeline (Some q) h1
        = Mem.Done (Some Mem.pipeline_init) h2 /\
        Mem.live h2 = Mem.live h)).
Proof.
  intros c p h ok.
  apply (free_pipeline_idempotent ok ∅ p [4] h).
  - split; [reflexivity |].
    repeat constructor.
  - split; [| split; [| split]].
    + apply (bool_decide_unpack _). vm_compute. reflexivity.
    + intros l _. apply not_elem_of_empty.
    + apply (bool_decide_unpack _). vm_compute. reflexivity.
    + intros l Hl. apply (bool_decide_unpack _). 
      revert l Hl. apply (bool_decide_unpack _). vm_compute. reflexivity.
Defined.

(** * Further properties *)

(** ** The tokenizer *)

Lemma scan_word_chars (p : string) :
  all_chars word_char (scan_word p).1 = true.
Proof.
  induction p as [|c p IH]; [done |]. cbn [scan_word].
  destruct (negb (is_nul c) && negb (isspace c) && negb (is_op_char c))
    eqn:E; [| done].
  destruct (starts_2gt c p); [done |].
  destruct (scan_word p) as [w r]. cbn [fst] in *. cbn [all_chars].
  unfold word_char at 1. by rewrite E, IH.
Qed.

Lemma is_op_char_cases (c : ascii) :
  is_op_char c = true ->
  String c "" = "<" \/ String c "" = ">" \/ String c "" = "|".
Proof.
  unfold is_op_char. intros H.
  destruct (Ascii.eqb_spec c "<"); [left; by subst |].
  destruct (Ascii.eqb_spec c ">"); [right; left; by subst |].
  destruct (Ascii.eqb_spec c "|"); [right; right; by subst | done].
Qed.

Lemma toks_ind (P : string -> Prop) :
  (forall p, (forall q, String.length q < String.length p -> P q) -> P p) ->
  forall p, P p.
Proof.
  intros H p. induction p as [p IH] using (induction_ltof1 _ String.length).
  apply H. exact IH.
Qed.

Lemma toks_shape (l : string) :
  Forall
    (fun t =>
       t = "<" \/ t = ">" \/ t = "|" \/ t = "2>" \/
       (t <> "" /\ is_word t = true))
    (toks l).
Proof.
  induction l as [l IH] using toks_ind.
  destruct l as [|c p']; [rewrite toks_nil; constructor |].
  rewrite toks_cons.
  destruct (is_nul c) eqn:Hnul; [constructor |].
  destruct (isspace c) eqn:Hsp; [apply IH; simpl; lia |].
  destruct (starts_2gt c p') eqn:H2.
  { constructor; [auto 6 |]. apply IH.
    pose proof (advance_length p'). simpl. lia. }
  destruct (is_op_char c) eqn:Hop.
  { constructor; [| apply IH; simpl; lia].
    destruct (is_op_char_cases c Hop) as [E | [E | E]]; auto. }
  constructor.
  - do 4 right. split; [done |]. unfold is_word. cbn [all_chars].
    unfold word_char at 1. by rewrite Hnul, Hsp, Hop, scan_word_chars.
  - apply IH. pose proof (scan_word_length p'). simpl. lia.
Qed.

(** X1.  Every token of a line is one of the operators [<], [>], [|],
    [2>], or a non-empty word that holds no NUL, no whitespace and none of
    the characters [<], [>], [|]. *)
Theorem tokens_well_formed (line : option string) :
  Forall
    (fun t =>
       t = "<" \/ t = ">" \/ t = "|" \/ t = "2>" \/
       (t <> "" /\ is_word t = true))
    (tokenize line).
Proof.
  destruct line as [l|]; [| constructor]. rewrite tokenize_toks.
  apply toks_shape.
Qed.

Lemma c_str_word (w r : string) :
  all_chars word_char w = true -> c_str (w +:+ r) = w +:+ c_str r.
Proof.
  induction w as [|c w IH]; intros H; [by rewrite append_nil_l |].
  cbn [all_chars] in H. apply andb_prop in H as [Hc Hw].
  rewrite !append_cons. cbn [c_str].
  unfold word_char in Hc.
  destruct (is_nul c); [done |]. by rewrite IH.
Qed.

Lemma strip_space_word (w r : string) :
  all_chars word_char w = true ->
  strip_space (w +:+ r) = w +:+ strip_space r.
Proof.
  induction w as [|c w IH]; intros H; [by rewrite append_nil_l |].
  cbn [all_chars] in H. apply andb_prop in H as [Hc Hw].
  rewrite !append_cons. cbn [strip_space].
  unfold word_char in Hc.
  destruct (is_nul c); [done |]. destruct (isspace c); [done |].
  by rewrite IH.
Qed.

Lemma is_op_char_not_space (c : ascii) :
  is_op_char c = true -> isspace c = false.
Proof.
  unfold is_op_char. intros H.
  destruct (Ascii.eqb_spec c "<"); [by subst |].
  destruct (Ascii.eqb_spec c ">"); [by subst |].
  destruct (Ascii.eqb_spec c "|"); [by subst | done].
Qed.

Lemma toks_glue (l : string) : glue (toks l) = strip_space (c_str l).
Proof.
  induction l as [l IH] using toks_ind.
  destruct l as [|c p']; [by rewrite toks_nil |].
  rewrite toks_cons. cbn [c_str].
  destruct (is_nul c) eqn:Hnul; [done |]. cbn [strip_space].
  destruct (isspace c) eqn:Hsp; [apply IH; simpl; lia |].
  destruct (starts_2gt c p') eqn:H2.
  { unfold starts_2gt in H2. apply andb_prop in H2 as [Hc Hgt].
    destruct p' as [|d p'']; [done |]. cbn [deref] in Hgt.
    apply Ascii.eqb_eq in Hgt as ->. apply Ascii.eqb_eq in Hc as ->.
    cbn [advance glue c_str strip_space].
    change (is_nul ">") with false. change (isspace ">") with false.
    rewrite IH by (simpl; lia). done. }
  destruct (is_op_char c) eqn:Hop.
  { cbn [glue]. rewrite IH by (simpl; lia). done. }
  cbn [glue]. rewrite IH by (pose proof (scan_word_length p'); simpl; lia).
  rewrite append_cons. f_equal.
  rewrite (scan_word_split p') at 3.
  rewrite c_str_word, strip_space_word by apply scan_word_chars. done.
Qed.

(** X2.  The tokenizer drops whitespace and nothing else: the tokens of a
    line, written one after the other, are the characters of the line up to
    its first NUL, without the whitespace.  A NULL line has no token. *)
Theorem tokenize_keeps_characters (l : string) :
  glue (tokenize (Some l)) = strip_space (c_str l) /\ tokenize None = [].
Proof. split; [| done]. rewrite tokenize_toks. apply toks_glue. Qed.

(** ** The outcomes of [parse_line] *)

Lemma substring_length_le (s : string) (n : nat) :
  String.length (String.substring 0 n s) <= n.
Proof.
  revert s. induction n as [|n IH]; intros [|c s]; cbn; try lia.
  specialize (IH s). lia.
Qed.

Lemma snprintf_length (err_sz : nat) (msg : string) :
  String.length (snprintf err_sz msg) <= err_sz - 1.
Proof.
  unfold snprintf. destruct (Nat.ltb 0 err_sz); [| cbn; lia].
  apply substring_length_le.
Qed.

Lemma snprintf_nonempty (err_sz : nat) (msg : string) :
  1 < err_sz -> msg <> "" -> snprintf err_sz msg <> "".
Proof.
  intros H Hm. unfold snprintf.
  destruct (Nat.ltb_spec 0 err_sz); [| lia].
  destruct err_sz as [|[|n]]; [lia | lia |].
  destruct msg as [|c msg]; [done |]. cbn. done.
Qed.

Lemma syntax_msgs_nonempty (m : string) : m ∈ syntax_msgs -> m <> "".
Proof.
  unfold syntax_msgs. rewrite !elem_of_cons, elem_of_nil.
  intros [-> | [-> | [-> | [-> | [-> | [-> | []]]]]]]; done.
Qed.

Lemma parse_tokens_outcomes (tokens : list string) (err_sz : nat) :
  tokens <> [] ->
  let r := parse_tokens tokens err_sz in
  (ret r = 0%Z /\ err r = "" /\
   exists cs, out r = mkPipeline (Some cs) (Z.of_nat (length cs)) /\
              length cs = length (split_pipes tokens)) \/
  (ret r = 1%Z /\ out r = pipeline_init /\
   exists m, m ∈ syntax_msgs /\ err r = snprintf err_sz m).
Proof.
  intros Hne r. subst r. unfold syntax_msgs.
  destruct (decide (head tokens = Some "|")) as [Hf | Hf].
  { rewrite parse_tokens_first by done. right. cbn.
    split; [done |]. split; [done |]. eexists. split; [| done].
    set_solver. }
  destruct (decide (last tokens = Some "|")) as [Hl | Hl].
  { rewrite parse_tokens_last by done. right. cbn.
    split; [done |]. split; [done |]. eexists. split; [| done].
    set_solver. }
  destruct (adjacent_pipes tokens) eqn:Ha.
  { rewrite parse_tokens_adjacent by done. right. cbn.
    split; [done |]. split; [done |]. eexists. split; [| done].
    set_solver. }
  rewrite parse_tokens_segments by done.
  destruct (segments_result _ _) as [msg | cs] eqn:E; cbn [parse_outcome].
  - right. cbn. split; [done |]. split; [done |].
    exists msg. split; [| done].
    apply segments_result_inl in E as (good & seg & later & _ & _ & E).
    apply do_segment_msgs in E. set_solver.
  - left. cbn. split; [done |]. split; [done |].
    apply segments_result_inr, Forall2_length in E.
    exists cs. by rewrite E.
Qed.

(** X3.  What [parse_line] can leave behind.  It returns 0 with an empty
    message and a [Pipeline] of one [Command] per segment, [n_cmds] being
    the length of [cmds]; or it returns 1 with the empty [Pipeline] and
    either no message (a line without a token) or one of six fixed
    messages, cut to the size of the buffer.  The message never has more
    than [err_sz - 1] characters, so that it fits the buffer with its
    NUL. *)
Theorem parse_line_outcomes (line : option string) (err_sz : nat) :
  let r := parse_line line err_sz in
  ((ret r = 0%Z /\ err r = "" /\
    exists cs, out r = mkPipeline (Some cs) (Z.of_nat (length cs)) /\
               length cs = 1 + count_pipes (tokenize line)) \/
   (ret r = 1%Z /\ out r = pipeline_init /\
    ((tokenize line = [] /\ err r = "") \/
     (tokenize line <> [] /\
      exists m, m ∈ syntax_msgs /\ err r = snprintf err_sz m)))) /\
  String.length (err r) <= err_sz - 1.
Proof.
  intros r. subst r. unfold parse_line.
  destruct (tokenize line) as [|t tl] eqn:Ht.
  { split; [| cbn; lia]. right. cbn. auto. }
  destruct (parse_tokens_outcomes (t :: tl) err_sz ltac:(done))
    as [(Hr & He & cs & Ho & Hlen) | (Hr & Ho & m & Hm & He)].
  - split; [| rewrite He; cbn; lia]. left.
    split; [done |]. split; [done |]. exists cs. split; [done |].
    by rewrite Hlen, split_pipes_length.
  - split; [| rewrite He; apply snprintf_length]. right.
    split; [done |]. split; [done |]. right. split; [done |]. by exists m.
Qed.

Lemma glue_nil (tokens : list string) :
  Forall (fun t => t <> "") tokens -> glue tokens = "" -> tokens = [].
Proof.
  intros H E. destruct tokens as [|t tl]; [done |].
  apply Forall_cons in H as [Ht _]. destruct t; [done |].
  cbn [glue] in E. by rewrite append_cons in E.
Qed.

(** X4.  A blank line is not an error.  A line has no token exactly when
    it is NULL or holds only whitespace before its first NUL; and, with a
    buffer of at least two bytes, [parse_line] returns 1 with the empty
    [Pipeline] and an empty message exactly for these lines: every
    failure on a line with a token leaves a message. *)
Theorem blank_line (line : option string) (err_sz : nat) :
  1 < err_sz ->
  (tokenize line = [] <->
   forall l, line = Some l -> strip_space (c_str l) = "") /\
  (parse_line line err_sz = mkResult 1%Z pipeline_init "" <->
   tokenize line = []).
Proof.
  intros Hsz. split.
  - destruct line as [l|]; [| done]. split.
    + intros E l' [= <-]. by rewrite <- toks_glue, <- tokenize_toks, E.
    + intros H. rewrite tokenize_toks. apply glue_nil.
      * eapply Forall_impl; [apply toks_shape |].
        intros t [-> | [-> | [-> | [-> | [Ht _]]]]]; done.
      * rewrite toks_glue. by apply H.
  - split.
    + intros E. unfold parse_line in E.
      destruct (tokenize line) as [|t0 tl]; [done |]. exfalso.
      destruct (parse_tokens_outcomes (t0 :: tl) err_sz ltac:(done))
        as [(Hr & _) | (_ & _ & m & Hm & He)].
      { by rewrite E in Hr. }
      rewrite E in He. cbn in He. symmetry in He.
      by apply snprintf_nonempty in He; [| | apply syntax_msgs_nonempty].
    + intros E. unfold parse_line. by rewrite E.
Qed.

Lemma blank_line_witness :
  (tokenize (Some "  ") = [] <->
   forall l, Some "  " = Some l -> strip_space (c_str l) = "") /\
  (parse_line (Some "  ") ERRBUF_SZ = mkResult 1%Z pipeline_init "" <->
   tokenize (Some "  ") = []).
Proof. apply (blank_line (Some "  ") ERRBUF_SZ). unfold ERRBUF_SZ. lia. Defined.

Lemma cmd_of_segment_accepted (seg : list string) (c : Command) :
  cmd_of_segment seg c -> accepted seg.
Proof. intros (ws & Hw & Hne & _). by exists ws. Qed.

(** X5.  [parse_line] returns 0 exactly for the lines that have a token
    and whose segments (the spans of tokens between [|]) are each made of
    at least one word and of complete redirections. *)
Theorem parse_line_success (line : option string) (err_sz : nat) :
  ret (parse_line line err_sz) = 0%Z <->
  tokenize line <> [] /\ Forall accepted (split_pipes (tokenize line)).
Proof.
  unfold parse_line. split.
  - intros H. apply parse_tokens_ok in H as (Hne & _ & _ & _ & cs & _ & Hcs).
    split; [done |].
    induction Hcs as [|seg c segs cs' Hc _ IH]; constructor;
      [by eapply cmd_of_segment_accepted | done].
  - intros [Hne Hacc].
    destruct (parse_tokens_accepted (split_pipes (tokenize line)) err_sz)
      as (cs & E & _); [apply split_pipes_nonempty | done |].
    rewrite join_split in E. by rewrite E.
Qed.

(** ** Tokens written out and read again *)

Lemma scan_word_all (w : string) :
  all_chars word_char w = true -> scan_word w = (w, "").
Proof.
  induction w as [|c w IH]; intros H; [done |].
  cbn [all_chars] in H. apply andb_prop in H as [Hc Hw].
  cbn [scan_word]. unfold word_char in Hc. rewrite Hc.
  assert (starts_2gt c w = false) as ->.
  { unfold starts_2gt. destruct w as [|d w']; cbn [deref].
    - by rewrite andb_false_r.
    - cbn [all_chars] in Hw. apply andb_prop in Hw as [Hd _].
      unfold word_char, is_op_char in Hd.
      destruct (Ascii.eqb_spec d ">") as [-> | _]; [done |].
      by rewrite andb_false_r. }
  by rewrite (IH Hw).
Qed.

Lemma word_nul_free (w : string) :
  all_chars word_char w = true -> nul_free w = true.
Proof.
  induction w as [|c w IH]; intros H; [done |].
  cbn [all_chars nul_free] in *. apply andb_prop in H as [Hc Hw].
  rewrite (IH Hw), andb_true_r. unfold word_char in Hc.
  by destruct (is_nul c).
Qed.

Lemma toks_token (t : string) :
  token_ok t -> toks t = [t] /\ nul_free t = true.
Proof.
  intros [-> | [-> | [-> | [-> | [Hne Hw]]]]]; [done | done | done | done |].
  split; [| by apply word_nul_free].
  destruct t as [|c w]; [done |]. unfold is_word in Hw.
  pose proof (scan_word_all _ Hw) as Hscan.
  cbn [all_chars] in Hw. apply andb_prop in Hw as [Hc Hw].
  rewrite toks_cons. unfold word_char in Hc. cbn [scan_word] in Hscan.
  destruct (is_nul c); [done |]. destruct (isspace c); [done |].
  destruct (is_op_char c); [done |]. cbn [negb andb] in Hscan.
  destruct (starts_2gt c w); [done |].
  destruct (scan_word w) as [w' r]. injection Hscan as -> ->.
  cbn [fst snd]. by rewrite toks_nil.
Qed.

(** X21.  Tokens written out and read again.  Take any tokens of the
    shape [tokenize] makes (operators and non-empty words); written on
    one line with a space after each, they are read back by [tokenize] as
    they are.  So tokenizing is a projection: the tokens of a line are the
    tokens of the line they spell. *)
Theorem tokenize_unwords (tokens : list string) (line : option string) :
  (Forall token_ok tokens -> tokenize (Some (unwords tokens)) = tokens) /\
  tokenize (Some (unwords (tokenize line))) = tokenize line.
Proof.
  assert (forall ts, Forall token_ok ts -> toks (unwords ts) = ts) as H.
  { intros ts Hts. induction Hts as [|t ts Ht _ IH]; [apply toks_nil |].
    cbn [unwords]. destruct (toks_token t Ht) as [Htok Hnul].
    rewrite toks_app.
    - rewrite Htok. change (String " " (unwords ts))
        with (" " +:+ unwords ts).
      by rewrite toks_space, IH.
    - done.
    - change (String " " (unwords ts)) with (" " +:+ unwords ts).
      by apply stops_space.
    - done. }
  split.
  - intros Hts. rewrite tokenize_toks. by apply H.
  - rewrite tokenize_toks. apply H.
    destruct line as [l|]; [| constructor]. rewrite tokenize_toks.
    apply toks_shape.
Qed.

(** ** Descriptors of the parent *)

Lemma agree_refl (t : fdtable) : agree t t.
Proof. by intros fd. Qed.

Lemma agree_trans (t1 t2 t3 : fdtable) :
  agree t1 t2 -> agree t2 t3 -> agree t1 t3.
Proof. intros H12 H23 fd. by rewrite H23, H12. Qed.

Lemma pipe_ends_app (l1 l2 : list (nat * nat)) :
  pipe_ends (l1 ++ l2) = pipe_ends l1 ++ pipe_ends l2.
Proof. unfold pipe_ends. apply flat_map_app. Qed.

Lemma pipe_ends_open (pipe_fds : list (nat * nat)) (t0 t : fdtable)
    (fd : nat) :
  pipes_fresh pipe_fds t0 t -> fd ∈ pipe_ends pipe_fds ->
  is_Some (fd_get t fd).
Proof.
  intros (_ & _ & _ & Hopen) Hin. unfold pipe_ends in Hin.
  apply list_elem_of_In, in_flat_map in Hin as ([r w] & Hrw & Hfd).
  apply list_elem_of_In, list_elem_of_lookup in Hrw as [j Hj].
  destruct (Hopen j r w Hj) as [Hr Hw].
  cbn in Hfd. destruct Hfd as [<- | [<- | []]]; eauto.
Qed.

Lemma pipes_fresh_nil (t : fdtable) : pipes_fresh [] t t.
Proof.
  split; [constructor |]. split; [intros fd H; by apply elem_of_nil in H |].
  split; [done |]. intros j r w H. done.
Qed.

Lemma pipes_fresh_pipe (pipe_fds : list (nat * nat)) (t0 t : fdtable) :
  pipes_fresh pipe_fds t0 t ->
  pipes_fresh (pipe_fds ++ [(sys_pipe (length pipe_fds) t).1])
    t0 (sys_pipe (length pipe_fds) t).2.
Proof.
  intros H. pose proof H as (Hnd & Hclosed & Hkeep & Hopen).
  unfold sys_pipe.
  destruct (sys_open (PipeRead (length pipe_fds)) t) as [r t1] eqn:E1.
  destruct (sys_open (PipeWrite (length pipe_fds)) t1) as [w t2] eqn:E2.
  cbn [fst snd].
  assert (forall fd, fd_get t1 fd =
            if decide (r = fd) then Some (PipeRead (length pipe_fds))
            else fd_get t fd) as G1.
  { intros fd. pose proof (fd_get_open (PipeRead (length pipe_fds)) t fd).
    by rewrite E1 in *. }
  assert (forall fd, fd_get t2 fd =
            if decide (w = fd) then Some (PipeWrite (length pipe_fds))
            else fd_get t1 fd) as G2.
  { intros fd. pose proof (fd_get_open (PipeWrite (length pipe_fds)) t1 fd).
    by rewrite E2 in *. }
  assert (fd_get t r = None) as Hr.
  { pose proof (lowest_free_free t). unfold sys_open in E1.
    injection E1 as <- _. done. }
  assert (fd_get t1 w = None) as Hw.
  { pose proof (lowest_free_free t1). unfold sys_open in E2.
    injection E2 as <- _. done. }
  assert (w <> r) as Hwr.
  { intros ->. rewrite G1 in Hw. by rewrite decide_True in Hw. }
  assert (fd_get t w = None) as Hw0.
  { rewrite G1, decide_False in Hw by done. done. }
  assert (r ∉ pipe_ends pipe_fds) as Hrn.
  { intros Hin. destruct (pipe_ends_open _ _ _ _ H Hin) as [f Hf].
    congruence. }
  assert (w ∉ pipe_ends pipe_fds) as Hwn.
  { intros Hin. destruct (pipe_ends_open _ _ _ _ H Hin) as [f Hf].
    congruence. }
  unfold pipes_fresh. rewrite pipe_ends_app.
  cbn [pipe_ends flat_map fst snd app]. fold (pipe_ends pipe_fds).
  split; [| split; [| split]].
  - apply NoDup_app. split; [done |]. split.
    + intros fd Hin Hfd. apply elem_of_cons in Hfd as [-> | Hfd]; [done |].
      apply elem_of_cons in Hfd as [-> | Hfd]; [done |].
      by apply elem_of_nil in Hfd.
    + apply NoDup_cons. split; [| apply NoDup_singleton].
      intros Hin. apply list_elem_of_singleton in Hin. done.
  - intros fd Hin. apply elem_of_app in Hin as [Hin | Hin]; [auto |].
    apply elem_of_cons in Hin as [-> | Hin].
    { rewrite <- Hkeep by done. done. }
    apply elem_of_cons in Hin as [-> | Hin].
    { rewrite <- Hkeep by done. done. }
    by apply elem_of_nil in Hin.
  - intros fd Hin. rewrite elem_of_app, !elem_of_cons, elem_of_nil in Hin.
    rewrite G2, G1, !decide_False by naive_solver.
    apply Hkeep. naive_solver.
  - intros j r' w' Hj.
    apply lookup_app_Some in Hj as [Hj | [Hlen Hj]].
    + destruct (Hopen j r' w' Hj) as [Hr' Hw'].
      assert (r' ∈ pipe_ends pipe_fds /\ w' ∈ pipe_ends pipe_fds)
        as [Hir Hiw].
      { unfold pipe_ends.
        split; apply list_elem_of_In, in_flat_map; exists (r', w');
          (split; [by eapply list_elem_of_In, list_elem_of_lookup_2 |]);
          cbn; auto. }
      rewrite !G2, !G1.
      rewrite !decide_False by (intros ->; done). done.
    + destruct (j - length pipe_fds) as [|m] eqn:Em; [| done].
      injection Hj as <- <-. assert (j = length pipe_fds) as -> by lia.
      rewrite !G2, !G1. rewrite decide_False by done.
      rewrite !decide_True by done. done.
Qed.

Lemma fd_get_close_all (pipe_fds : list (nat * nat)) :
  forall t fd,
    fd_get (close_all_pipes pipe_fds t).1 fd =
      if decide (fd ∈ pipe_ends pipe_fds) then None else fd_get t fd.
Proof.
  induction pipe_fds as [|[r w] rest IH]; intros t fd.
  { rewrite decide_False; [done | apply not_elem_of_nil]. }
  rewrite close_all_pipes_cons. cbn [fst]. rewrite IH.
  cbn [pipe_ends flat_map fst snd app].
  fold (pipe_ends rest). rewrite !fd_get_close.
  repeat case_decide; try done; set_solver.
Qed.

Lemma close_all_pipes_agree (pipe_fds : list (nat * nat))
    (t0 t : fdtable) :
  pipes_fresh pipe_fds t0 t -> agree t0 (close_all_pipes pipe_fds t).1.
Proof.
  intros (_ & Hclosed & Hkeep & _) fd. rewrite fd_get_close_all.
  case_decide; [symmetry; auto | auto].
Qed.

Lemma create_pipes_from_fresh (o : os) (t0 : fdtable) (k : nat) :
  forall i pipe_fds t,
    length pipe_fds = i -> pipes_fresh pipe_fds t0 t ->
    let r := create_pipes_from o k i pipe_fds t in
    match r.1.1 with
    | Some fds => length fds = i + k /\ pipes_fresh fds t0 r.1.2
    | None => agree t0 r.1.2
    end.
Proof.
  induction k as [|k IH]; intros i pipe_fds t Hlen H.
  { cbn. split; [lia | done]. }
  cbn zeta. rewrite create_pipes_from_S.
  destruct (pipe_ok o i).
  - cbn [fst snd]. subst i.
    specialize (IH (S (length pipe_fds))
                  (pipe_fds ++ [(sys_pipe (length pipe_fds) t).1])
                  (sys_pipe (length pipe_fds) t).2).
    cbn zeta in IH.
    destruct (create_pipes_from o k _ _ _).1.1 as [fds|].
    + destruct IH as [Hl Hf];
        [rewrite length_app; simpl; lia | by apply pipes_fresh_pipe |].
      split; [lia | done].
    + apply IH; [rewrite length_app; simpl; lia |].
      by apply pipes_fresh_pipe.
  - cbn [fst snd]. by apply close_all_pipes_agree.
Qed.

Lemma forallb_seq_false (f : nat -> bool) (k : nat) :
  forall i,
    forallb f (seq i k) = false <->
    exists j, i <= j < i + k /\ f j = false.
Proof.
  induction k as [|k IH]; intros i; cbn [seq forallb].
  { split; [done | intros (j & Hj & _); lia]. }
  rewrite andb_false_iff, IH. split.
  - intros [H | (j & Hj & Hf)]; [exists i | exists j]; (split; [lia | done]).
  - intros (j & Hj & Hf). destruct (decide (j = i)) as [-> | Hne];
      [by left | right; exists j; split; [lia | done]].
Qed.

Lemma create_pipes_fresh (o : os) (n_pipes : nat) (t : fdtable) :
  match (create_pipes o n_pipes t).1.1 with
  | Some fds =>
      length fds = n_pipes /\ pipes_fresh fds t (create_pipes o n_pipes t).1.2
  | None => agree t (create_pipes o n_pipes t).1.2
  end.
Proof.
  apply (create_pipes_from_fresh o t n_pipes 0 [] t);
    [done | apply pipes_fresh_nil].
Qed.

(** X6.  [create_pipes] makes all its pipes or none.  It returns -1
    exactly when one of the [pipe] calls fails, and then every pipe made
    before is closed again: each descriptor of the process is as it was.
    When it returns 0, [pipe_fds] holds [n_pipes] pairs of descriptors,
    all different and all closed before the call; pair [j] is open on the
    read end and on the write end of pipe [j], and no other descriptor
    has changed. *)
Theorem create_pipes_all_or_none (o : os) (n_pipes : nat) (t : fdtable) :
  let r := create_pipes o n_pipes t in
  (r.1.1 = None <-> exists i, i < n_pipes /\ pipe_ok o i = false) /\
  match r.1.1 with
  | Some fds => length fds = n_pipes /\ pipes_fresh fds t r.1.2
  | None => agree t r.1.2
  end.
Proof.
  cbn zeta. split.
  - pose proof (create_pipes_from_result o n_pipes 0 [] t) as Hres.
    fold (create_pipes o n_pipes t) in Hres.
    split.
    + intros E. destruct (forallb (pipe_ok o) (seq 0 n_pipes)) eqn:Hall.
      { destruct Hres as [_ Hres]. destruct (Hres eq_refl) as [fds Hfds].
        congruence. }
      apply forallb_seq_false in Hall as (j & Hj & Hf).
      exists j. split; [lia | done].
    + intros (i & Hi & Hf).
      destruct (create_pipes o n_pipes t).1.1 as [fds|] eqn:E; [| done].
      assert (forallb (pipe_ok o) (seq 0 n_pipes) = true) as Hall
        by (apply Hres; eauto).
      assert (forallb (pipe_ok o) (seq 0 n_pipes) = false) as Hnot
        by (apply forallb_seq_false; exists i; split; [lia | done]).
      congruence.
  - apply create_pipes_fresh.
Qed.

Lemma execute_pipeline_agree (o : os) (t : fdtable) (p : Pipeline) :
  agree t (x_fds (execute_pipeline o t (Some p))).
Proof.
  unfold execute_pipeline.
  destruct (Z.eqb (n_cmds p) 0); [apply agree_refl |].
  destruct (Z.ltb 0 (n_cmds p - 1)).
  - destruct (malloc_pipe_fds_ok o); [| apply agree_refl].
    pose proof (create_pipes_fresh o (Z.to_nat (n_cmds p - 1)) t) as H.
    destruct (create_pipes o (Z.to_nat (n_cmds p - 1)) t) as [[res t1] tr1].
    cbn [fst snd] in H. destruct res as [fds|]; [| exact H].
    destruct H as [_ H]. apply close_all_pipes_agree in H.
    change (default [] (Some fds)) with fds.
    destruct (close_all_pipes fds t1) as [t2 tr2].
    cbn [fst] in H.
    destruct (negb (malloc_pids_ok o)); [exact H |].
    destruct (fork_from o p fds t1 (Z.to_nat (n_cmds p)) 0 [])
      as [[i kids] | kids]; [exact H |].
    destruct (wait_from o (n_cmds p) 0 kids 0%Z). exact H.
  - change (default [] (@None (list (nat * nat)))) with (@nil (nat * nat)).
    destruct (negb (malloc_pids_ok o)); [apply agree_refl |].
    destruct (fork_from o p [] t (Z.to_nat (n_cmds p)) 0 [])
      as [[i kids] | kids]; [apply agree_refl |].
    destruct (wait_from o (n_cmds p) 0 kids 0%Z). apply agree_refl.
Qed.

(** X7.  [execute_pipeline] leaks no descriptor.  Whatever the pipeline
    and whichever call fails or succeeds (the allocations, any [pipe], any
    [fork]), when it returns every descriptor of the shell is as it was
    before the call: every pipe end it made is closed again. *)
Theorem execute_pipeline_keeps_descriptors (o : os) (t : fdtable)
    (p : option Pipeline) :
  agree t (x_fds (execute_pipeline o t p)).
Proof.
  destruct p as [p|]; [apply execute_pipeline_agree |].
  intros fd. reflexivity.
Qed.

(** ** Descriptors of a child *)







Lemma execute_pipeline_children_fresh (o : os) (t : fdtable) (p : Pipeline)
    (i : nat) (cr : child_result) :
  x_children (execute_pipeline o t (Some p)) !! i = Some cr ->
  exists pipe_fds t1,
    pipes_fresh pipe_fds t t1 /\
    length pipe_fds = Z.to_nat (n_cmds p - 1) /\
    (Z.of_nat i < n_cmds p)%Z /\
    cr = child_run (child o i) p i pipe_fds t1.
Proof.
  unfold execute_pipeline.
  destruct (Z.eqb_spec (n_cmds p) 0) as [_ | Hn0]; [done |].
  set (n := n_cmds p) in *.
  assert (forall (fds : list (nat * nat)) t1,
            pipes_fresh fds t t1 -> length fds = Z.to_nat (n - 1) ->
            match fork_from o p fds t1 (Z.to_nat n) 0 [] with
            | inl (_, kids) | inr kids =>
              kids !! i = Some cr ->
              exists pipe_fds t1,
                pipes_fresh pipe_fds t t1 /\
                length pipe_fds = Z.to_nat (n - 1) /\
                (Z.of_nat i < n)%Z /\
                cr = child_run (child o i) p i pipe_fds t1
            end) as Hkids.
  { intros fds t1 Hf1 Hl1.
    destruct (forallb (fork_ok o) (seq 0 (Z.to_nat n))) eqn:Hf.
    - rewrite fork_from_inr by done. rewrite app_nil_l.
      intros [Hlt ->]%kids_lookup. exists fds, t1.
      do 2 (split; [done |]). split; [lia | done].
    - destruct (fork_from_inl o p fds t1 _ 0 [] Hf) as (m & Hm & ->).
      rewrite app_nil_l.
      intros [Hlt ->]%kids_lookup. exists fds, t1.
      do 2 (split; [done |]). split; [lia | done]. }
  destruct (Z.ltb_spec 0 (n - 1)) as [Hpipes | Hpipes].
  - destruct (malloc_pipe_fds_ok o); [| done].
    pose proof (create_pipes_fresh o (Z.to_nat (n - 1)) t) as Hcp.
    destruct (create_pipes o (Z.to_nat (n - 1)) t)
      as [[[fds|] t1] tr1]; [| done].
    cbn [fst snd] in Hcp. destruct Hcp as [Hl Hf].
    cbn [default from_option id].
    destruct (malloc_pids_ok o); cbn [negb].
    2:{ by destruct (close_all_pipes fds t1). }
    pose proof (Hkids fds t1 Hf Hl) as Hk.
    destruct (fork_from o p fds t1 (Z.to_nat n) 0 []) as [[j kids] | kids].
    + by destruct (close_all_pipes fds t1).
    + destruct (close_all_pipes fds t1).
      by destruct (wait_from o n 0 kids 0%Z).
  - cbn [default from_option id].
    destruct (malloc_pids_ok o); cbn [negb]; [| done].
    assert (length (@nil (nat * nat)) = Z.to_nat (n - 1)) as Hl
      by (simpl; lia).
    pose proof (Hkids [] t (pipes_fresh_nil t) Hl) as Hk.
    destruct (fork_from o p [] t (Z.to_nat n) 0 []) as [[j kids] | kids].
    + done.
    + by destruct (wait_from o n 0 kids 0%Z).
Qed.




(** ** How a child ends *)

Lemma redirect_field_fails (name : option string) (open_ok dup_ok : bool)
    (mk : string -> file) (target : nat) (ev : string -> event)
    (tag : string) (t : fdtable) :
  match redirect_field name open_ok dup_ok mk target ev tag t with
  | inl _ => field_fails name open_ok dup_ok = true
  | inr _ => field_fails name open_ok dup_ok = false
  end.
Proof.
  unfold redirect_field, redirect_one, field_fails.
  destruct name as [name|]; [| done].
  destruct open_ok; [| done].
  pose proof (fd_get_open (mk name) t (sys_open (mk name) t).1) as Hopen.
  rewrite decide_True in Hopen by done.
  destruct (sys_open (mk name) t) as [fd t1]. cbn [fst snd] in Hopen.
  unfold try_dup2, sys_dup2. rewrite Hopen.
  by destruct dup_ok.
Qed.

Lemma apply_redirections_fails (co : child_os) (c : Command) (t : fdtable) :
  match apply_redirections co c t with
  | inl _ => redirection_fails co c = true
  | inr _ => redirection_fails co c = false
  end.
Proof.
  rewrite apply_redirections_fields. unfold redirection_fails.
  pose proof (redirect_field_fails (in_file c) (open_in_ok co)
                (dup2_in_ok co) FileRead STDIN_FILENO
                (fun _ => EvFprintf MSG_FILE_NOT_FOUND)
                "dup2: stdin redirection" t) as H1.
  unfold MSG_FILE_NOT_FOUND in H1.
  destruct (redirect_field (in_file c) _ _ _ _ _ _ t) as [e | [t1 tr1]];
    [by rewrite H1 |].
  rewrite H1. cbn [orb].
  pose proof (redirect_field_fails (out_file c) (open_out_ok co)
                (dup2_out_ok co) FileWrite STDOUT_FILENO EvPerror
                "dup2: stdout redirection" t1) as H2.
  destruct (redirect_field (out_file c) _ _ _ _ _ _ t1)
    as [[t2 tr2] | [t2 tr2]]; [by rewrite H2 |].
  rewrite H2. cbn [orb].
  pose proof (redirect_field_fails (err_file c) (open_err_ok co)
                (dup2_err_ok co) FileWrite STDERR_FILENO EvPerror
                "dup2: stderr redirection" t2) as H3.
  by destruct (redirect_field (err_file c) _ _ _ _ _ _ t2)
    as [[t3 tr3] | [t3 tr3]].
Qed.

(** X9.  How a child of [execute_pipeline] ends, for a command with a
    program name ([argv[0]] not NULL).  If one of its redirections fails
    (the [open] or the [dup2] of a file the command names) the child calls
    [exit(1)] and never reaches [execvp]; otherwise it becomes the program
    when [execvp] succeeds and calls [exit(127)] when [execvp] returns.
    Nothing else can happen. *)
Theorem child_end_cases (o : os) (t : fdtable) (p : Pipeline)
    (cs : list Command) (i : nat) (c : Command)
    (a : list (option string)) (path : string) (cr : child_result) :
  cmds p = Some cs -> cs !! i = Some c ->
  argv c = Some a -> a !! 0 = Some (Some path) ->
  x_children (execute_pipeline o t (Some p)) !! i = Some cr ->
  if redirection_fails (child o i) c then
    c_end cr = Exits 1 /\ none_of is_execvp_event (c_trace cr)
  else if execvp_ok (child o i) then
    exists tx, c_end cr = Runs tx path a
  else c_end cr = Exits 127.
Proof.
  intros Hcs Hc Ha Hp Hcr.
  destruct (execute_pipeline_kids o t p i cr Hcr) as (fds & t1 & ->).
  unfold child_run. rewrite Hcs, Hc, Ha, Hp.
  set (w := if Z.ltb 0 (n_cmds p - 1) then _ else _).
  assert (none_of is_execvp_event w.2) as Hw.
  { unfold w. destruct (Z.ltb 0 (n_cmds p - 1)); [| constructor].
    apply connect_pipes_for_child_trace. }
  destruct w as [t2 tr1]. cbn [snd] in Hw.
  pose proof (apply_redirections_fails (child o i) c t2) as Hf.
  pose proof (apply_redirections_trace (child o i) c t2) as Htr.
  destruct (apply_redirections (child o i) c t2) as [[t3 tr2] | [t3 tr2]];
    rewrite Hf.
  - cbn. split; [done |]. by apply none_of_app.
  - cbn [default]. destruct (execvp_ok (child o i)); cbn; eauto.
Qed.

Lemma child_end_cases_witness :
  let o := mkOs true (fun _ => true) true (fun _ => true)
             (fun _ => mkChildOs true true false true true true true true
                         true (WExited 0)) in
  let c := mkCommand (Some [Some "sort"; None]) (Some "missing")
             (Some "out") None in
  let cr := mkChild (Exits 1) [EvFprintf MSG_FILE_NOT_FOUND] in
  if redirection_fails (child o 0) c then
    c_end cr = Exits 1 /\ none_of is_execvp_event (c_trace cr)
  else if execvp_ok (child o 0) then
    exists tx, c_end cr = Runs tx "sort" [Some "sort"; None]
  else c_end cr = Exits 127.
Proof.
  intros o c cr.
  apply (child_end_cases o shell_fds
           (out (parse_line (Some "sort < missing > out") ERRBUF_SZ))
           [c] 0 c [Some "sort"; None] "sort" cr); reflexivity.
Defined.

Lemma redirect_field_no_fprintf (name : option string)
    (open_ok dup_ok : bool) (mk : string -> file) (target : nat)
    (ev : string -> event) (tag : string) (t : fdtable) :
  (forall s, is_fprintf_event (ev s) = false) ->
  match redirect_field name open_ok dup_ok mk target ev tag t with
  | inl (_, tr) | inr (_, tr) => none_of is_fprintf_event tr
  end.
Proof.
  intros Hev. unfold redirect_field, redirect_one.
  destruct name as [name|]; [| constructor].
  destruct open_ok; [| by repeat constructor].
  destruct (sys_open (mk name) t) as [fd t1].
  destruct (try_dup2 dup_ok (Some fd) target t1); by repeat constructor.
Qed.

Ltac solve_none :=
  unfold none_of in *;
  repeat first
    [ assumption
    | apply Forall_nil_2
    | apply Forall_cons_2; [reflexivity |]
    | apply Forall_app_2 ].

Lemma apply_redirections_not_found (co : child_os) (c : Command)
    (t : fdtable) :
  match apply_redirections co c t with
  | inl (_, tr) =>
      if field_fails (in_file c) (open_in_ok co) true
      then tr = [EvFprintf MSG_FILE_NOT_FOUND]
      else none_of is_fprintf_event tr
  | inr (_, tr) => none_of is_fprintf_event tr
  end.
Proof.
  pose proof (apply_redirections_trace co c t) as Htr.
  destruct (apply_redirections co c t) as [[t' tr] | [t' tr]] eqn:E;
    [| apply Htr].
  rewrite apply_redirections_fields in E.
  unfold redirect_field at 1 in E. unfold field_fails.
  destruct (in_file c) as [f|].
  - unfold redirect_one in E. destruct (open_in_ok co); cbn [negb andb].
    + destruct (sys_open (FileRead f) t) as [fd t1].
      destruct (try_dup2 _ _ _ _) as [t2|].
      * pose proof (redirect_field_no_fprintf (out_file c) (open_out_ok co)
                      (dup2_out_ok co) FileWrite STDOUT_FILENO EvPerror
                      "dup2: stdout redirection" (sys_close fd t2)
                      ltac:(done)) as H2.
        destruct (redirect_field (out_file c) _ _ _ _ _ _ _)
          as [[t3 tr2] | [t3 tr2]].
        { injection E as _ <-. solve_none. }
        pose proof (redirect_field_no_fprintf (err_file c) (open_err_ok co)
                      (dup2_err_ok co) FileWrite STDERR_FILENO EvPerror
                      "dup2: stderr redirection" t3 ltac:(done)) as H3.
        destruct (redirect_field (err_file c) _ _ _ _ _ _ _)
          as [[t4 tr3] | [t4 tr3]]; [| done].
        injection E as _ <-. solve_none.
      * injection E as _ <-. solve_none.
    + by injection E as _ <-.
  - pose proof (redirect_field_no_fprintf (out_file c) (open_out_ok co)
                  (dup2_out_ok co) FileWrite STDOUT_FILENO EvPerror
                  "dup2: stdout redirection" t ltac:(done)) as H2.
    destruct (redirect_field (out_file c) _ _ _ _ _ _ _)
      as [[t3 tr2] | [t3 tr2]].
    { injection E as _ <-. solve_none. }
    pose proof (redirect_field_no_fprintf (err_file c) (open_err_ok co)
                  (dup2_err_ok co) FileWrite STDERR_FILENO EvPerror
                  "dup2: stderr redirection" t3 ltac:(done)) as H3.
    destruct (redirect_field (err_file c) _ _ _ _ _ _ _)
      as [[t4 tr3] | [t4 tr3]]; [| done].
    injection E as _ <-. solve_none.
Qed.

Lemma none_of_not_elem (sel : event -> bool) (tr : list event) (e : event) :
  none_of sel tr -> sel e = true -> e ∉ tr.
Proof.
  intros H He Hin. unfold none_of in H. rewrite Forall_forall in H.
  specialize (H e Hin). congruence.
Qed.

(** The only [perror] of [connect_pipes_for_child] is that of a pipe
    [dup2] that failed. *)
Lemma connect_pipes_for_child_perror (co : child_os) (i : nat) (n : Z)
    (pipe_fds : list (nat * nat)) (t : fdtable) (tag : string) :
  EvPerror tag ∈ (connect_pipes_for_child co i n pipe_fds t).2 ->
  (tag = "dup2: pipe stdin" /\ 0 < i) \/
  (tag = "dup2: pipe stdout" /\ (Z.of_nat i < n - 1)%Z).
Proof.
  unfold connect_pipes_for_child.
  set (s1 := if Nat.ltb 0 i then _ else _).
  assert (EvPerror tag ∈ s1.2 -> tag = "dup2: pipe stdin" /\ 0 < i) as H1.
  { unfold s1. destruct (Nat.ltb_spec 0 i) as [Hpos | _]; cbn [snd].
    2:{ by intros H%elem_of_nil. }
    destruct (try_dup2 _ _ _ t); cbn [snd].
    - by intros H%elem_of_nil.
    - intros [= ->]%list_elem_of_singleton. done. }
  destruct s1 as [t1 tr1]. cbn [snd] in H1.
  set (s2 := if Z.ltb (Z.of_nat i) (n - 1) then _ else _).
  assert (EvPerror tag ∈ s2.2 ->
          tag = "dup2: pipe stdout" /\ (Z.of_nat i < n - 1)%Z) as H2.
  { unfold s2. destruct (Z.ltb_spec (Z.of_nat i) (n - 1)) as [Hlt | _];
      cbn [snd].
    2:{ by intros H%elem_of_nil. }
    destruct (try_dup2 _ _ _ t1); cbn [snd].
    - by intros H%elem_of_nil.
    - intros [= ->]%list_elem_of_singleton. done. }
  destruct s2 as [t2 tr2]. cbn [snd] in H2.
  pose proof (close_all_pipes_trace pipe_fds t2 is_perror_event
                ltac:(done)) as Hc.
  destruct (close_all_pipes pipe_fds t2) as [t3 tr3]. cbn [snd] in *.
  rewrite !elem_of_app. intros [H | [H | H]]; [auto | auto |].
  exfalso. revert H. by apply (none_of_not_elem is_perror_event).
Qed.

(** [connect_pipes_for_child] prints nothing when its [dup2] calls
    succeed. *)
Lemma connect_pipes_for_child_quiet (co : child_os) (i : nat) (n : Z)
    (pipe_fds : list (nat * nat)) (t : fdtable) :
  pipes_bound pipe_fds t ->
  length pipe_fds = Z.to_nat (n - 1) -> (Z.of_nat i < n)%Z ->
  dup2_pipe_in_ok co = true -> dup2_pipe_out_ok co = true ->
  none_of is_perror_event (connect_pipes_for_child co i n pipe_fds t).2.
Proof.
  intros Hb Hlen Hi Hin Hout. unfold connect_pipes_for_child.
  rewrite Hin, Hout.
  set (s1 := if Nat.ltb 0 i then _ else _).
  assert (s1.2 = [] /\ forall fd, fd <> 0 -> fd_get s1.1 fd = fd_get t fd)
    as [H1 H1o].
  { unfold s1. destruct (Nat.ltb_spec 0 i) as [Hpos | _]; [| done].
    destruct (lookup_lt_is_Some_2 pipe_fds (i - 1)) as [[r w] Hrw]; [lia |].
    rewrite Hrw. cbn [fmap option_fmap option_map fst].
    destruct (Hb _ _ _ Hrw) as (Hr & Hw & Hgr & Hgw).
    destruct (try_dup2_ok r STDIN_FILENO t) as [t1 Ht1]; [eauto |].
    rewrite Ht1. cbn [fst snd]. split; [done |].
    intros fd Hfd. rewrite (try_dup2_Some _ _ _ _ _ Ht1).
    by rewrite decide_False. }
  destruct s1 as [t1 tr1]. cbn [fst snd] in *. subst tr1.
  assert (pipes_bound pipe_fds t1) as Hb1.
  { intros j r w Hj. destruct (Hb j r w Hj) as (Hr & Hw & Hgr & Hgw).
    do 2 (split; [done |]). rewrite !H1o by lia. done. }
  set (s2 := if Z.ltb (Z.of_nat i) (n - 1) then _ else _).
  assert (s2.2 = []) as H2.
  { unfold s2. destruct (Z.ltb_spec (Z.of_nat i) (n - 1)) as [Hlt | _];
      [| done].
    destruct (lookup_lt_is_Some_2 pipe_fds i) as [[r w] Hrw]; [lia |].
    rewrite Hrw. cbn [fmap option_fmap option_map snd].
    destruct (Hb1 _ _ _ Hrw) as (Hr & Hw & Hgr & Hgw).
    destruct (try_dup2_ok w STDOUT_FILENO t1) as [t2 Ht2]; [eauto |].
    by rewrite Ht2. }
  destruct s2 as [t2 tr2]. cbn [snd] in H2. subst tr2.
  pose proof (close_all_pipes_trace pipe_fds t2 is_perror_event
                ltac:(done)) as Hc.
  destruct (close_all_pipes pipe_fds t2) as [t3 tr3]. cbn [snd] in *.
  done.
Qed.

(** What a child whose input file cannot be opened does: the pipe stage,
    the message, [exit(1)]. *)
Lemma child_run_not_found (co : child_os) (p : Pipeline)
    (cs : list Command) (i : nat) (c : Command) (f : string)
    (pipe_fds : list (nat * nat)) (t : fdtable) :
  cmds p = Some cs -> cs !! i = Some c ->
  in_file c = Some f -> open_in_ok co = false ->
  child_run co p i pipe_fds t =
    mkChild (Exits 1)
      (pipe_stage co p i pipe_fds t ++ [EvFprintf MSG_FILE_NOT_FOUND]).
Proof.
  intros Hcs Hc Hin Hopen. unfold child_run, pipe_stage. rewrite Hcs, Hc.
  destruct (Z.ltb 0 (n_cmds p - 1)).
  - destruct (connect_pipes_for_child co i (n_cmds p) pipe_fds t)
      as [t1 tr1]. cbn [snd].
    pose proof (apply_redirections_fails co c t1) as Hf.
    pose proof (apply_redirections_not_found co c t1) as Hnf.
    unfold redirection_fails in Hf. unfold field_fails in Hf at 1.
    unfold field_fails in Hnf. rewrite Hin, Hopen in Hf, Hnf.
    destruct (apply_redirections co c t1) as [[t3 tr2] | [t3 tr2]];
      [| done].
    cbn [negb andb] in Hnf. by subst tr2.
  - pose proof (apply_redirections_fails co c t) as Hf.
    pose proof (apply_redirections_not_found co c t) as Hnf.
    unfold redirection_fails in Hf. unfold field_fails in Hf at 1.
    unfold field_fails in Hnf. rewrite Hin, Hopen in Hf, Hnf.
    destruct (apply_redirections co c t) as [[t3 tr2] | [t3 tr2]];
      [| done].
    cbn [negb andb] in Hnf. by subst tr2.
Qed.

(** X10.  The diagnostic of a missing input file.  A child prints
    "File not found." exactly when its command has an input file and the
    [open] of that file fails.  It is then the only fixed message the
    child prints and its last act before [exit(1)]: no later redirection
    is tried, [execvp] is not called, and the parent gets exit status 1
    for the child.  The only other diagnostic the child can have printed
    before it is the [perror] of a pipe [dup2] that failed ("dup2: pipe
    stdin" for a command after the first, "dup2: pipe stdout" for one
    before the last): a single command does nothing at all before the
    message, and a command of a pipeline whose pipe [dup2] calls succeed,
    in a shell with its standard descriptors open, prints nothing before
    it. *)
Theorem file_not_found (o : os) (t : fdtable) (p : Pipeline)
    (cs : list Command) (i : nat) (c : Command) (cr : child_result) :
  cmds p = Some cs -> cs !! i = Some c ->
  x_children (execute_pipeline o t (Some p)) !! i = Some cr ->
  (EvFprintf MSG_FILE_NOT_FOUND ∈ c_trace cr <->
   exists f, in_file c = Some f /\ open_in_ok (child o i) = false) /\
  (forall f, in_file c = Some f -> open_in_ok (child o i) = false ->
     c_end cr = Exits 1 /\
     exit_status_of (wait_status (child o i) cr) = 1%Z /\
     exists pre,
       c_trace cr = pre ++ [EvFprintf MSG_FILE_NOT_FOUND] /\
       none_of is_fprintf_event pre /\ none_of is_execvp_event pre /\
       (forall tag, EvPerror tag ∈ pre ->
          (tag = "dup2: pipe stdin" /\ 0 < i) \/
          (tag = "dup2: pipe stdout" /\ (Z.of_nat i < n_cmds p - 1)%Z)) /\
       (n_cmds p = 1%Z -> pre = []) /\
       (std_open t -> dup2_pipe_in_ok (child o i) = true ->
        dup2_pipe_out_ok (child o i) = true ->
        none_of is_perror_event pre)).
Proof.
  intros Hcs Hc Hcr.
  destruct (execute_pipeline_kids o t p i cr Hcr) as (fds & t1 & Hrun).
  split.
  - subst cr. unfold child_run. rewrite Hcs, Hc.
    set (w := if Z.ltb 0 (n_cmds p - 1) then _ else _).
    assert (none_of is_fprintf_event w.2 /\ none_of is_execvp_event w.2)
      as [Hw1 Hw2].
    { unfold w. destruct (Z.ltb 0 (n_cmds p - 1)); [| by split; constructor].
      apply connect_pipes_for_child_trace. }
    destruct w as [t2 tr1]. cbn [snd] in Hw1, Hw2.
    pose proof (apply_redirections_fails (child o i) c t2) as Hf.
    pose proof (apply_redirections_not_found (child o i) c t2) as Hnf.
    unfold redirection_fails in Hf. unfold field_fails in Hf at 1.
    unfold field_fails in Hnf.
    destruct (apply_redirections (child o i) c t2) as [[t3 tr2] | [t3 tr2]].
    + destruct (in_file c) as [f|] eqn:Hin.
      * destruct (open_in_ok (child o i)) eqn:Hopen; cbn [negb andb] in Hnf.
        -- cbn [c_trace]. split; [| by intros (? & _ & ?)].
           intros Hel. exfalso. revert Hel.
           apply (none_of_not_elem is_fprintf_event); [solve_none | done].
        -- subst tr2. cbn [c_trace c_end].
           split; [eauto |]. intros _. set_solver.
      * cbn [c_trace]. split; [| by intros (? & ? & _)].
        intros Hel. exfalso. revert Hel.
        apply (none_of_not_elem is_fprintf_event); [solve_none | done].
    + assert (forall tr3 m,
                m = MSG_NOT_FOUND \/ m = MSG_NOT_FOUND_PIPE ->
                tr3 = [] \/
                (exists e, tr3 = [e] /\ is_fprintf_event e = false) \/
                (exists e, tr3 = [e; EvFprintf m] /\
                           is_fprintf_event e = false) ->
                EvFprintf MSG_FILE_NOT_FOUND ∉ tr1 ++ tr2 ++ tr3) as Hno.
      { intros tr3 m Hm Htr3 Hel.
        rewrite !elem_of_app in Hel.
        destruct Hel as [Hel | [Hel | Hel]].
        - revert Hel. by apply (none_of_not_elem is_fprintf_event).
        - revert Hel. by apply (none_of_not_elem is_fprintf_event).
        - destruct Htr3 as [-> | [(e & -> & He) | (e & -> & He)]].
          + by apply elem_of_nil in Hel.
          + apply list_elem_of_singleton in Hel. by subst e.
          + rewrite !elem_of_cons, elem_of_nil in Hel.
            destruct Hel as [<- | [[= Hel] | []]]; [done |].
            by destruct Hm as [-> | ->]. }
      split.
      2:{ intros (f & Hin & Hopen). rewrite Hin, Hopen in Hf. done. }
      intros Hel. exfalso. revert Hel.
      assert (not_found_msg (n_cmds p) = MSG_NOT_FOUND \/
              not_found_msg (n_cmds p) = MSG_NOT_FOUND_PIPE) as Hm.
      { unfold not_found_msg. destruct (Z.eqb (n_cmds p) 1); auto. }
      unfold not_found_msg in Hm.
      destruct (argv c) as [a|]; cbn [c_trace].
      2:{ rewrite <- (app_nil_r tr2). apply (Hno [] _ Hm). auto. }
      destruct (default None (a !! 0)) as [path|].
      * destruct (execvp_ok (child o i)); cbn [c_trace].
        -- apply (Hno _ _ Hm). right. left. by eexists.
        -- apply (Hno _ _ Hm). right. right. by eexists.
      * cbn [c_trace]. apply (Hno _ _ Hm). right. left. by eexists.
  - intros f Hin Hopen.
    pose proof (child_run_not_found (child o i) p cs i c f fds t1
                  Hcs Hc Hin Hopen) as Heq.
    rewrite <- Hrun in Heq. rewrite Heq. cbn [c_end c_trace].
    split; [done |]. split; [done |].
    exists (pipe_stage (child o i) p i fds t1). split; [done |].
    unfold pipe_stage.
    split; [| split; [| split; [| split]]].
    + destruct (Z.ltb 0 (n_cmds p - 1)); [| constructor].
      apply connect_pipes_for_child_trace.
    + destruct (Z.ltb 0 (n_cmds p - 1)); [| constructor].
      apply connect_pipes_for_child_trace.
    + intros tag. destruct (Z.ltb 0 (n_cmds p - 1)).
      * apply connect_pipes_for_child_perror.
      * by intros H%elem_of_nil.
    + by intros ->.
    + intros Ho Hdi Hdo.
      destruct (execute_pipeline_children o t p i cr Ho Hcr)
        as (fds' & t1' & Ho1 & Hs1 & Hb & Hlen & Hi & Hrun').
      pose proof (child_run_not_found (child o i) p cs i c f fds' t1'
                    Hcs Hc Hin Hopen) as Heq'.
      rewrite <- Hrun', Heq in Heq'. injection Heq' as Heq'.
      apply app_inj_tail in Heq' as [Heq' _].
      fold (pipe_stage (child o i) p i fds t1). rewrite Heq'.
      unfold pipe_stage.
      destruct (Z.ltb 0 (n_cmds p - 1)); [| constructor].
      by apply connect_pipes_for_child_quiet.
Qed.

Lemma file_not_found_witness :
  let o := mkOs true (fun _ => true) true (fun _ => true)
             (fun _ => mkChildOs true true false true true true true true
                         true (WExited 0)) in
  let p := out (parse_line (Some "ls | sort < missing > out") ERRBUF_SZ) in
  let c := mkCommand (Some [Some "sort"; None]) (Some "missing")
             (Some "out") None in
  let cr := mkChild (Exits 1)
              [EvClose 3; EvClose 4; EvFprintf MSG_FILE_NOT_FOUND] in
  (EvFprintf MSG_FILE_NOT_FOUND ∈ c_trace cr <->
   exists f, in_file c = Some f /\ open_in_ok (child o 1) = false) /\
  (forall f, in_file c = Some f -> open_in_ok (child o 1) = false ->
     c_end cr = Exits 1 /\
     exit_status_of (wait_status (child o 1) cr) = 1%Z /\
     exists pre,
       c_trace cr = pre ++ [EvFprintf MSG_FILE_NOT_FOUND] /\
       none_of is_fprintf_event pre /\ none_of is_execvp_event pre /\
       (forall tag, EvPerror tag ∈ pre ->
          (tag = "dup2: pipe stdin" /\ 0 < 1) \/
          (tag = "dup2: pipe stdout" /\ (Z.of_nat 1 < n_cmds p - 1)%Z)) /\
       (n_cmds p = 1%Z -> pre = []) /\
       (std_open shell_fds -> dup2_pipe_in_ok (child o 1) = true ->
        dup2_pipe_out_ok (child o 1) = true ->
        none_of is_perror_event pre)).
Proof.
  intros o p c cr.
  apply (file_not_found o shell_fds p
           [mkCommand (Some [Some "ls"; None]) None None None; c] 1 c cr);
    reflexivity.
Defined.

(** ** Forks and waits *)

Section Indices.

Variable idx : event -> option nat.
Hypothesis idx_pipe : forall i r w, idx (EvPipe i r w) = None.
Hypothesis idx_perror : forall tag, idx (EvPerror tag) = None.
Hypothesis idx_close : forall fd, idx (EvClose fd) = None.

Lemma omap_none_of (tr : list event) :
  none_of (fun e => bool_decide (is_Some (idx e))) tr -> omap idx tr = [].
Proof.
  induction tr as [|e tr IH]; intros H; [done |].
  apply Forall_cons in H as [He H]. cbn [omap list_omap].
  apply bool_decide_eq_false in He.
  destruct (idx e); [destruct He; eauto | by apply IH].
Qed.

Lemma omap_create_pipes (o : os) (n : nat) (t : fdtable) :
  omap idx (create_pipes o n t).2 = [].
Proof.
  apply omap_none_of. unfold create_pipes.
  apply create_pipes_from_trace; intros; apply bool_decide_eq_false;
    rewrite ?idx_pipe, ?idx_perror, ?idx_close; by intros [? ?].
Qed.

Lemma omap_close_all (pipe_fds : option (list (nat * nat))) (t : fdtable) :
  omap idx
    (match pipe_fds with
     | Some l => close_all_pipes l t
     | None => (t, [])
     end).2 = [].
Proof.
  destruct pipe_fds as [l|]; [| done].
  apply omap_none_of, close_all_pipes_trace. intros fd.
  apply bool_decide_eq_false. rewrite idx_close. by intros [? ?].
Qed.

(** The indices of the events of an execution in which [forks] and
    [waits] give those of the fork events and of the wait events. *)
Lemma execute_pipeline_indices (o : os) (t : fdtable) (p : option Pipeline)
    (forks waits : list nat -> list nat) :
  (forall l, omap idx (EvFork <$> l) = forks l) ->
  (forall i, omap idx (reap_all i) = waits (seq 0 i)) ->
  (forall kids, omap idx (wait_events o 0 kids)
                = waits (seq 0 (length kids))) ->
  forks [] = [] -> waits [] = [] ->
  let r := execute_pipeline o t p in
  omap idx (x_trace r) =
    forks (seq 0 (length (x_children r))) ++
    waits (seq 0 (length (x_children r))).
Proof.
  intros Hforks Hreap Hwaits Hf0 Hw0. cbn zeta.
  assert (forall t', omap idx (x_trace (mkExec 0 [] t' [])) =
            forks (seq 0 (length (x_children (mkExec 0 [] t' [])))) ++
            waits (seq 0 (length (x_children (mkExec 0 [] t' [])))))
    as Hnone.
  { intros t'. cbn [x_trace x_children length seq omap list_omap].
    by rewrite Hf0, Hw0. }
  unfold execute_pipeline. destruct p as [p|]; [| apply Hnone].
  destruct (Z.eqb (n_cmds p) 0); [apply Hnone |].
  set (n := n_cmds p).
  assert (forall pipe_fds t1 tr1,
    omap idx tr1 = [] ->
    let r :=
      if negb (malloc_pids_ok o) then
        let (t2, tr2) :=
          match pipe_fds with
          | Some l => close_all_pipes l t1
          | None => (t1, [])
          end in
        mkExec (-1) (tr1 ++ EvPerror "malloc (pids)" :: tr2) t2 []
      else
        match fork_from o p (default [] pipe_fds) t1 (Z.to_nat n) 0 [] with
        | inl (i, kids) =>
            let (t2, tr2) :=
              match pipe_fds with
              | Some l => close_all_pipes l t1
              | None => (t1, [])
              end in
            mkExec (-1)
              (tr1 ++ (EvFork <$> seq 0 i) ++
               EvPerror "fork" :: tr2 ++ reap_all i)
              t2 kids
        | inr kids =>
            let (t2, tr2) :=
              match pipe_fds with
              | Some l => close_all_pipes l t1
              | None => (t1, [])
              end in
            let (last_exit, tr3) := wait_from o n 0 kids 0%Z in
            mkExec last_exit
              (tr1 ++ (EvFork <$> seq 0 (Z.to_nat n)) ++ tr2 ++ tr3)
              t2 kids
        end in
    omap idx (x_trace r) =
      forks (seq 0 (length (x_children r))) ++
      waits (seq 0 (length (x_children r)))) as Hrest.
  { intros pipe_fds t1 tr1 Htr1. cbn zeta.
    pose proof (omap_close_all pipe_fds t1) as Hcl.
    destruct (match pipe_fds with
              | Some l => close_all_pipes l t1
              | None => (t1, [])
              end) as [t2 tr2]. cbn [snd] in Hcl.
    destruct (negb (malloc_pids_ok o)).
    { cbn [x_trace x_children length seq].
      rewrite omap_app, Htr1. cbn [omap list_omap app].
      by rewrite idx_perror, Hcl, Hf0, Hw0. }
    destruct (forallb (fork_ok o) (seq 0 (Z.to_nat n))) eqn:Hf.
    - rewrite fork_from_inr by done. rewrite app_nil_l.
      pose proof (wait_from_trace o n
                    ((fun j => child_run (child o j) p j
                                 (default [] pipe_fds) t1)
                       <$> seq 0 (Z.to_nat n)) 0 0%Z) as Hw.
      destruct (wait_from o n 0 _ 0%Z) as [last_exit tr3].
      cbn [snd] in Hw. subst tr3. cbn [x_trace x_children].
      rewrite !omap_app, Htr1, Hcl, Hforks, Hwaits.
      by rewrite length_fmap, length_seq.
    - destruct (fork_from_inl o p (default [] pipe_fds) t1 _ 0 [] Hf)
        as (m & Hm & ->).
      rewrite app_nil_l. cbn [x_trace x_children].
      rewrite !omap_app, Htr1, Hforks. cbn [omap list_omap].
      rewrite idx_perror, omap_app, Hcl, Hreap.
      by rewrite length_fmap, length_seq. }
  destruct (Z.ltb 0 (n - 1)).
  - destruct (malloc_pipe_fds_ok o).
    2:{ cbn [x_trace x_children length seq omap list_omap].
        by rewrite idx_perror, Hf0, Hw0. }
    pose proof (omap_create_pipes o (Z.to_nat (n - 1)) t) as Hcp.
    destruct (create_pipes o (Z.to_nat (n - 1)) t) as [[res t1] tr1].
    cbn [snd] in Hcp. destruct res as [fds|].
    + apply (Hrest (Some fds) t1 tr1 Hcp).
    + cbn [x_trace x_children length seq]. by rewrite Hcp, Hf0, Hw0.
  - apply (Hrest None t [] eq_refl).
Qed.

End Indices.

Lemma omap_fork_forks (l : list nat) : omap fork_index (EvFork <$> l) = l.
Proof. induction l as [|i l IH]; [done |]. cbn. by rewrite IH. Qed.

Lemma omap_wait_forks (l : list nat) : omap wait_index (EvFork <$> l) = [].
Proof. induction l as [|i l IH]; [done |]. cbn. by rewrite IH. Qed.

Lemma omap_fork_waits (o : os) (kids : list child_result) :
  forall i, omap fork_index (wait_events o i kids) = [].
Proof.
  induction kids as [|cr kids IH]; intros i; [done |].
  rewrite wait_events_cons. cbn. apply IH.
Qed.

Lemma omap_wait_waits (o : os) (kids : list child_result) :
  forall i, omap wait_index (wait_events o i kids) = seq i (length kids).
Proof.
  induction kids as [|cr kids IH]; intros i; [done |].
  rewrite wait_events_cons. cbn. by rewrite IH.
Qed.

Lemma omap_reap_all (l : list nat) :
  omap wait_index ((fun j => EvWait j None) <$> l) = l /\
  omap fork_index ((fun j => EvWait j None) <$> l) = [].
Proof.
  induction l as [|i l [IH1 IH2]]; [done |]. cbn. by rewrite IH1, IH2.
Qed.

(** X11.  No child is left behind.  Whatever happens in
    [execute_pipeline] (also when an allocation, a [pipe] or a [fork]
    fails), the children it forked are children 0, 1, ... in this order,
    and the parent calls [waitpid] once for each of them, in the same
    order, before it returns. *)
Theorem forked_children_are_waited (o : os) (t : fdtable)
    (p : option Pipeline) :
  let r := execute_pipeline o t p in
  omap fork_index (x_trace r) = seq 0 (length (x_children r)) /\
  omap wait_index (x_trace r) = seq 0 (length (x_children r)).
Proof.
  cbn zeta. split.
  - rewrite (execute_pipeline_indices fork_index ltac:(done) ltac:(done)
               ltac:(done) o t p (fun l => l) (fun _ => [])).
    + apply app_nil_r.
    + apply omap_fork_forks.
    + intros i. apply omap_reap_all.
    + intros kids. apply omap_fork_waits.
    + done.
    + done.
  - rewrite (execute_pipeline_indices wait_index ltac:(done) ltac:(done)
               ltac:(done) o t p (fun _ => []) (fun l => l)).
    + done.
    + apply omap_wait_forks.
    + intros i. apply omap_reap_all.
    + intros kids. apply omap_wait_waits.
    + done.
    + done.
Qed.

(** ** Parsing, then executing *)

Lemma child_run_words (co : child_os) (cs : list Command) (n : Z)
    (i : nat) (c : Command) (w : string) (ws : list string)
    (pipe_fds : list (nat * nat)) (t : fdtable) :
  cs !! i = Some c -> argv c = Some ((Some <$> w :: ws) ++ [None]) ->
  let cr := child_run co (mkPipeline (Some cs) n) i pipe_fds t in
  c_end cr <> Faults /\
  (forall file args, EvExecvp file args ∈ c_trace cr ->
     file = Some w /\ args = (Some <$> w :: ws) ++ [None]) /\
  (forall tx path args, c_end cr = Runs tx path args ->
     path = w /\ args = (Some <$> w :: ws) ++ [None]).
Proof.
  intros Hc Ha. cbn zeta.
  unfold child_run. cbn [cmds n_cmds]. rewrite Hc, Ha.
  set (cw := if Z.ltb 0 _ then _ else _).
  assert (none_of is_execvp_event cw.2) as Hcw.
  { unfold cw. destruct (Z.ltb 0 _); [| constructor].
    apply connect_pipes_for_child_trace. }
  destruct cw as [t2 tr1]. cbn [snd] in Hcw.
  pose proof (apply_redirections_trace co c t2) as Htr.
  destruct (apply_redirections co c t2) as [[t3 tr2] | [t3 tr2]].
  - cbn [c_end c_trace]. split; [done |]. split; [| done].
    intros file args Hel. exfalso. revert Hel.
    apply (none_of_not_elem is_execvp_event); [solve_none | done].
  - destruct Htr as [Htr _].
    change (default None (((Some <$> w :: ws) ++ [None]) !! 0))
      with (Some w).
    assert (forall file args tail,
              tail = [] \/ (exists m, tail = [EvFprintf m]) ->
              EvExecvp file args
                ∈ tr1 ++ tr2 ++
                  EvExecvp (Some w) ((Some <$> w :: ws) ++ [None]) :: tail ->
              file = Some w /\ args = (Some <$> w :: ws) ++ [None]) as Hex.
    { intros file args tail Htail Hel. rewrite !elem_of_app in Hel.
      destruct Hel as [Hel | [Hel | Hel]].
      - exfalso. revert Hel. by apply (none_of_not_elem is_execvp_event).
      - exfalso. revert Hel. by apply (none_of_not_elem is_execvp_event).
      - apply elem_of_cons in Hel as [[= -> ->] | Hel]; [done |].
        destruct Htail as [-> | [m ->]].
        + by apply elem_of_nil in Hel.
        + by apply list_elem_of_singleton in Hel. }
    destruct (execvp_ok co); cbn [c_end c_trace].
    + split; [done |]. split.
      * intros file args. apply Hex. by left.
      * by intros tx path args [= _ <- <-].
    + split; [done |]. split; [| done].
      intros file args. apply Hex. right. by eexists.
Qed.

(** X12.  [parse_line] gives [execute_pipeline] what it needs.  When
    [parse_line] returns 0 and its [Pipeline] is executed, child [i] is the
    command of segment [i] of the line, whose words are [w :: ws]: the
    child never reads through a NULL pointer, and when it reaches [execvp]
    the call is [execvp(w, {w, ws.., NULL})], the words of the segment in
    order and nothing else, on every system. *)
Theorem parsed_pipeline_children (line : option string) (err_sz : nat)
    (o : os) (t : fdtable) (i : nat) (cr : child_result) :
  ret (parse_line line err_sz) = 0%Z ->
  x_children
    (execute_pipeline o t (Some (out (parse_line line err_sz)))) !! i
    = Some cr ->
  exists seg w ws,
    split_pipes (tokenize line) !! i = Some seg /\
    seg_words seg (w :: ws) /\
    c_end cr <> Faults /\
    (forall file args, EvExecvp file args ∈ c_trace cr ->
       file = Some w /\ args = (Some <$> w :: ws) ++ [None]) /\
    (forall tx path args, c_end cr = Runs tx path args ->
       path = w /\ args = (Some <$> w :: ws) ++ [None]).
Proof.
  unfold parse_line. intros Hret Hcr.
  apply parse_tokens_ok in Hret as (_ & _ & _ & _ & cs & E & Hcs).
  rewrite E in Hcr. cbn [out] in Hcr.
  destruct (execute_pipeline_children_fresh o t _ i cr Hcr)
    as (fds & t1 & _ & _ & Hi & ->).
  cbn [n_cmds] in Hi.
  pose proof (Forall2_length _ _ _ Hcs) as Hlen.
  destruct (lookup_lt_is_Some_2 (split_pipes (tokenize line)) i)
    as [seg Hseg]; [lia |].
  destruct (Forall2_lookup_l _ _ _ _ _ Hcs Hseg) as (c & Hc & Hcmd).
  destruct Hcmd as (ws' & Hw & Hne & Ha & _).
  destruct ws' as [|w ws]; [done |].
  exists seg, w, ws. split; [done |]. split; [done |].
  by apply (child_run_words _ _ _ _ c).
Qed.

Lemma parsed_pipeline_children_witness :
  let cr :=
    mkChild
      (Runs [Some (PipeRead 0); Some (Inherited 1); Some (Inherited 2);
             None; None]
         "wc" [Some "wc"; None])
      [EvClose 3; EvClose 4; EvExecvp (Some "wc") [Some "wc"; None]] in
  exists seg w ws,
    split_pipes (tokenize (Some "ls -l | wc")) !! 1 = Some seg /\
    seg_words seg (w :: ws) /\
    c_end cr <> Faults /\
    (forall file args, EvExecvp file args ∈ c_trace cr ->
       file = Some w /\ args = (Some <$> w :: ws) ++ [None]) /\
    (forall tx path args, c_end cr = Runs tx path args ->
       path = w /\ args = (Some <$> w :: ws) ++ [None]).
Proof.
  intros cr.
  apply (parsed_pipeline_children (Some "ls -l | wc") ERRBUF_SZ os_ok
           shell_fds 1 cr); reflexivity.
Defined.

(** ** [close_all_pipes] *)

Lemma close_all_pipes_events (pipe_fds : list (nat * nat)) :
  forall t, (close_all_pipes pipe_fds t).2 = EvClose <$> pipe_ends pipe_fds.
Proof.
  induction pipe_fds as [|[r w] rest IH]; intros t; [done |].
  rewrite close_all_pipes_cons. cbn [snd]. rewrite IH. done.
Qed.

(** X22.  [close_all_pipes] closes the two ends of every pipe of the
    array, the read end then the write end, pipe after pipe, and does
    nothing else: afterwards each of these descriptors is closed and every
    other descriptor is as before.  Called again on the same array it
    changes no descriptor. *)
Theorem close_all_pipes_closes (pipe_fds : list (nat * nat)) (t : fdtable) :
  let r := close_all_pipes pipe_fds t in
  r.2 = EvClose <$> pipe_ends pipe_fds /\
  (forall fd, fd_get r.1 fd =
     if decide (fd ∈ pipe_ends pipe_fds) then None else fd_get t fd) /\
  agree r.1 (close_all_pipes pipe_fds r.1).1.
Proof.
  cbn zeta. split; [apply close_all_pipes_events |].
  split; [apply fd_get_close_all |].
  intros fd. rewrite !fd_get_close_all. by case_decide.
Qed.

(** ** The status of the last command *)

Lemma child_run_status (co : child_os) (p : Pipeline) (cs : list Command)
    (i : nat) (c : Command) (a : list (option string)) (path : string)
    (pipe_fds : list (nat * nat)) (t : fdtable) :
  cmds p = Some cs -> cs !! i = Some c ->
  argv c = Some a -> a !! 0 = Some (Some path) ->
  exit_status_of (wait_status co (child_run co p i pipe_fds t)) =
    if redirection_fails co c then 1%Z
    else if execvp_ok co then exit_status_of (program_end co)
    else 127%Z.
Proof.
  intros Hcs Hc Ha Hp. unfold child_run. rewrite Hcs, Hc, Ha, Hp.
  destruct (if Z.ltb 0 (n_cmds p - 1) then _ else _) as [t2 tr1].
  pose proof (apply_redirections_fails co c t2) as Hf.
  destruct (apply_redirections co c t2) as [[t3 tr2] | [t3 tr2]];
    rewrite Hf; [done |].
  cbn [default]. by destruct (execvp_ok co).
Qed.

(** X23.  What [execute_pipeline] returns when the parent's calls all
    succeed, for a last command with a program name: 1 when a redirection
    of the last command fails in its child (a missing input file, say),
    127 when its program cannot be run, and otherwise what the program
    itself ends with (its exit status, or 1 for a signal).  The other
    commands of the pipeline have no part in it. *)
Theorem last_command_status (o : os) (t : fdtable) (p : Pipeline)
    (cs : list Command) (c : Command) (a : list (option string))
    (path : string) :
  let last := Z.to_nat (n_cmds p - 1) in
  (0 < n_cmds p)%Z -> parent_call_fails o (n_cmds p) = false ->
  cmds p = Some cs -> cs !! last = Some c ->
  argv c = Some a -> a !! 0 = Some (Some path) ->
  x_ret (execute_pipeline o t (Some p)) =
    if redirection_fails (child o last) c then 1%Z
    else if execvp_ok (child o last) then
      exit_status_of (program_end (child o last))
    else 127%Z.
Proof.
  intros last Hn Hok Hcs Hc Ha Hp.
  destruct (execute_pipeline_success o t p ltac:(lia) Hok)
    as (fds & t1 & tr1 & t2 & tr2 & E & _).
  cbn zeta in E. rewrite E. cbn [x_ret].
  rewrite (wait_from_last o (n_cmds p) _ 0 0%Z
             (child_run (child o last) p last fds t1)).
  - by eapply child_run_status.
  - lia.
  - rewrite Nat.sub_0_r, list_lookup_fmap.
    fold last. rewrite lookup_seq_lt by (unfold last; lia). done.
Qed.

Lemma last_command_status_witness :
  let p := out (parse_line (Some "ls | nosuchcmd") ERRBUF_SZ) in
  let c := mkCommand (Some [Some "nosuchcmd"; None]) None None None in
  let last := Z.to_nat (n_cmds p - 1) in
  x_ret (execute_pipeline os_not_found shell_fds (Some p)) =
    if redirection_fails (child os_not_found last) c then 1%Z
    else if execvp_ok (child os_not_found last) then
      exit_status_of (program_end (child os_not_found last))
    else 127%Z.
Proof.
  intros p c.
  apply (last_command_status os_not_found shell_fds p
           [mkCommand (Some [Some "ls"; None]) None None None; c] c
           [Some "nosuchcmd"; None] "nosuchcmd"); reflexivity.
Defined.

(** ** The parser when allocations fail *)

Section AnyOracle.

Variable ok : nat -> bool.

Lemma any_strdup (v : string) :
  yields (Mem.strdup ok v) (fun r => forall x, r = Some x -> Mem.s_val x = v).
Proof.
  unfold Mem.strdup. eapply yields_bind; [apply yields_any |].
  intros [l|] _; apply yields_ret; [by intros x [= <-] | done].
Qed.

Lemma any_push_token (tb : Mem.tokbuf) (tok : string) :
  yields (Mem.push_token ok tb tok)
    (fun r => (r.1 = 0%Z /\
               tokens_of r.2 = push_token (tokens_of tb) tok) \/
              r.1 = (-1)%Z).
Proof.
  unfold Mem.push_token, push_token, tokens_of.
  destruct (Nat.leb (String.length tok) 0); [apply yields_ret; by left |].
  eapply yields_bind with
    (P := fun g => forall tb1, g = Some tb1 -> Mem.t_arr tb1 = Mem.t_arr tb).
  { destruct (Nat.leb _ _); [| apply yields_ret; by intros tb1 [= <-]].
    eapply yields_bind; [apply yields_any |].
    intros [l|] _; apply yields_ret; [by intros tb1 [= <-] | done]. }
  intros [tb1|] Hg; [| apply yields_ret; by right].
  eapply yields_bind; [apply any_strdup |].
  intros [x|] Hx; apply yields_ret; [| by right].
  left. split; [done |]. cbn [snd Mem.t_arr].
  rewrite fmap_app, (Hg tb1 eq_refl). cbn [fmap list_fmap].
  by rewrite (Hx x eq_refl).
Qed.

Lemma any_tok_loop (fuel : nat) :
  forall p tb,
    yields (Mem.tok_loop ok fuel p tb)
      (fun r => forall tb', r = inr tb' ->
         tokens_of tb' = tok_loop fuel p (tokens_of tb)).
Proof.
  induction fuel as [|fuel IH]; intros p tb; cbn [Mem.tok_loop tok_loop].
  { apply yields_ret. by intros tb' [= <-]. }
  assert (forall tok q,
    yields (r ← Mem.push_token ok tb tok;
            if Z.eqb r.1 0 then Mem.tok_loop ok fuel q r.2
            else mret (inl r.2))
      (fun r => forall tb', r = inr tb' ->
         tokens_of tb'
         = tok_loop fuel q (push_token (tokens_of tb) tok))) as Hstep.
  { intros tok q. eapply yields_bind; [apply any_push_token |].
    intros r [[-> <-] | ->]; [apply IH | by apply yields_ret]. }
  destruct (is_nul (deref p)); [apply yields_ret; by intros tb' [= <-] |].
  destruct (skip_ws p) as [|c p'];
    [apply yields_ret; by intros tb' [= <-] |].
  destruct (is_nul c); [apply yields_ret; by intros tb' [= <-] |].
  destruct (starts_2gt c p'); [apply Hstep |].
  destruct (is_op_char c); [apply Hstep |].
  destruct (scan_word (String c p')) as [w rest]. apply Hstep.
Qed.

Lemma any_tokenize (line : option string) (err_sz : nat) :
  yields (Mem.tokenize ok line err_sz)
    (fun r => (r.1.1 = 0%Z /\ tokens_of r.1.2 = tokenize line /\ r.2 = "") \/
              (r.1.1 = 1%Z /\ r.1.2 = Mem.mkTokbuf None [] 0 /\
               r.2 = snprintf err_sz MSG_OOM)).
Proof.
  unfold Mem.tokenize, tokenize.
  destruct line as [l|]; [| apply yields_ret; by left].
  eapply yields_bind; [apply any_tok_loop |].
  intros [tb | tb] Hr.
  - eapply yields_bind; [apply yields_any |]. intros _ _.
    apply yields_ret. by right.
  - apply yields_ret. left. split; [done |]. split; [| done].
    by apply Hr.
Qed.

Lemma any_replace_file (old : option Mem.cstr) (f : Mem.cstr) :
  yields (Mem.replace_file ok old f)
    (fun r => forall x, r = Some x -> Mem.s_val x = Mem.s_val f).
Proof.
  unfold Mem.replace_file.
  eapply yields_bind; [apply yields_any |]. intros _ _.
  apply any_strdup.
Qed.

Lemma any_scan_redirs (n : nat) (l : bool) (seg : list Mem.cstr) :
  forall c,
    yields (Mem.scan_redirs ok n l seg c)
      (fun r => slot_oom r \/
                slot_refines r
                  (scan_redirs n l (Mem.s_val <$> seg) (erase_cmd c))).
Proof.
  induction seg as [seg IH] using (induction_ltof1 _ length).
  unfold ltof in IH. intros c.
  destruct seg as [|t rest]; [apply yields_ret; right; by eexists |].
  rewrite fmap_cons. cbn [Mem.scan_redirs scan_redirs].
  assert (forall msg old f rest' (set : option Mem.cstr -> Mem.Command)
                 (pset : option string -> Command),
    length rest' < length (t :: rest) ->
    (forall x, erase_cmd (set (Some x)) = pset (Some (Mem.s_val x))) ->
    yields
      (if is_op (Mem.s_val f) then mret (inl (msg, c))
       else
         s ← Mem.replace_file ok old f;
         match s with
         | None => mret (inl (MSG_OOM, set None))
         | Some _ => Mem.scan_redirs ok n l rest' (set s)
         end)
      (fun r => slot_oom r \/
         slot_refines r
           (if is_op (Mem.s_val f) then inl msg
            else scan_redirs n l (Mem.s_val <$> rest')
                   (pset (Some (Mem.s_val f)))))) as Hone.
  { intros msg old f rest' set pset Hlen Hset.
    destruct (is_op (Mem.s_val f)); [apply yields_ret; right; by eexists |].
    eapply yields_bind; [apply any_replace_file |].
    intros [x|] Hx; [| apply yields_ret; left; by eexists].
    rewrite <- (Hx x eq_refl), <- Hset. by apply IH. }
  destruct (tok_is (Mem.s_val t) "<").
  { destruct rest as [|f rest']; [apply yields_ret; right; by eexists |].
    rewrite fmap_cons.
    apply (Hone _ _ f rest' (fun s => Mem.set_in_file s c)
             (fun s => set_in_file s (erase_cmd c)));
      [simpl; lia | done]. }
  destruct (tok_is (Mem.s_val t) ">").
  { destruct rest as [|f rest']; [apply yields_ret; right; by eexists |].
    rewrite fmap_cons.
    apply (Hone _ _ f rest' (fun s => Mem.set_out_file s c)
             (fun s => set_out_file s (erase_cmd c)));
      [simpl; lia | done]. }
  destruct (tok_is (Mem.s_val t) "2>").
  { destruct rest as [|f rest']; [apply yields_ret; right; by eexists |].
    rewrite fmap_cons.
    apply (Hone _ _ f rest' (fun s => Mem.set_err_file s c)
             (fun s => set_err_file s (erase_cmd c)));
      [simpl; lia | done]. }
  apply IH. simpl. lia.
Qed.

Lemma any_fill_argv (la : Mem.loc) (seg : list Mem.cstr) :
  forall k a,
    yields (Mem.fill_argv ok la seg k a)
      (fun r => r = None \/
         exists a',
           r = Some ((fill_argv (Mem.s_val <$> seg) k (erase_argv a)).1, a')
           /\ erase_argv a'
              = (fill_argv (Mem.s_val <$> seg) k (erase_argv a)).2).
Proof.
  induction seg as [seg IH] using (induction_ltof1 _ length).
  unfold ltof in IH. intros k a.
  destruct seg as [|t rest]; [apply yields_ret; right; by eexists |].
  rewrite fmap_cons. cbn [Mem.fill_argv fill_argv].
  destruct (is_redir (Mem.s_val t)).
  { destruct rest as [|f rest']; [apply yields_ret; right; by eexists |].
    rewrite fmap_cons. apply IH. simpl. lia. }
  destruct (tok_is (Mem.s_val t) "|"); [apply IH; simpl; lia |].
  eapply yields_bind; [apply any_strdup |].
  intros [x|] Hx.
  - rewrite <- (Hx x eq_refl).
    change (Some (Mem.s_val x)) with (Mem.s_val <$> Some x).
    rewrite <- erase_argv_insert. apply IH. simpl. lia.
  - eapply yields_bind; [apply yields_any |]. intros _ _.
    eapply yields_bind; [apply yields_any |]. intros _ _.
    apply yields_ret. by left.
Qed.

Lemma any_build_argv (seg : list Mem.cstr) :
  yields (Mem.build_argv ok seg)
    (fun r => (r.1 = 1%Z /\ r.2 = None) \/
              (r.1 = 0%Z /\
               exists la a, r.2 = Some (la, a) /\
                            erase_argv a = build_argv (Mem.s_val <$> seg))).
Proof.
  unfold Mem.build_argv, build_argv.
  eapply yields_bind; [apply yields_any |].
  intros [la|] _; [| apply yields_ret; by left].
  eapply yields_bind; [apply any_fill_argv |].
  intros r [-> | (a' & -> & Ha)]; [apply yields_ret; by left |].
  rewrite erase_argv_replicate in *.
  apply yields_ret. right. split; [done |].
  exists la. eexists. split; [done |].
  rewrite erase_argv_insert, Ha.
  by destruct (fill_argv _ _ _).
Qed.

Lemma any_do_segment (n : nat) (l : bool) (seg : list Mem.cstr)
    (c : Mem.Command) :
  yields (Mem.do_segment ok n l seg c)
    (fun r => slot_oom r \/
              slot_refines r
                (do_segment n l (Mem.s_val <$> seg) (erase_cmd c))).
Proof.
  unfold Mem.do_segment, do_segment.
  eapply yields_bind; [apply any_scan_redirs |].
  intros r [(c' & ->) | Hr]; [apply yields_ret; left; by eexists |].
  destruct (scan_redirs n l (Mem.s_val <$> seg) (erase_cmd c))
    as [msg | c1]; cbn [slot_refines] in Hr.
  { destruct Hr as (c' & ->). apply yields_ret. right. by eexists. }
  destruct Hr as (c' & -> & Hc').
  eapply yields_bind; [apply any_build_argv |].
  intros [rc b] [[Hrc Hb] | (Hrc & la & a & Hb & Ha)]; cbn [fst snd] in *.
  { rewrite Hrc. cbn [Z.eqb negb]. apply yields_ret. left. by eexists. }
  rewrite Hrc, Hb. cbn [Z.eqb negb]. rewrite argv_empty_erase.
  assert (erase_cmd (Mem.set_argv (Some (la, a)) c')
          = set_argv (Some (build_argv (Mem.s_val <$> seg))) c1) as E.
  { rewrite <- Hc', <- Ha. done. }
  rewrite E. destruct (argv_empty _); apply yields_ret; right; by eexists.
Qed.

Lemma any_seg_loop (err_sz n : nat) (tb : Mem.tokbuf) (lc : Mem.loc)
    (rest : list Mem.cstr) :
  forall cur idx cs,
    yields (Mem.seg_loop ok err_sz n tb lc rest cur idx cs)
      (fun r => oom_result err_sz r \/
                refines r
                  (seg_loop err_sz n (Mem.s_val <$> rest)
                     (Mem.s_val <$> cur) idx (erase_cmd <$> cs))).
Proof.
  assert (forall l cur idx cs
                 (k : Mem.Command -> Mem.M Mem.parse_result)
                 (pk : Command -> parse_result),
    (forall c, yields (k c)
                 (fun r => oom_result err_sz r \/
                           refines r (pk (erase_cmd c)))) ->
    yields
      (r ← Mem.do_segment ok n l cur (default Mem.zero_cmd (cs !! idx));
       match r with
       | inl e =>
           Mem.parse_fail err_sz tb
             (Some (Mem.mkPipeline (Some (lc, <[idx := e.2]> cs))
                      (Z.of_nat n)))
             (snprintf err_sz e.1)
       | inr c => k c
       end)
      (fun r => oom_result err_sz r \/
         refines r
           match do_segment n l (Mem.s_val <$> cur)
                   (default zero_cmd ((erase_cmd <$> cs) !! idx)) with
           | inl msg =>
               parse_fail err_sz
                 (mkPipeline (Some (erase_cmd <$> cs)) (Z.of_nat n)) msg
           | inr c => pk c
           end)) as Hseg.
  { intros l cur idx cs k pk Hk.
    eapply yields_bind; [apply any_do_segment |].
    intros r [(c' & ->) | Hr].
    { intros h r h' E. left.
      exact (yields_parse_fail _ _ _ _ _ _ _ E). }
    rewrite erase_slot in Hr.
    destruct (do_segment _ _ _ _) as [msg | c1]; cbn [slot_refines] in Hr.
    - destruct Hr as (c' & ->).
      intros h r h' E. right.
      destruct (yields_parse_fail _ _ _ _ _ _ _ E) as (Hr & Ho & He).
      split; [done |]. split; [done |]. by eexists.
    - destruct Hr as (c' & -> & <-). apply Hk. }
  induction rest as [|t rest' IH]; intros cur idx cs.
  - cbn [fmap list_fmap Mem.seg_loop seg_loop].
    apply (Hseg true cur idx cs
             (fun c =>
                Mem.free_tokens tb;;
                mret (Mem.mkResult 0%Z
                        (Some (Mem.mkPipeline
                                 (Some (lc, <[idx := c]> cs)) (Z.of_nat n)))
                        EmptyString))
             (fun c =>
                mkResult 0%Z
                  (mkPipeline (Some (<[idx := c]> (erase_cmd <$> cs)))
                     (Z.of_nat n))
                  EmptyString)).
    intros c. eapply yields_bind; [apply yields_any |]. intros _ _.
    apply yields_ret. right. split; [done |]. split; [done |].
    eexists. split; [done |]. unfold erase_pipeline. cbn.
    by rewrite list_fmap_insert.
  - rewrite fmap_cons. cbn [Mem.seg_loop seg_loop].
    destruct (tok_is (Mem.s_val t) "|").
    + apply (Hseg false cur idx cs
               (fun c =>
                  Mem.seg_loop ok err_sz n tb lc rest' [] (S idx)
                    (<[idx := c]> cs))
               (fun c =>
                  seg_loop err_sz n (Mem.s_val <$> rest') [] (S idx)
                    (<[idx := c]> (erase_cmd <$> cs)))).
      intros c. rewrite <- list_fmap_insert. apply (IH [] (S idx)).
    + replace ((Mem.s_val <$> cur) ++ [Mem.s_val t])
        with (Mem.s_val <$> (cur ++ [t])) by by rewrite fmap_app.
      apply IH.
Qed.

Lemma any_parse_line (line : option string) (err_sz : nat) :
  yields (Mem.parse_line ok line err_sz)
    (fun r => oom_result err_sz r \/ refines r (parse_line line err_sz)).
Proof.
  unfold Mem.parse_line, parse_line, parse_tokens.
  eapply yields_bind; [apply any_tokenize |].
  intros [[rc tb] e] [(Hrc & Htoks & He) | (Hrc & Htb & He)];
    cbn [fst snd] in *.
  2:{ rewrite Hrc, He. cbn [Z.eqb negb]. intros h r h' E. left.
      exact (yields_parse_fail _ _ _ _ _ _ _ E). }
  unfold tokens_of in Htoks. rewrite Hrc, Htoks. cbn [Z.eqb negb].
  assert (forall msg,
    yields (Mem.parse_fail err_sz tb (Some Mem.pipeline_init)
              (snprintf err_sz msg))
      (fun r => oom_result err_sz r \/
                refines r (parse_fail err_sz pipeline_init msg))) as Hfail.
  { intros msg. intros h r h' E. right.
    destruct (yields_parse_fail _ _ _ _ _ _ _ E) as (Hr & Ho & He').
    split; [done |]. split; [done |]. by eexists. }
  destruct (tokenize line) as [|first tl].
  { eapply yields_bind; [apply yields_any |]. intros _ _.
    apply yields_ret. right. split; [done |]. split; [done |]. by eexists. }
  destruct (tok_is first "|"); [apply Hfail |].
  destruct (tok_is (List.last _ _) "|"); [apply Hfail |].
  destruct (adjacent_pipes _); [apply Hfail |].
  eapply yields_bind; [apply yields_any |].
  intros [lc|] _.
  - intros h r h' E. apply any_seg_loop in E.
    rewrite Htoks, fmap_replicate in E. exact E.
  - intros h r h' E. left. exact (yields_parse_fail _ _ _ _ _ _ _ E).
Qed.

(** *** The capacity of the token array *)

Lemma cap_ok_empty : cap_ok (Mem.mkTokbuf None [] 0).
Proof.
  unfold cap_ok. cbn. split; [lia |]. split; [lia |]. split; [by left |].
  done.
Qed.

Lemma cap_push_token (tb : Mem.tokbuf) (tok : string) :
  cap_ok tb ->
  yields (Mem.push_token ok tb tok) (fun r => r.1 = 0%Z -> cap_ok r.2).
Proof.
  intros Hok. pose proof Hok as (Hle & Hmax & Hpow & Hptr & Harr0).
  unfold Mem.push_token.
  destruct (Nat.leb (String.length tok) 0); [by apply yields_ret |].
  eapply yields_bind with
    (P := fun g => match g with
                   | Some tb1 =>
                       Mem.t_arr tb1 = Mem.t_arr tb /\
                       length (Mem.t_arr tb) < Mem.t_cap tb1 /\
                       Mem.t_cap tb1
                         <= Nat.max 8 (2 * length (Mem.t_arr tb)) /\
                       (exists k, Mem.t_cap tb1 = 8 * 2 ^ k) /\
                       Mem.t_ptr tb1 <> None
                   | None => True
                   end).
  { destruct (Nat.leb_spec (Mem.t_cap tb) (length (Mem.t_arr tb)))
      as [Hfull | Hroom].
    - eapply yields_bind; [apply yields_any |].
      intros [l|] _; apply yields_ret; [| done]. cbn.
      split; [done |].
      destruct (Nat.eqb_spec (Mem.t_cap tb) 0) as [E0 | Hne].
      + split; [lia |]. split; [lia |]. split; [by exists 0 | done].
      + destruct Hpow as [? | [k Hk]]; [lia |].
        split; [lia |]. split; [lia |]. split; [| done].
        exists (S k). rewrite Hk. cbn [Nat.pow]. lia.
    - apply yields_ret. split; [done |]. split; [lia |]. split; [lia |].
      destruct Hpow as [? | Hk]; [lia |]. split; [done |].
      intros E. apply Hptr in E. lia. }
  intros [tb1|] Hg; [| by apply yields_ret].
  destruct Hg as (Harr & Hlt & Hmax1 & Hpow1 & Hptr1).
  eapply yields_bind; [apply yields_any |].
  intros [x|] _; apply yields_ret; [| done]. intros _.
  unfold cap_ok. cbn. rewrite length_app, Harr. cbn [length].
  split; [lia |]. split; [lia |]. split; [by right |].
  destruct Hpow1 as [k Hk].
  assert (0 < 2 ^ k) by (apply Nat.neq_0_lt_0, Nat.pow_nonzero; lia).
  split; [split; [lia | done] |].
  split; [lia |]. intros E. by apply app_nil in E as [_ ?].
Qed.

Lemma cap_tok_loop (fuel : nat) :
  forall p tb,
    cap_ok tb ->
    yields (Mem.tok_loop ok fuel p tb)
      (fun r => forall tb', r = inr tb' -> cap_ok tb').
Proof.
  induction fuel as [|fuel IH]; intros p tb Hok; cbn [Mem.tok_loop].
  { apply yields_ret. by intros tb' [= <-]. }
  assert (forall tok q,
    yields (r ← Mem.push_token ok tb tok;
            if Z.eqb r.1 0 then Mem.tok_loop ok fuel q r.2
            else mret (inl r.2))
      (fun r => forall tb', r = inr tb' -> cap_ok tb')) as Hstep.
  { intros tok q. eapply yields_bind; [by apply cap_push_token |].
    intros r Hr. destruct (Z.eqb_spec r.1 0); [by apply IH, Hr |].
    by apply yields_ret. }
  destruct (is_nul (deref p)); [apply yields_ret; by intros tb' [= <-] |].
  destruct (skip_ws p) as [|c p'];
    [apply yields_ret; by intros tb' [= <-] |].
  destruct (is_nul c); [apply yields_ret; by intros tb' [= <-] |].
  destruct (starts_2gt c p'); [apply Hstep |].
  destruct (is_op_char c); [apply Hstep |].
  destruct (scan_word (String c p')) as [w rest]. apply Hstep.
Qed.

Lemma cap_tokenize (line : option string) (err_sz : nat) :
  yields (Mem.tokenize ok line err_sz) (fun r => cap_ok r.1.2).
Proof.
  unfold Mem.tokenize.
  destruct line as [l|]; [| apply yields_ret; apply cap_ok_empty].
  eapply yields_bind; [apply cap_tok_loop, cap_ok_empty |].
  intros [tb | tb] Hr.
  - eapply yields_bind; [apply yields_any |]. intros _ _.
    apply yields_ret. apply cap_ok_empty.
  - apply yields_ret. by apply Hr.
Qed.

End AnyOracle.

(** X13.  What a failed allocation can do to [parse_line].  Whichever
    calls of [malloc], [calloc], [realloc] and [strdup] fail, [parse_line]
    ends without a fault, and either its return value, its [Pipeline] and
    its message are those it gives when no allocation fails, or it returns
    1 with the empty [Pipeline] and the message "Out of memory.".  When no
    allocation fails the first case holds. *)
Theorem parse_line_allocation_failure (ok : nat -> bool)
    (base : gset Mem.loc) (ls : list Mem.loc) (h : Mem.heap)
    (line : option string) (err_sz : nat) :
  holds base ls h ->
  exists r h',
    Mem.parse_line ok line err_sz h = Mem.Done r h' /\
    (refines r (parse_line line err_sz) \/ oom_result err_sz r) /\
    ((forall n, ok n = true) -> refines r (parse_line line err_sz)).
Proof.
  intros H.
  destruct (runs_parse_line ok base ls line err_sz h H)
    as (r & h' & E & _).
  exists r, h'. split; [done |]. split.
  - destruct (any_parse_line ok line err_sz h r h' E); auto.
  - intros Hok. exact (yields_parse_line ok Hok line err_sz h r h' E).
Qed.

Lemma parse_line_allocation_failure_witness :
  let ok := fun n => negb (Nat.eqb n 3) in
  let h := Mem.mkHeap ∅ 0 0 in
  exists r h',
    Mem.parse_line ok (Some "ls | wc") ERRBUF_SZ h = Mem.Done r h' /\
    (refines r (parse_line (Some "ls | wc") ERRBUF_SZ) \/
     oom_result ERRBUF_SZ r) /\
    ((forall n, ok n = true) ->
     refines r (parse_line (Some "ls | wc") ERRBUF_SZ)).
Proof.
  intros ok h.
  apply (parse_line_allocation_failure ok ∅ [] h).
  split; [constructor |]. split; [intros l Hl; by apply elem_of_nil in Hl |].
  split.
  - apply (bool_decide_unpack _). vm_compute. reflexivity.
  - intros l Hl. by apply not_elem_of_empty in Hl.
Defined.

(** X14.  [tokenize] and the heap.  Whichever allocations fail,
    [tokenize] ends without a fault.  It returns 0 with an empty message
    and the tokens of the line, each in a block of its own, in an array
    whose block is NULL exactly when there is no token; or it returns 1
    with "Out of memory.", [*tokens_out] NULL and no block left: the
    tokens made before the failure and their array are released. *)
Theorem tokenize_allocation_failure (ok : nat -> bool)
    (base : gset Mem.loc) (ls : list Mem.loc) (h : Mem.heap)
    (line : option string) (err_sz : nat) :
  holds base ls h ->
  exists rc tb e h',
    Mem.tokenize ok line err_sz h = Mem.Done (rc, tb, e) h' /\
    ((rc = 0%Z /\ e = "" /\ tokens_of tb = tokenize line /\
      (Mem.t_ptr tb = None <-> tokenize line = []) /\
      holds base (locs_tokbuf tb ++ ls) h') \/
     (rc = 1%Z /\ e = snprintf err_sz MSG_OOM /\
      tb = Mem.mkTokbuf None [] 0 /\ holds base ls h')).
Proof.
  intros H.
  destruct (runs_tokenize ok base ls line err_sz h H)
    as ([[rc tb] e] & h' & E & Hwf & Hh & _).
  cbn [fst snd] in *. exists rc, tb, e, h'. split; [done |].
  pose proof (cap_tokenize ok line err_sz h _ h' E) as Hcap.
  destruct (any_tokenize ok line err_sz h _ h' E)
    as [(Hrc & Htoks & He) | (Hrc & Htb & He)]; cbn [fst snd] in *.
  - left. split; [done |]. split; [done |]. split; [done |].
    split; [| done].
    destruct Hcap as (_ & _ & _ & Hptr & Harr0).
    rewrite <- Htoks, <- Hptr, Harr0. unfold tokens_of. split.
    + by intros ->.
    + apply fmap_nil_inv.
  - right. subst tb. done.
Qed.

Lemma tokenize_allocation_failure_witness :
  let ok := fun n => Nat.ltb n 2 in
  let h := Mem.mkHeap ∅ 0 0 in
  exists rc tb e h',
    Mem.tokenize ok (Some "ls -l") ERRBUF_SZ h = Mem.Done (rc, tb, e) h' /\
    ((rc = 0%Z /\ e = "" /\ tokens_of tb = tokenize (Some "ls -l") /\
      (Mem.t_ptr tb = None <-> tokenize (Some "ls -l") = []) /\
      holds ∅ (locs_tokbuf tb ++ []) h') \/
     (rc = 1%Z /\ e = snprintf ERRBUF_SZ MSG_OOM /\
      tb = Mem.mkTokbuf None [] 0 /\ holds ∅ [] h')).
Proof.
  intros ok h.
  apply (tokenize_allocation_failure ok ∅ [] h).
  split; [constructor |]. split; [intros l Hl; by apply elem_of_nil in Hl |].
  split.
  - apply (bool_decide_unpack _). vm_compute. reflexivity.
  - intros l Hl. by apply not_elem_of_empty in Hl.
Defined.

(** X15.  The token array and its capacity.  Whatever [tokenize] returns,
    and whichever allocations fail, the array it leaves is the one the
    doubling of [push_token] gives: no array when there is no token, and
    otherwise 8, 16, 32, ... slots, at least as many as there are tokens
    (no token is written past the end of the array) and at most twice as
    many once the first 8 are used. *)
Theorem token_array_capacity (ok : nat -> bool) (base : gset Mem.loc)
    (ls : list Mem.loc) (h : Mem.heap) (line : option string)
    (err_sz : nat) :
  holds base ls h ->
  exists rc tb e h',
    Mem.tokenize ok line err_sz h = Mem.Done (rc, tb, e) h' /\ cap_ok tb.
Proof.
  intros H.
  destruct (runs_tokenize ok base ls line err_sz h H)
    as ([[rc tb] e] & h' & E & _).
  exists rc, tb, e, h'. split; [done |].
  exact (cap_tokenize ok line err_sz h _ h' E).
Qed.

Lemma token_array_capacity_witness :
  let ok := fun _ : nat => true in
  let h := Mem.mkHeap ∅ 0 0 in
  exists rc tb e h',
    Mem.tokenize ok (Some "a b c d e f g h i") ERRBUF_SZ h
    = Mem.Done (rc, tb, e) h' /\ cap_ok tb.
Proof.
  intros ok h.
  apply (token_array_capacity ok ∅ [] h).
  split; [constructor |]. split; [intros l Hl; by apply elem_of_nil in Hl |].
  split.
  - apply (bool_decide_unpack _). vm_compute. reflexivity.
  - intros l Hl. by apply not_elem_of_empty in Hl.
Defined.

(** X16.  [build_argv] and the heap.  Whichever allocations fail,
    [build_argv] ends without a fault.  It returns 0 with an array in a
    block of its own whose entries are the words of the segment, each in
    a block of its own, then NULL (for a segment made of words and complete
    redirections, [ws] being its words); or it returns 1 with
    [*argv_out] NULL and no block left: the strings copied before the
    failure and the array are released. *)
Theorem build_argv_allocation_failure (ok : nat -> bool)
    (base : gset Mem.loc) (ls : list Mem.loc) (h : Mem.heap)
    (seg : list Mem.cstr) (ws : list string) :
  holds base ls h -> seg_words (Mem.s_val <$> seg) ws ->
  exists rc a h',
    Mem.build_argv ok seg h = Mem.Done (rc, a) h' /\
    ((rc = 0%Z /\
      exists la arr,
        a = Some (la, arr) /\ erase_argv arr = (Some <$> ws) ++ [None] /\
        holds base (locs_argv a ++ ls) h') \/
     (rc = 1%Z /\ a = None /\ holds base ls h')).
Proof.
  intros H Hws.
  destruct (runs_build_argv ok base ls seg h H)
    as ([rc a] & h' & E & _ & Hh).
  cbn [fst snd] in *. exists rc, a, h'. split; [done |].
  destruct (any_build_argv ok seg h _ h' E)
    as [[Hrc Ha] | (Hrc & la & arr & Ha & Harr)]; cbn [fst snd] in *.
  - right. subst a. done.
  - left. split; [done |]. exists la, arr. split; [done |].
    split; [| done]. rewrite Harr. by apply build_argv_seg.
Qed.

Lemma build_argv_allocation_failure_witness :
  let ok := fun _ : nat => true in
  let h := Mem.mkHeap (list_to_set [0; 1; 2; 3]) 4 4 in
  let seg := [Mem.mkCstr 0 "wc"; Mem.mkCstr 1 "<"; Mem.mkCstr 2 "in";
              Mem.mkCstr 3 "-l"] in
  exists rc a h',
    Mem.build_argv ok seg h = Mem.Done (rc, a) h' /\
    ((rc = 0%Z /\
      exists la arr,
        a = Some (la, arr) /\
        erase_argv arr = (Some <$> ["wc"; "-l"]) ++ [None] /\
        holds ∅ (locs_argv a ++ [0; 1; 2; 3]) h') \/
     (rc = 1%Z /\ a = None /\ holds ∅ [0; 1; 2; 3] h')).
Proof.
  intros ok h seg.
  apply (build_argv_allocation_failure ok ∅ [0; 1; 2; 3] h seg).
  - split; [| split; [| split]].
    + apply (bool_decide_unpack _). vm_compute. reflexivity.
    + intros l _. apply not_elem_of_empty.
    + apply (bool_decide_unpack _). vm_compute. reflexivity.
    + intros l Hl. apply (bool_decide_unpack _).
      revert l Hl. apply (bool_decide_unpack _). vm_compute. reflexivity.
  - repeat (constructor; try reflexivity).
Defined.

(** ** The read-execute loop *)

Lemma main_loop_cons (sys : nat -> os) (raw : string) (rest : list string)
    (k : nat) (t : fdtable) :
  main_loop sys (raw :: rest) k t =
    let line := strip_newline raw in
    if only_ws line then after [ShPrompt] (main_loop sys rest k t)
    else if is_exit line then ([ShPrompt], t)
    else
      let r := parse_line (Some line) ERRBUF_SZ in
      if negb (Z.eqb (ret r) 0) then
        after (ShPrompt ::
                 (if negb (is_nul (deref (err r))) then [ShError (err r)]
                  else []))
          (main_loop sys rest k t)
      else
        let x := execute_pipeline (sys k) t (Some (out r)) in
        after [ShPrompt; ShExecute (out r) x]
          (main_loop sys rest (S k) (x_fds x)).
Proof.
  cbn [main_loop]. cbn zeta. unfold after.
  destruct (only_ws _); [by destruct (main_loop sys rest k t) |].
  destruct (is_exit _); [done |].
  destruct (negb _); [by destruct (main_loop sys rest k t) |].
  by destruct (main_loop sys rest (S k) _).
Qed.

Lemma is_exit_not_ws (line : string) :
  is_exit line = true -> only_ws line = false.
Proof.
  unfold is_exit. intros H. apply String.eqb_eq in H.
  destruct line as [|c l]; [done |]. cbn [c_str only_ws] in *.
  destruct (is_nul c); [done |]. by injection H as -> _.
Qed.

Lemma only_ws_toks (line : string) : only_ws line = true -> toks line = [].
Proof.
  induction line as [|c l IH]; intros H; [apply toks_nil |].
  rewrite toks_cons. cbn [only_ws] in H.
  destruct (is_nul c); [done |].
  destruct (Ascii.eqb c " " || Ascii.eqb c "009" || Ascii.eqb c "013" ||
            Ascii.eqb c "010") eqn:E; [| done].
  assert (isspace c = true) as ->; [| by apply IH].
  rewrite !orb_true_iff, !Ascii.eqb_eq in E.
  destruct E as [[[-> | ->] | ->] | ->]; done.
Qed.

Lemma strip_newline_cons (c d : ascii) (r : string) :
  strip_newline (String c (String d r)) =
    String c (strip_newline (String d r)).
Proof. done. Qed.

Lemma strip_newline_single (c : ascii) :
  strip_newline (String c EmptyString) =
    String (if Ascii.eqb c "010"%char then "000"%char else c) EmptyString.
Proof. cbn. by destruct (Ascii.eqb c "010"). Qed.

Lemma c_str_cons (c : ascii) (s : string) (d : ascii) (w : string) :
  c_str (String c s) = String d w -> c = d /\ c_str s = w.
Proof. cbn [c_str]. destruct (is_nul c); [done |]. by intros [= -> ->]. Qed.

Lemma c_str_nil (c : ascii) (s : string) :
  c_str (String c s) = EmptyString -> c = "000"%char.
Proof.
  cbn [c_str]. unfold is_nul. by destruct (Ascii.eqb_spec c "000").
Qed.

(** The test [strcmp(line, "exit") == 0] of [main], on the line as
    [getline] read it. *)
Lemma is_exit_typed (raw : string) :
  is_exit (strip_newline raw) = true <-> exit_line raw.
Proof.
  unfold is_exit, exit_line. rewrite String.eqb_eq. split.
  - destruct raw as [|c1 [|c2 [|c3 [|c4 r4]]]].
    + done.
    + rewrite strip_newline_single. by intros [_ [=]]%c_str_cons.
    + rewrite strip_newline_cons, strip_newline_single.
      intros [_ H]%c_str_cons. by apply c_str_cons in H as [_ [=]].
    + rewrite !strip_newline_cons, strip_newline_single.
      intros [_ H]%c_str_cons. apply c_str_cons in H as [_ H].
      by apply c_str_cons in H as [_ [=]].
    + rewrite !strip_newline_cons.
      intros [-> H]%c_str_cons. apply c_str_cons in H as [-> H].
      apply c_str_cons in H as [-> H].
      destruct r4 as [|c5 r5].
      * rewrite strip_newline_single in H.
        apply c_str_cons in H as [H _].
        destruct (Ascii.eqb_spec c4 "010"); [done |]. subst c4.
        exists EmptyString. auto.
      * rewrite strip_newline_cons in H.
        apply c_str_cons in H as [-> H].
        destruct r5 as [|c6 r6].
        -- rewrite strip_newline_single in H. apply c_str_nil in H.
           destruct (Ascii.eqb_spec c5 "010") as [E | _].
           ++ rewrite E. exists (String "010" EmptyString). auto.
           ++ rewrite H. exists (String "000" EmptyString). eauto.
        -- rewrite strip_newline_cons in H. apply c_str_nil in H.
           rewrite H. exists (String "000" (String c6 r6)). eauto.
  - intros (tail & -> & [-> | [-> | [rest ->]]]); [done | done |].
    change ("exit" +:+ String "000" rest)
      with (String "e" (String "x" (String "i" (String "t"
              (String "000" rest))))).
    rewrite !strip_newline_cons.
    destruct rest as [|c r].
    + by rewrite strip_newline_single.
    + by rewrite strip_newline_cons.
Qed.

(** The loop and the test of [exit]. *)
Lemma main_loop_exit (sys : nat -> os) (input : list string)
    (k : nat) (t : fdtable) :
  (forall pre raw post,
     input = pre ++ raw :: post -> is_exit (strip_newline raw) = true ->
     main_loop sys input k t = main_loop sys (pre ++ [raw]) k t) /\
  (ShNewline ∈ (main_loop sys input k t).1 <->
   Forall (fun raw => is_exit (strip_newline raw) = false) input).
Proof.
  split.
  - intros pre raw post -> Hexit. revert k t.
    induction pre as [|r0 pre IH]; intros k t.
    + cbn [app]. rewrite !main_loop_cons. cbn zeta.
      by rewrite (is_exit_not_ws _ Hexit), Hexit.
    + cbn [app]. rewrite !main_loop_cons. cbn zeta.
      destruct (only_ws (strip_newline r0)); [by rewrite IH |].
      destruct (is_exit (strip_newline r0)); [done |].
      destruct (negb _); by rewrite IH.
  - revert k t. induction input as [|raw rest IH]; intros k t.
    { cbn. split; [constructor | set_solver]. }
    rewrite main_loop_cons. cbn zeta. rewrite Forall_cons.
    destruct (only_ws (strip_newline raw)) eqn:Hws.
    { unfold after. cbn [fst]. rewrite elem_of_app, IH.
      destruct (is_exit (strip_newline raw)) eqn:Hex;
        [by rewrite (is_exit_not_ws _ Hex) in Hws |].
      split; [intros [Hin | H]; [set_solver | done] | intros [_ H]; auto]. }
    destruct (is_exit (strip_newline raw)) eqn:Hex.
    { cbn [fst]. split; [set_solver | by intros [? _]]. }
    destruct (negb _).
    + unfold after. cbn [fst]. rewrite elem_of_app, IH. split.
      * intros [Hin | H]; [| done]. exfalso.
        destruct (negb (is_nul _)); set_solver.
      * intros [_ H]. auto.
    + unfold after. cbn [fst]. rewrite elem_of_app, IH. split.
      * intros [Hin | H]; [set_solver | done].
      * intros [_ H]. auto.
Qed.

(** X17.  The built-in [exit].  A line is [exit] when [getline] read the
    four characters [exit] and then the newline, or the end of input, or a
    NUL character; the newline is taken off before the comparison, so that
    a typed [exit] is one.  The loop of [main] stops at the first such
    line: no line after it is read, and for a first line [exit] the shell
    prints the prompt and nothing else.  The shell prints a newline before
    it leaves exactly when it leaves at the end of input, that is when no
    line is [exit]. *)
Theorem exit_ends_the_loop (sys : nat -> os) (input : list string)
    (k : nat) (t : fdtable) :
  (forall pre raw post,
     input = pre ++ raw :: post -> exit_line raw ->
     main_loop sys input k t = main_loop sys (pre ++ [raw]) k t) /\
  (ShNewline ∈ (main_loop sys input k t).1 <->
   Forall (fun raw => ~ exit_line raw) input) /\
  (forall raw post,
     input = raw :: post -> exit_line raw ->
     main_loop sys input k t = ([ShPrompt], t)) /\
  exit_line (String "e" (String "x" (String "i" (String "t"
               (String "010" EmptyString))))).
Proof.
  destruct (main_loop_exit sys input k t) as [H1 H2].
  split; [| split; [| split]].
  - intros pre raw post E Hx. apply (H1 pre raw post E).
    by apply is_exit_typed.
  - rewrite H2. apply Forall_iff. intros raw.
    rewrite <- is_exit_typed. by destruct (is_exit (strip_newline raw)).
  - intros raw post -> Hx%is_exit_typed.
    rewrite main_loop_cons. cbn zeta.
    by rewrite (is_exit_not_ws _ Hx), Hx.
  - exists (String "010" EmptyString). auto.
Qed.

Lemma syntax_msgs_head (m : string) :
  m ∈ syntax_msgs -> is_nul (deref (snprintf ERRBUF_SZ m)) = false.
Proof.
  unfold syntax_msgs. rewrite !elem_of_cons, elem_of_nil.
  intros [-> | [-> | [-> | [-> | [-> | [-> | []]]]]]]; reflexivity.
Qed.

Lemma syntax_msgs_fit (m : string) :
  m ∈ syntax_msgs -> snprintf ERRBUF_SZ m = m.
Proof.
  unfold syntax_msgs. rewrite !elem_of_cons, elem_of_nil.
  intros [-> | [-> | [-> | [-> | [-> | [-> | []]]]]]]; reflexivity.
Qed.

(** X18.  What the shell does with a line that is not [exit].  It prints
    the prompt, and then:
    - nothing for a line without a token, also when the line holds
      whitespace that the test of [main] does not know (\v, \f): no message
      is printed and nothing is executed;
    - for a line that [parse_line] rejects, one of the six messages of the
      parser, whole, and nothing is executed;
    - for any other line, one call of [execute_pipeline] on the [Pipeline]
      of the line, with the descriptors the shell has at that time.
    Then it goes on with the next line. *)
Theorem shell_line (sys : nat -> os) (raw : string) (rest : list string)
    (k : nat) (t : fdtable) :
  let line := strip_newline raw in
  let r := parse_line (Some line) ERRBUF_SZ in
  let x := execute_pipeline (sys k) t (Some (out r)) in
  is_exit line = false ->
  main_loop sys (raw :: rest) k t =
    (if bool_decide (tokenize (Some line) = []) then
       after [ShPrompt] (main_loop sys rest k t)
     else if bool_decide (ret r = 0%Z) then
       after [ShPrompt; ShExecute (out r) x]
         (main_loop sys rest (S k) (x_fds x))
     else
       after [ShPrompt; ShError (err r)] (main_loop sys rest k t)) /\
  (tokenize (Some line) <> [] -> ret r <> 0%Z -> err r ∈ syntax_msgs).
Proof.
  intros line r x Hexit. subst r x. rewrite main_loop_cons. cbn zeta.
  fold line. rewrite Hexit. unfold parse_line.
  destruct (only_ws line) eqn:Hws.
  { apply only_ws_toks in Hws. rewrite <- tokenize_toks in Hws.
    rewrite Hws. by rewrite bool_decide_eq_true_2. }
  destruct (tokenize (Some line)) as [|t0 tl] eqn:Ht.
  { rewrite bool_decide_eq_true_2 by done. done. }
  rewrite bool_decide_eq_false_2 by done.
  destruct (parse_tokens_outcomes (t0 :: tl) ERRBUF_SZ ltac:(done))
    as [(Hr & _) | (Hr & _ & m & Hm & He)].
  - rewrite Hr. cbn [Z.eqb negb]. by rewrite bool_decide_eq_true_2.
  - rewrite Hr. cbn [Z.eqb negb]. rewrite bool_decide_eq_false_2 by done.
    rewrite He, (syntax_msgs_head m Hm). cbn [negb].
    split; [done |]. intros _ _. by rewrite syntax_msgs_fit.
Qed.

Lemma shell_line_witness :
  let sys := fun _ : nat => os_ok in
  let r := parse_line (Some (strip_newline "ls | | wc
")) ERRBUF_SZ in
  let x := execute_pipeline os_ok shell_fds (Some (out r)) in
  main_loop sys ["ls | | wc
"] 0 shell_fds =
    (if bool_decide (tokenize (Some (strip_newline "ls | | wc
")) = []) then
       after [ShPrompt] (main_loop sys [] 0 shell_fds)
     else if bool_decide (ret r = 0%Z) then
       after [ShPrompt; ShExecute (out r) x]
         (main_loop sys [] 1 (x_fds x))
     else
       after [ShPrompt; ShError (err r)] (main_loop sys [] 0 shell_fds)) /\
  (tokenize (Some (strip_newline "ls | | wc
")) <> [] -> ret r <> 0%Z -> err r ∈ syntax_msgs).
Proof.
  apply (shell_line (fun _ => os_ok) "ls | | wc
" [] 0 shell_fds).
  reflexivity.
Defined.

(** X19.  The shell keeps its descriptors.  Whatever the lines it reads
    and whatever fails while it executes them, at the end of the loop
    every descriptor of the shell is as it was at the start. *)
Theorem shell_keeps_descriptors (sys : nat -> os) (input : list string) :
  forall k t, agree t (main_loop sys input k t).2.
Proof.
  induction input as [|raw rest IH]; intros k t; [apply agree_refl |].
  rewrite main_loop_cons. cbn zeta.
  destruct (only_ws _); [apply IH |].
  destruct (is_exit _); [apply agree_refl |].
  destruct (negb _); [apply IH |].
  unfold after. cbn [snd].
  eapply agree_trans; [apply execute_pipeline_agree | apply IH].
Qed.

(** X20.  The shell executes only what the parser accepted.  Every
    [Pipeline] that the loop of [main] hands to [execute_pipeline] is the
    one [parse_line] built, with return value 0, from a line of the input,
    and no child of any of these executions reads through a NULL
    pointer. *)
Theorem shell_executes_parsed (sys : nat -> os) (input : list string)
    (p : Pipeline) (x : exec_result) :
  forall k t,
    ShExecute p x ∈ (main_loop sys input k t).1 ->
    (exists raw,
       raw ∈ input /\
       ret (parse_line (Some (strip_newline raw)) ERRBUF_SZ) = 0%Z /\
       p = out (parse_line (Some (strip_newline raw)) ERRBUF_SZ)) /\
    (exists k' t', agree t t' /\ x = execute_pipeline (sys k') t' (Some p)) /\
    Forall (fun cr => c_end cr <> Faults) (x_children x).
Proof.
  induction input as [|raw rest IH]; intros k t.
  { cbn. set_solver. }
  assert (forall k1 t1,
    agree t t1 ->
    ShExecute p x ∈ (main_loop sys rest k1 t1).1 ->
    (exists raw0,
       raw0 ∈ raw :: rest /\
       ret (parse_line (Some (strip_newline raw0)) ERRBUF_SZ) = 0%Z /\
       p = out (parse_line (Some (strip_newline raw0)) ERRBUF_SZ)) /\
    (exists k' t', agree t t' /\ x = execute_pipeline (sys k') t' (Some p)) /\
    Forall (fun cr => c_end cr <> Faults) (x_children x)) as Hrest.
  { intros k1 t1 Hag Hin.
    destruct (IH k1 t1 Hin) as ((raw0 & Hraw & Hp) & (k' & t' & Ht & Hx) & Hf).
    split; [exists raw0; split; [by right | done] |]. split; [| done].
    exists k', t'. split; [by eapply agree_trans | done]. }
  rewrite main_loop_cons. cbn zeta.
  destruct (only_ws _).
  { unfold after. cbn [fst app]. rewrite elem_of_cons.
    intros [[=] | Hin]. apply (Hrest _ _ (agree_refl t) Hin). }
  destruct (is_exit _); [cbn; set_solver |].
  destruct (Z.eqb_spec
              (ret (parse_line (Some (strip_newline raw)) ERRBUF_SZ)) 0)
    as [Hret | Hret]; cbn [negb].
  - unfold after. cbn [fst app]. rewrite !elem_of_cons.
    intros [[=] | [[= -> ->] | Hin]].
    + split; [exists raw; split; [by left | done] |].
      split; [exists k, t; split; [apply agree_refl | done] |].
      apply Forall_lookup. intros i cr Hcr.
      pose proof Hret as Hret'. unfold parse_line in Hret'.
      apply parse_tokens_ok in Hret' as (_ & _ & _ & _ & cs & E & Hcs).
      unfold parse_line in Hcr |- *. rewrite E in Hcr. cbn [out] in Hcr.
      destruct (execute_pipeline_children_fresh _ _ _ i cr Hcr)
        as (fds & t1 & _ & _ & Hi & ->).
      cbn [n_cmds] in Hi.
      pose proof (Forall2_length _ _ _ Hcs) as Hlen.
      destruct (lookup_lt_is_Some_2 cs i) as [c Hc]; [lia |].
      destruct (Forall2_lookup_r _ _ _ _ _ Hcs Hc) as (seg & _ & Hcmd).
      destruct Hcmd as (ws' & _ & Hne & Ha & _).
      destruct ws' as [|w ws]; [done |].
      by apply (child_run_words _ _ _ _ c w ws).
    + apply (Hrest _ _ (execute_pipeline_agree _ _ _) Hin).
  - unfold after. cbn [fst]. rewrite elem_of_app.
    intros [Hin | Hin]; [| apply (Hrest _ _ (agree_refl t) Hin)].
    exfalso. destruct (negb (is_nul _)); set_solver.
Qed.

Lemma shell_executes_parsed_witness :
  let sys := fun _ : nat => os_ok in
  let input := ["ls
"; "exit
"] in
  let p := out (parse_line (Some (strip_newline "ls
")) ERRBUF_SZ) in
  let x := execute_pipeline os_ok shell_fds (Some p) in
  (exists raw,
     raw ∈ input /\
     ret (parse_line (Some (strip_newline raw)) ERRBUF_SZ) = 0%Z /\
     p = out (parse_line (Some (strip_newline raw)) ERRBUF_SZ)) /\
  (exists k' t',
     agree shell_fds t' /\ x = execute_pipeline (sys k') t' (Some p)) /\
  Forall (fun cr => c_end cr <> Faults) (x_children x).
Proof.
  intros sys input p x.
  apply (shell_executes_parsed sys input p x 0 shell_fds).
  apply list_elem_of_further, list_elem_of_here.
Defined.
